(** * Guardia planning app: shift registry, pick ledger and fairness resolver

    A shallow embedding of the decision logic of the guardia planner:
    - [Planner] follows the "clean static version" (the IIFE with [state],
      [statsFor], [whoIsAssigned], [resolveConflictsFair],
      [randomAssignRemaining] and the admin / checkbox handlers);
    - [Legacy] follows [script.js] (global [shifts], [userPicks],
      [handleSelect], [resolveConflicts], [addNewShift]);
    - [LegacyPage] adds what [script.js] does around that state:
      [formatDate], the month tables of [updateCalendar], and [saveState] /
      [loadState] with the storage as a part of the page;
    - [Original] follows the first version of the script (sixteen fixed
      shifts, [selectShift], a [resolveConflicts] that compares the numbers
      of claims only);
    - [PlannerPage] adds to [Planner] the rebuilding of the [assigned] arrays
      by [renderPlanning], the order of the rows, and the reset and start
      buttons.

    [Math.random] is an oracle [rnd : nat -> Z] read through a counter; a
    JavaScript [TypeError] is the [None] of [option]. In [Planner] and
    [Legacy] rendering, toasts' timers and [localStorage] are left out: a
    handler is the change it makes to the state together with the message it
    shows. Of the rendering functions only two write to the state of the
    clean version: [hydrateResidents], which changes nothing once it has run
    (it runs as soon as the state exists), and [renderPlanning], which
    refills the [assigned] display cache of the shifts. *)

From Stdlib Require Import ZArith Ascii String.
From stdpp Require Import gmap strings list fin_maps sorting pretty.

Local Open Scope Z_scope.

(** ** The pieces of the JavaScript runtime the program relies on *)
Module JS.

(** [s.includes(c)] for a one-character needle. *)
Fixpoint includesChar (c : ascii) (s : string) : bool :=
  match s with
  | EmptyString => false
  | String a s' => if decide (a = c) then true else includesChar c s'
  end.

(** [s.split(c)] for a one-character separator: the pieces between the
    separators, in order (the empty string yields one empty piece). *)
Fixpoint splitAux (c : ascii) (s : string) (cur : string) : list string :=
  match s with
  | EmptyString => [String.rev cur]
  | String a s' =>
      if decide (a = c) then String.rev cur :: splitAux c s' EmptyString
      else splitAux c s' (String a cur)
  end.

Definition split (c : ascii) (s : string) : list string := splitAux c s EmptyString.

Definition digitOf (a : ascii) : option Z :=
  let n := Z.of_nat (nat_of_ascii a) in
  if (48 <=? n) && (n <=? 57) then Some (n - 48) else None.

Fixpoint digitsAcc (s : string) (acc : Z) : option Z :=
  match s with
  | EmptyString => Some acc
  | String a s' =>
      match digitOf a with
      | Some d => digitsAcc s' (10 * acc + d)
      | None => None
      end
  end.

(** [Number(s)] on the strings a date field produces: the empty string is 0,
    a run of decimal digits is its value; [None] stands for [NaN]. Signs,
    fractions, exponents, radix prefixes and surrounding blanks are outside
    this model and read as [NaN]. *)
Definition Number (s : string) : option Z := digitsAcc s 0.

(** The longest prefix of decimal digits, as a value and a count. *)
Fixpoint digitPrefix (s : string) (acc : Z) (seen : bool) : option Z :=
  match s with
  | EmptyString => if seen then Some acc else None
  | String a s' =>
      match digitOf a with
      | Some d => digitPrefix s' (10 * acc + d) true
      | None => if seen then Some acc else None
      end
  end.

(** [parseInt(s, 10)] without a sign or leading blanks: the value of the
    leading digits, [NaN] when there are none. *)
Definition parseInt (s : string) : option Z := digitPrefix s 0 false.

(** ECMAScript's calendar arithmetic (ECMA-262, "Time Values"). *)
Definition DayFromYear (y : Z) : Z :=
  365 * (y - 1970) + (y - 1969) / 4 - (y - 1901) / 100 + (y - 1601) / 400.

Definition InLeapYear (y : Z) : bool :=
  ((y mod 4 =? 0) && negb (y mod 100 =? 0)) || (y mod 400 =? 0).

Definition monthStart (mn : Z) (leap : bool) : Z :=
  let l := if leap then 1 else 0 in
  if mn =? 0 then 0 else if mn =? 1 then 31
  else if mn =? 2 then 59 + l else if mn =? 3 then 90 + l
  else if mn =? 4 then 120 + l else if mn =? 5 then 151 + l
  else if mn =? 6 then 181 + l else if mn =? 7 then 212 + l
  else if mn =? 8 then 243 + l else if mn =? 9 then 273 + l
  else if mn =? 10 then 304 + l else 334 + l.

(** [MakeDay(year, month, date)]: the day number of the given date. *)
Definition MakeDay (year month dt : Z) : Z :=
  let ym := year + month / 12 in
  let mn := month mod 12 in
  DayFromYear ym + monthStart mn (InLeapYear ym) + dt - 1.

(** [Date.UTC(y, m, d)] as a day number: years 0..99 mean 1900..1999;
    [MakeDay] needs the first of the month to be a time value and
    [TimeClip] needs the date to be one, that is, within 10^8 days of the
    epoch. *)
Definition DateUTC (y m d : option Z) : option Z :=
  match y, m, d with
  | Some y, Some m, Some d =>
      let yr := if (0 <=? y) && (y <=? 99) then 1900 + y else y in
      let day := MakeDay yr m d in
      if (Z.abs (MakeDay yr m 1) <=? 100000000) && (Z.abs day <=? 100000000)
      then Some day else None
  | _, _, _ => None
  end.

(** [getUTCDay()]: 0 is Sunday, ..., 6 is Saturday; [None] is [NaN]. *)
Definition getUTCDay (t : option Z) : option Z :=
  match t with
  | Some day => Some ((day + 4) mod 7)
  | None => None
  end.

Definition upperChar (a : ascii) : ascii :=
  let n := nat_of_ascii a in
  if (97 <=? n)%nat && (n <=? 122)%nat then ascii_of_nat (n - 32) else a.

Definition lowerChar (a : ascii) : ascii :=
  let n := nat_of_ascii a in
  if (65 <=? n)%nat && (n <=? 90)%nat then ascii_of_nat (n + 32) else a.

Fixpoint mapChars (f : ascii -> ascii) (s : string) : string :=
  match s with
  | EmptyString => EmptyString
  | String a s' => String (f a) (mapChars f s')
  end.

(** [toUpperCase] / [toLowerCase] on ASCII text. *)
Definition toUpperCase (s : string) : string := mapChars upperChar s.
Definition toLowerCase (s : string) : string := mapChars lowerChar s.

(** [l.includes(x)] and [l.filter(y => y !== x)] on arrays of strings. *)
Definition includes (l : list string) (x : string) : bool := bool_decide (x ∈ l).
Definition without (x : string) (l : list string) : list string :=
  filter (λ y, y ≠ x) l.

(** [l.indexOf(x)] followed by [splice(idx, 1)] when found: the first
    occurrence is dropped. *)
Fixpoint removeFirst (x : string) (l : list string) : list string :=
  match l with
  | [] => []
  | y :: l' => if decide (y = x) then l' else y :: removeFirst x l'
  end.

(** *** [Array.prototype.sort] with a comparator that may draw random numbers

    The comparator is given the counter of the oracle and returns the next
    one. The engine is modelled as a stable insertion sort: the element being
    placed is the first argument of the comparator, and it goes in front of
    the first element it is strictly smaller than. *)
Section Sort.
Context {A : Type}.
Variable cmp : A → A → nat → Z * nat.

Fixpoint insertM (x : A) (l : list A) (n : nat) : list A * nat :=
  match l with
  | [] => ([x], n)
  | y :: l' =>
      let '(c, n1) := cmp x y n in
      if c <? 0 then (x :: y :: l', n1)
      else let '(r, n2) := insertM x l' n1 in (y :: r, n2)
  end.

Fixpoint sortFrom (sorted : list A) (todo : list A) (n : nat) : list A * nat :=
  match todo with
  | [] => (sorted, n)
  | x :: todo' =>
      let '(sorted', n1) := insertM x sorted n in
      sortFrom sorted' todo' n1
  end.

Definition sortM (l : list A) (n : nat) : list A * nat := sortFrom [] l n.
End Sort.

(** A list whose head, if any, is below all of its elements. *)
Definition headMin {A} (le : A → A → Prop) (l : list A) : Prop :=
  ∀ h, head l = Some h → ∀ y, y ∈ l → le h y.

End JS.

(** ** The clean static version: one [state] aggregate, claims kept per resident *)
Module Planner.
Import JS.

Definition DEFAULT_RESIDENTS : list string :=
  ["Resident 1"; "Resident 2"; "Resident 3"; "Resident 4"]%string.
Definition DEFAULT_TYPES : list string := ["Puerta"; "Observa"; "Traumato"]%string.
Definition DEFAULT_SLOTS_PER_RESIDENT : Z := 4.
(** [FAIRNESS.monFriWeight] *)
Definition monFriWeight : Z := 1.

Record Shift := mkShift {
  shiftId : string;            (* id *)
  date : string;               (* 'YYYY-MM-DD' *)
  type : string;
  assigned : list string       (* display cache, rebuilt by renderPlanning *)
}.

Record Config := mkConfig {
  slotsPerResident : Z;
  types : list string
}.

Record State := mkState {
  setupDone : bool;
  config : Config;
  residents : list string;
  shifts : list Shift;
  picks : gmap string (list string);
  finished : gmap string bool
}.

Definition setPicks (st : State) (p : gmap string (list string)) : State :=
  mkState (setupDone st) (config st) (residents st) (shifts st) p (finished st).
Definition setShifts (st : State) (l : list Shift) : State :=
  mkState (setupDone st) (config st) (residents st) l (picks st) (finished st).
Definition setFinished (st : State) (f : gmap string bool) : State :=
  mkState (setupDone st) (config st) (residents st) (shifts st) (picks st) f.

(** What a handler tells the user. [ToastMax n] is the toast
    "Max n guardias.". *)
Inductive Feedback :=
| Alert (msg : string)
| Toast (msg : string)
| ToastMax (n : Z)
| Silent.

(** [hydrateResidents]: every resident gets a claim list and a lock flag. *)
Definition hydrateOne (st : State) (r : string) : State :=
  let p := match picks st !! r with
           | Some _ => picks st
           | None => <[r := []]> (picks st)
           end in
  let f := match finished st !! r with
           | Some _ => finished st
           | None => <[r := false]> (finished st)
           end in
  mkState (setupDone st) (config st) (residents st) (shifts st) p f.

Definition hydrateResidents (st : State) : State :=
  fold_left hydrateOne (residents st) st.

Definition initialState : State :=
  hydrateResidents
    (mkState false (mkConfig DEFAULT_SLOTS_PER_RESIDENT DEFAULT_TYPES)
       DEFAULT_RESIDENTS [] ∅ ∅).

(** [idFor(date, type)] *)
Definition idFor (d t : string) : string := (d ++ "__" ++ toUpperCase t)%string.

(** [weekdayUTC(iso)]: split at the dashes, convert with [Number], take the
    first three values, and ask [Date.UTC] for the weekday. *)
Definition weekdayUTC (iso : string) : option Z :=
  let nums := map Number (split "-" iso) in
  let y := mjoin (nums !! 0%nat) in
  let m := mjoin (nums !! 1%nat) in
  let d := mjoin (nums !! 2%nat) in
  getUTCDay (DateUTC y ((λ v, v - 1) <$> m) d).

Definition isMon (iso : string) : bool := bool_decide (weekdayUTC iso = Some 1).
Definition isFri (iso : string) : bool := bool_decide (weekdayUTC iso = Some 5).
Definition isMonOrFri (iso : string) : bool := isMon iso || isFri iso.

(** [state.picks[name] || []] *)
Definition picksOf (st : State) (name : string) : list string :=
  default [] (picks st !! name).

(** [state.shifts.find(x => x.id === id)] *)
Definition findShift (st : State) (i : string) : option Shift :=
  List.find (λ x, bool_decide (shiftId x = i)) (shifts st).

Record Stats := mkStats { total : Z; monfri : Z }.

(** [statsFor(name)] *)
Definition statsFor (st : State) (name : string) : Stats :=
  let ids := picksOf st name in
  mkStats (Z.of_nat (length ids))
    (fold_left
       (λ c i, c + match findShift st i with
                   | Some s => if isMonOrFri (date s) then 1 else 0
                   | None => 0
                   end)
       ids 0).

(** [whoIsAssigned(shiftId)] *)
Definition whoIsAssigned (st : State) (i : string) : list string :=
  filter (λ r, i ∈ picksOf st r) (residents st).

Section WithOracle.
(** [rnd k] is the sign of the k-th [Math.random() - 0.5]. *)
Variable rnd : nat → Z.

(** [metric] and [better] of [resolveConflictsFair]. *)
Definition metric (st : State) (name : string) : Z * Z :=
  let s := statsFor st name in (total s, monfri s).

Definition better (a b : Z * Z) : Z :=
  if decide (a.1 ≠ b.1) then a.1 - b.1
  else if decide (monFriWeight > 0 ∧ a.2 ≠ b.2) then a.2 - b.2
  else 0.

(** The comparator handed to [sort] by [resolveConflictsFair]. *)
Definition fairCmp (st : State) (ra rb : string) (n : nat) : Z * nat :=
  let c := better (metric st ra) (metric st rb) in
  if decide (c ≠ 0) then (c, n) else (rnd n, S n).

(** The inner loop: every contender but the winner loses the claim. *)
Fixpoint removeLosers (winner : option string) (i : string)
    (cs : list string) (st : State) : option State :=
  match cs with
  | [] => Some st
  | r :: cs' =>
      if decide (Some r = winner) then removeLosers winner i cs' st
      else
        l ← picks st !! r;
        removeLosers winner i cs' (setPicks st (<[r := without i l]> (picks st)))
  end.

(** One turn of the loop over [state.shifts]; [contenders] is the entry
    of [idToResidents] for the shift. *)
Definition resolveShift (contenders : list string) (s : Shift)
    (st : State) (n : nat) : option (State * nat) :=
  if decide (length contenders ≤ 1)%nat then Some (st, n)
  else
    let '(ranked, n') := sortM (fairCmp st) contenders n in
    let winner := head ranked in
    st' ← removeLosers winner (shiftId s) contenders st;
    Some (st', n').

Fixpoint resolveLoop (idToResidents : string → list string)
    (l : list Shift) (st : State) (n : nat) : option (State * nat) :=
  match l with
  | [] => Some (st, n)
  | s :: l' =>
      '(st', n') ← resolveShift (idToResidents (shiftId s)) s st n;
      resolveLoop idToResidents l' st' n'
  end.

(** [resolveConflictsFair()]: the contenders of every shift are looked up
    once, before the loop. *)
Definition resolveConflictsFair (st : State) (n : nat) : option (State * nat) :=
  resolveLoop (whoIsAssigned st) (shifts st) st n.

(** The comparator of [randomAssignRemaining]. *)
Definition fillCmp (st : State) (ra rb : string) (n : nat) : Z * nat :=
  let a := statsFor st ra in
  let b := statsFor st rb in
  if decide (total a ≠ total b) then (total a - total b, n)
  else if decide (monfri a ≠ monfri b) then (monfri a - monfri b, n)
  else (rnd n, S n).

(** [!state.picks[r].includes(id) && state.picks[r].length < slotsPerResident] *)
Definition canTake (st : State) (r i : string) : option bool :=
  l ← picks st !! r;
  Some (negb (includes l i) && (Z.of_nat (length l) <? slotsPerResident (config st))).

(** [state.picks[r].push(id)] *)
Definition pushPick (st : State) (r i : string) : State :=
  setPicks st (<[r := picksOf st r ++ [i]]> (picks st)).

Fixpoint tryNext (i : string) (cands : list string) (st : State) : option State :=
  match cands with
  | [] => Some st
  | cand :: rest =>
      b ← canTake st cand i;
      if (b : bool) then Some (pushPick st cand i) else tryNext i rest st
  end.

(** One turn of the loop over the empty shifts. [ranked[0]] of an empty
    array is [undefined], which as a property key is "undefined". *)
Definition assignOne (s : Shift) (st : State) (n : nat) : option (State * nat) :=
  let '(ranked, n') := sortM (fillCmp st) (residents st) n in
  let chosen := default "undefined"%string (head ranked) in
  b ← canTake st chosen (shiftId s);
  if (b : bool) then Some (pushPick st chosen (shiftId s), n')
  else st' ← tryNext (shiftId s) (tail ranked) st; Some (st', n').

Fixpoint assignLoop (l : list Shift) (st : State) (n : nat) : option (State * nat) :=
  match l with
  | [] => Some (st, n)
  | s :: l' => '(st', n') ← assignOne s st n; assignLoop l' st' n'
  end.

(** [randomAssignRemaining()] *)
Definition randomAssignRemaining (st : State) (n : nat) : option (State * nat) :=
  let empty := filter (λ s, length (whoIsAssigned st (shiftId s)) = 0%nat) (shifts st) in
  assignLoop empty st n.

(** The click handler of the "Random assign remaining" button: the toast
    does not depend on what [randomAssignRemaining] did. *)
Definition randomBtnClick (st : State) (n : nat) : option (Feedback * State * nat) :=
  '(st', n') ← randomAssignRemaining st n;
  Some (Toast "Random assignment complete.", st', n').

Definition resolveBtnClick (st : State) (n : nat) : option (Feedback * State * nat) :=
  '(st', n') ← resolveConflictsFair st n;
  Some (Toast "Conflicts resolved fairly.", st', n').
End WithOracle.

(** The click handler of "Add guardia". *)
Definition addGuardia (d t : string) (st : State) : Feedback * State :=
  if decide (d = ""%string ∨ t = ""%string) then (Alert "Please choose date and type.", st)
  else
    let i := idFor d t in
    if existsb (λ s, bool_decide (shiftId s = i)) (shifts st)
    then (Alert "That guardia already exists.", st)
    else (Silent, setShifts st (shifts st ++ [mkShift i d t []])).

(** The click handler of "Finish setup". *)
Definition finishSetup (st : State) : Feedback * State :=
  if decide (shifts st = []) then (Alert "Add at least one guardia before finishing.", st)
  else (Toast "Setup complete. Residents can now choose.",
        mkState true (config st) (residents st) (shifts st) (picks st) (finished st)).

(** The [onclick] of a "Remove" button, for the shift with id [i]. *)
Fixpoint purge (i : string) (rs : list string) (st : State) : option State :=
  match rs with
  | [] => Some st
  | r :: rs' =>
      l ← picks st !! r;
      purge i rs' (setPicks st (<[r := without i l]> (picks st)))
  end.

Definition removeShift (i : string) (st : State) : option State :=
  purge i (residents st)
    (setShifts st (filter (λ x, shiftId x ≠ i) (shifts st))).

(** The [change] listener of the checkbox of shift [i] in the table of
    resident [name]; [checked] is the state of the box after the click. *)
Definition onCheckboxChange (name i : string) (checked : bool) (st : State)
    : option (Feedback * State) :=
  arr ← picks st !! name;
  if checked then
    if Z.of_nat (length arr) >=? slotsPerResident (config st)
    then Some (ToastMax (slotsPerResident (config st)), st)
    else Some (Toast "Selections saved",
               if includes arr i then st
               else setPicks st (<[name := arr ++ [i]]> (picks st)))
  else
    Some (Toast "Selections saved",
          setPicks st (<[name := without i arr]> (picks st))).

(** [!!state.finished[name]] *)
Definition meFinished (st : State) (name : string) : bool :=
  default false (finished st !! name).

(** Claiming and unclaiming through the table: [renderPlanning] disables the
    checkboxes of a resident who has finished, and a disabled checkbox
    sends no [change] event. *)
Definition claim (name i : string) (st : State) : option (Feedback * State) :=
  if meFinished st name then Some (Silent, st)
  else onCheckboxChange name i true st.

Definition unclaim (name i : string) (st : State) : option (Feedback * State) :=
  if meFinished st name then Some (Silent, st)
  else onCheckboxChange name i false st.

(** The "finish" and "unlock" buttons. *)
Definition finish (me : string) (st : State) : State :=
  setFinished st (<[me := true]> (finished st)).
Definition unlock (me : string) (st : State) : State :=
  setFinished st (<[me := false]> (finished st)).

(** *** Ledger properties used in the statements *)

(** Everything but the claim lists is the same in both states. *)
Definition sameFrame (st st' : State) : Prop :=
  setupDone st' = setupDone st ∧ config st' = config st ∧
  residents st' = residents st ∧ shifts st' = shifts st ∧
  finished st' = finished st.

(** [hydrateResidents] has run: every resident owns a claim list. *)
Definition hydrated (st : State) : Prop :=
  ∀ r, r ∈ residents st → is_Some (picks st !! r).

(** No claim list is longer than the quota. *)
Definition withinQuota (st : State) : Prop :=
  ∀ r l, picks st !! r = Some l → Z.of_nat (length l) ≤ slotsPerResident (config st).

(** At most one resident claims shift [i]. *)
Definition atMostOne (st : State) (i : string) : Prop :=
  ∀ r1 r2, r1 ∈ residents st → r2 ∈ residents st →
    i ∈ picksOf st r1 → i ∈ picksOf st r2 → r1 = r2.

(** The claim lists of [st'] are sublists of those of [st], with the same
    owners. *)
Definition shrinks (st st' : State) : Prop :=
  sameFrame st st' ∧
  (∀ r, is_Some (picks st' !! r) ↔ is_Some (picks st !! r)) ∧
  (∀ r, picksOf st' r `sublist_of` picksOf st r).

(** The lexicographic order on fairness keys. *)
Definition keyLe (a b : Z * Z) : Prop := a.1 < b.1 ∨ (a.1 = b.1 ∧ a.2 ≤ b.2).

(** [T] answers "who claimed this id" at least as generously as the ledger
    does, and only names owners of a claim list. *)
Definition covers (T : string → list string) (st : State) : Prop :=
  (∀ i r, r ∈ T i → is_Some (picks st !! r)) ∧
  (∀ i r, r ∈ residents st → i ∈ picksOf st r → r ∈ T i).

(** A claim or an unclaim coming from the table. *)
Inductive Op :=
| OpClaim (name i : string)
| OpUnclaim (name i : string).

(** One event: a listener that throws leaves the state as it found it (the
    listeners modelled here read [state.picks[name]] before they write). *)
Definition applyOp (op : Op) (st : State) : State :=
  match op with
  | OpClaim name i => match claim name i st with Some (_, st') => st' | None => st end
  | OpUnclaim name i => match unclaim name i st with Some (_, st') => st' | None => st end
  end.

Definition runOps (ops : list Op) (st : State) : State :=
  fold_left (λ st op, applyOp op st) ops st.

(** Every id was built by [idFor] from the date and type next to it. *)
Definition idsDerived (st : State) : Prop :=
  ∀ s, s ∈ shifts st → shiftId s = idFor (date s) (type s).

(** Every claim of a resident names a registered shift. *)
Definition claimsRegistered (st : State) : Prop :=
  ∀ r x, r ∈ residents st → x ∈ picksOf st r → ∃ s, s ∈ shifts st ∧ shiftId s = x.

(** [cands] is walked in order and the first one able to take the shift
    gets it. *)
Definition firstAble (st : State) (i : string) (cands : list string) (st' : State) : Prop :=
  (∃ pre w post, cands = pre ++ w :: post ∧
     (∀ c, c ∈ pre → canTake st c i = Some false) ∧
     canTake st w i = Some true ∧ st' = pushPick st w i) ∨
  ((∀ c, c ∈ cands → canTake st c i = Some false) ∧ st' = st).

(** Claims are only added, and only for the shifts of [l]. *)
Definition grows (l : list Shift) (st st' : State) : Prop :=
  sameFrame st st' ∧
  (∀ r x, x ∈ picksOf st r → x ∈ picksOf st' r) ∧
  (∀ r x, x ∈ picksOf st' r → x ∈ picksOf st r ∨ ∃ s, s ∈ l ∧ shiftId s = x).

(** The ledger is well formed: the residents are distinct and there is at
    least one, everybody owns a claim list within the quota, the shift ids
    are distinct and derived by [idFor], and claims name registered shifts. *)
Record valid (st : State) : Prop := mkValid {
  valid_residents : NoDup (residents st) ∧ residents st ≠ [];
  valid_hydrated : hydrated st;
  valid_quota : withinQuota st;
  valid_ids : NoDup (shiftId <$> shifts st);
  valid_derived : idsDerived st;
  valid_registered : claimsRegistered st
}.

(** What the page can do to the state. *)
Inductive Event :=
| EvAdd (d t : string)
| EvFinishSetup
| EvRemove (i : string)
| EvClaim (name i : string)
| EvUnclaim (name i : string)
| EvFinish (me : string)
| EvUnlock (me : string)
| EvResolve
| EvRandom.

(** The admin list and the planning table have a row, hence a button or a
    checkbox, for the registered shifts only. *)
Definition registered (st : State) (i : string) : bool :=
  existsb (λ s, bool_decide (shiftId s = i)) (shifts st).

(** One event on the state and the oracle's counter; a listener that throws
    is recorded as leaving the state alone. *)
Definition step (rnd : nat → Z) (e : Event) (sn : State * nat) : State * nat :=
  match e with
  | EvAdd d t => ((addGuardia d t sn.1).2, sn.2)
  | EvFinishSetup => ((finishSetup sn.1).2, sn.2)
  | EvRemove i =>
      if registered sn.1 i then
        match removeShift i sn.1 with
        | Some st' => (st', sn.2)
        | None => sn
        end
      else sn
  | EvClaim name i =>
      if registered sn.1 i then (applyOp (OpClaim name i) sn.1, sn.2) else sn
  | EvUnclaim name i =>
      if registered sn.1 i then (applyOp (OpUnclaim name i) sn.1, sn.2) else sn
  | EvFinish me => (finish me sn.1, sn.2)
  | EvUnlock me => (unlock me sn.1, sn.2)
  | EvResolve =>
      match resolveConflictsFair rnd sn.1 sn.2 with
      | Some r => r
      | None => sn
      end
  | EvRandom =>
      match randomAssignRemaining rnd sn.1 sn.2 with
      | Some r => r
      | None => sn
      end
  end.

Definition run (rnd : nat → Z) (es : list Event) (sn : State * nat) : State * nat :=
  fold_left (λ sn e, step rnd e sn) es sn.

End Planner.

(** ** [script.js]: global arrays, every shift stores its [assigned] list *)
Module Legacy.
Import JS.

Definition users : list string :=
  ["Resident 1"; "Resident 2"; "Resident 3"; "Resident 4"]%string.
Definition maxShiftsPerUser : Z := 4.

Record Shift := mkShift {
  shiftId : string;            (* id *)
  date : string;
  type : string;
  assigned : list string
}.

Record State := mkState {
  shifts : list Shift;
  userPicks : gmap string (list string);
  finishedUsers : gmap string bool;
  currentUser : option string   (* None is null *)
}.

Inductive Feedback :=
| Alert (msg : string)
| AlertMax (n : Z)              (* "You have already selected n guardias." *)
| Status (msg : string)
| Silent.

(** [users.forEach(u => { userPicks[u] = []; })] *)
Definition clearPicks (p : gmap string (list string)) : gmap string (list string) :=
  fold_left (λ p u, <[u := []]> p) users p.

Definition initialState : State := mkState [] (clearPicks ∅) ∅ None.

(** The start button: the chosen name becomes the current user. *)
Definition login (u : string) (st : State) : State :=
  if decide (u = ""%string) then st
  else mkState (shifts st) (userPicks st) (finishedUsers st) (Some u).

(** [shifts.find(s => s.id === shiftId)] *)
Definition findShift (st : State) (i : string) : option Shift :=
  List.find (λ x, bool_decide (shiftId x = i)) (shifts st).

(** Writing [shift.assigned] through the object [find] returned: the first
    shift with that id changes. *)
Fixpoint setAssignedFirst (i : string) (f : list string → list string)
    (l : list Shift) : list Shift :=
  match l with
  | [] => []
  | s :: l' =>
      if decide (shiftId s = i)
      then mkShift (shiftId s) (date s) (type s) (f (assigned s)) :: l'
      else s :: setAssignedFirst i f l'
  end.

Section WithRuntime.
(** [rnd k] is the sign of the k-th [Math.random() - 0.5], so that
    [Math.random() < 0.5] is [rnd k < 0]; [localDay d] is
    [new Date(d).getDay()], which depends on the engine and its time
    zone. *)
Variable rnd : nat → Z.
Variable localDay : string → option Z.

(** The weekday test inside [computeMonFriCount], for one date string. *)
Definition monFriDate (d : string) : bool :=
  if includesChar "-" d then
    let parts := split "-" d in
    let year := parts !! 0%nat ≫= parseInt in
    let monthIndex := (λ v, v - 1) <$> (parts !! 1%nat ≫= parseInt) in
    let day := parts !! 2%nat ≫= parseInt in
    let dow := getUTCDay (DateUTC year monthIndex day) in
    bool_decide (dow = Some 1) || bool_decide (dow = Some 5)
  else if includesChar "/" d then
    let parts := split "/" d in
    let monthIndex := (λ v, v - 1) <$> (parts !! 0%nat ≫= parseInt) in
    let day := parts !! 1%nat ≫= parseInt in
    let year := parts !! 2%nat ≫= parseInt in
    let dow := getUTCDay (DateUTC year monthIndex day) in
    bool_decide (dow = Some 1) || bool_decide (dow = Some 5)
  else
    let dow := localDay d in
    bool_decide (dow = Some 1) || bool_decide (dow = Some 5).

(** [computeMonFriCount(user)] *)
Definition computeMonFriCount (st : State) (user : string) : option Z :=
  ids ← userPicks st !! user;
  Some (fold_left
          (λ count i, match findShift st i with
                      | None => count
                      | Some s => if monFriDate (date s) then count + 1 else count
                      end)
          ids 0).

(** [handleSelect(shiftId)] *)
Definition handleSelect (i : string) (st : State) : option (Feedback * State) :=
  match currentUser st with
  | None => Some (Silent, st)
  | Some cu =>
      if decide (cu = ""%string) then Some (Silent, st)
      else if default false (finishedUsers st !! cu) then Some (Silent, st)
      else
        match findShift st i with
        | None => Some (Silent, st)
        | Some shift =>
            if includes (assigned shift) cu then
              let shifts' := setAssignedFirst i (without cu) (shifts st) in
              l ← userPicks st !! cu;
              Some (Status "Selections saved",
                    mkState shifts' (<[cu := removeFirst i l]> (userPicks st))
                      (finishedUsers st) (currentUser st))
            else
              l ← userPicks st !! cu;
              if Z.of_nat (length l) >=? maxShiftsPerUser
              then Some (AlertMax maxShiftsPerUser, st)
              else
                Some (Status "Selections saved",
                      mkState (setAssignedFirst i (λ a, a ++ [cu]) (shifts st))
                        (<[cu := l ++ [i]]> (userPicks st))
                        (finishedUsers st) (currentUser st))
        end
  end.

(** [finishSelection()] *)
Definition finishSelection (st : State) : State :=
  match currentUser st with
  | None => st
  | Some cu =>
      if decide (cu = ""%string) then st
      else mkState (shifts st) (userPicks st) (<[cu := true]> (finishedUsers st))
             (currentUser st)
  end.

(** The body of [shift.assigned.forEach(res => ...)] in [resolveConflicts]:
    [chosen] is [None] for [null]; [null] and the empty string are falsy. *)
Definition chooseStep (st : State) (acc : option string * nat) (res : string)
    : option (option string * nat) :=
  let '(chosen, n) := acc in
  match chosen with
  | None => Some (Some res, n)
  | Some c =>
      if decide (c = ""%string) then Some (Some res, n)
      else
        countA ← computeMonFriCount st res;
        countB ← computeMonFriCount st c;
        if countA <? countB then Some (Some res, n)
        else if countA =? countB then
          la ← userPicks st !! res;
          lb ← userPicks st !! c;
          if (length la <? length lb)%nat then Some (Some res, n)
          else if (length la =? length lb)%nat then
            Some (if rnd n <? 0 then Some res else Some c, S n)
          else Some (Some c, n)
        else Some (Some c, n)
  end.

Fixpoint chooseLoop (st : State) (acc : option string * nat) (l : list string)
    : option (option string * nat) :=
  match l with
  | [] => Some acc
  | res :: l' => acc' ← chooseStep st acc res; chooseLoop st acc' l'
  end.

(** The first [shifts.forEach] of [resolveConflicts]: [st] is the state the
    counts are read from ([userPicks] does not change in this loop), [l]
    the shifts still to visit. *)
Fixpoint keepChosen (st : State) (l : list Shift) (n : nat)
    : option (list Shift * nat) :=
  match l with
  | [] => Some ([], n)
  | s :: l' =>
      if decide (length (assigned s) ≤ 1)%nat then
        '(r, n') ← keepChosen st l' n; Some (s :: r, n')
      else
        '(chosen, n1) ← chooseLoop st (None, n) (assigned s);
        '(r, n2) ← keepChosen st l' n1;
        Some (mkShift (shiftId s) (date s) (type s)
                (match chosen with Some c => [c] | None => [] end) :: r, n2)
  end.

(** [shift.assigned.forEach(u => { userPicks[u].push(shift.id); })] *)
Fixpoint pushAll (i : string) (us : list string) (p : gmap string (list string))
    : option (gmap string (list string)) :=
  match us with
  | [] => Some p
  | u :: us' => l ← p !! u; pushAll i us' (<[u := l ++ [i]]> p)
  end.

Fixpoint rebuildPicks (l : list Shift) (p : gmap string (list string))
    : option (gmap string (list string)) :=
  match l with
  | [] => Some p
  | s :: l' => p' ← pushAll (shiftId s) (assigned s) p; rebuildPicks l' p'
  end.

(** [resolveConflicts()] *)
Definition resolveConflicts (st : State) (n : nat) : option (State * nat) :=
  '(shifts', n') ← keepChosen st (shifts st) n;
  p ← rebuildPicks shifts' (clearPicks (userPicks st));
  Some (mkState shifts' p (finishedUsers st) (currentUser st), n').
End WithRuntime.

(** [addNewShift()], with the values of the date and type fields. *)
Definition addNewShift (d t : string) (st : State) : Feedback * State :=
  if decide (d = ""%string) then (Alert "Please select a date for the guardia.", st)
  else
    let i := (d ++ "-" ++ toLowerCase t)%string in
    if existsb (λ s, bool_decide (shiftId s = i)) (shifts st)
    then (Alert "This guardia already exists.", st)
    else (Status "Guardia added",
          mkState (shifts st ++ [mkShift i d t []]) (userPicks st)
            (finishedUsers st) (currentUser st)).

(** *** State properties and event sequences used in the statements *)

(** The fairness key of a user as [script.js] can compute it: the length of
    the claim list and [computeMonFriCount]. *)
Definition fairnessKey (localDay : string → option Z) (st : State) (u : string) : Z * Z :=
  (Z.of_nat (length (default [] (userPicks st !! u))),
   default 0 (computeMonFriCount localDay st u)).

(** [userPicks[u] || []], for statements only. *)
Definition picksOf (st : State) (u : string) : list string :=
  default [] (userPicks st !! u).

(** The bookkeeping of [script.js] is consistent: ids are unique, exactly the
    users own a claim list, a user is in [shift.assigned] exactly when the
    shift's id is in the user's list, no list repeats an id, and every
    claimed id is registered. *)
Record consistent (st : State) : Prop := mkConsistent {
  cons_ids : NoDup (shiftId <$> shifts st);
  cons_dom : ∀ u, is_Some (userPicks st !! u) ↔ u ∈ users;
  cons_sync : ∀ s u, s ∈ shifts st → u ∈ assigned s ↔ shiftId s ∈ picksOf st u;
  cons_nodup : ∀ u l, userPicks st !! u = Some l → NoDup l;
  cons_reg : ∀ u x, x ∈ picksOf st u → ∃ s, s ∈ shifts st ∧ shiftId s = x
}.

(** No claim list is longer than [maxShiftsPerUser]. *)
Definition withinQuota (st : State) : Prop :=
  ∀ u l, userPicks st !! u = Some l → Z.of_nat (length l) ≤ maxShiftsPerUser.

(** What [handleSelect] does when it gets past its guards: the current user
    either drops the shift or takes it. *)
Inductive selected (i : string) (st : State) : Feedback → State → Prop :=
| selected_nothing fb : fb = Silent ∨ fb = AlertMax maxShiftsPerUser →
    selected i st fb st
| selected_drop cu shift l :
    currentUser st = Some cu → findShift st i = Some shift →
    cu ∈ assigned shift → userPicks st !! cu = Some l →
    selected i st (Status "Selections saved")
      (mkState (setAssignedFirst i (without cu) (shifts st))
         (<[cu := removeFirst i l]> (userPicks st)) (finishedUsers st) (Some cu))
| selected_take cu shift l :
    currentUser st = Some cu → findShift st i = Some shift →
    cu ∉ assigned shift → userPicks st !! cu = Some l →
    Z.of_nat (length l) < maxShiftsPerUser →
    selected i st (Status "Selections saved")
      (mkState (setAssignedFirst i (λ a, a ++ [cu]) (shifts st))
         (<[cu := l ++ [i]]> (userPicks st)) (finishedUsers st) (Some cu)).

(** How [keepChosen] relates a shift to what it leaves of it. *)
Definition kept (s s' : Shift) : Prop :=
  shiftId s' = shiftId s ∧ date s' = date s ∧ type s' = type s ∧
  (((length (assigned s) ≤ 1)%nat ∧ s' = s) ∨
   ((1 < length (assigned s))%nat ∧ ∃ c, c ∈ assigned s ∧ assigned s' = [c])).

Definition idsDerived (st : State) : Prop :=
  ∀ s, s ∈ shifts st → shiftId s = (date s ++ "-" ++ toLowerCase (type s))%string.

(** What the page can do to the state. *)
Inductive Event :=
| EvAdd (d t : string)
| EvLogin (u : string)
| EvSelect (i : string)
| EvFinish
| EvResolve.

(** One event on the state and the oracle's counter. A listener that throws
    is recorded as leaving the state alone; on a [consistent] state none
    does. *)
Definition step (rnd : nat → Z) (localDay : string → option Z)
    (e : Event) (sn : State * nat) : State * nat :=
  match e with
  | EvAdd d t => ((addNewShift d t sn.1).2, sn.2)
  | EvLogin u => (login u sn.1, sn.2)
  | EvSelect i =>
      match handleSelect i sn.1 with
      | Some (_, st') => (st', sn.2)
      | None => sn
      end
  | EvFinish => (finishSelection sn.1, sn.2)
  | EvResolve =>
      match resolveConflicts rnd localDay sn.1 sn.2 with
      | Some r => r
      | None => sn
      end
  end.

Definition run (rnd : nat → Z) (localDay : string → option Z)
    (es : list Event) (sn : State * nat) : State * nat :=
  fold_left (λ sn e, step rnd localDay e sn) es sn.

(** Selecting and deselecting, each time as some user. *)
Definition selectAs (ui : string * string) (st : State) : State :=
  (step (λ _, 0) (λ _, None) (EvSelect ui.2)
     (step (λ _, 0) (λ _, None) (EvLogin ui.1) (st, 0%nat))).1.

End Legacy.

(** ** Concrete ledgers *)
Module Examples.
Import JS.

Definition A : string := "Resident 1".
Definition B : string := "Resident 2".
Definition rnd0 : nat → Z := λ _, 0.
Definition noLocalDay : string → option Z := λ _, None.

(** 2025-09-01 is a Monday, 2025-09-03 a Wednesday, 2025-09-04 a Thursday,
    2025-09-09 a Tuesday, 2025-09-10 a Wednesday. *)
Module P.
Import Planner.

Definition mon : string := idFor "2025-09-01" "Puerta".
Definition wed : string := idFor "2025-09-03" "Puerta".
Definition thu : string := idFor "2025-09-04" "Puerta".

Definition shiftMon : Shift := mkShift mon "2025-09-01" "Puerta" [].
Definition shiftWed : Shift := mkShift wed "2025-09-03" "Puerta" [].
Definition shiftThu : Shift := mkShift thu "2025-09-04" "Puerta" [].

Definition addAll (ds : list string) (st : State) : State :=
  fold_left (λ st d, (addGuardia d "Puerta" st).2) ds st.

(** The admin adds the dates and finishes the setup. *)
Definition setup (ds : list string) : State :=
  (finishSetup (addAll ds initialState)).2.

Definition registry3 : State :=
  setup ["2025-09-01"; "2025-09-03"; "2025-09-04"]%string.

(** The scenario of the contested Monday shift: A claims only it, B claims
    it and two more. *)
Definition scenario : State :=
  runOps [OpClaim A mon; OpClaim B mon; OpClaim B wed; OpClaim B thu] registry3.

(** A resident holding four claims, one of them the Monday shift. *)
Definition dates5 : list string :=
  ["2025-09-01"; "2025-09-02"; "2025-09-03"; "2025-09-04"; "2025-09-05"]%string.

Definition atQuota : State :=
  runOps (map (λ d, OpClaim A (idFor d "Puerta")) (take 4 dates5)) (setup dates5).

(** Seventeen shifts, sixteen of them taken four by four: everybody is at
    the quota and the shift of 2025-09-17 has no claimant. *)
Definition dates17 : list string :=
  ["2025-09-01"; "2025-09-02"; "2025-09-03"; "2025-09-04"; "2025-09-05";
   "2025-09-06"; "2025-09-07"; "2025-09-08"; "2025-09-09"; "2025-09-10";
   "2025-09-11"; "2025-09-12"; "2025-09-13"; "2025-09-14"; "2025-09-15";
   "2025-09-16"; "2025-09-17"]%string.

Definition claimsFor (r : string) (ds : list string) : list Op :=
  map (λ d, OpClaim r (idFor d "Puerta")) ds.

Definition allFull : State :=
  runOps (claimsFor "Resident 1" (take 4 dates17) ++
          claimsFor "Resident 2" (take 4 (drop 4 dates17)) ++
          claimsFor "Resident 3" (take 4 (drop 8 dates17)) ++
          claimsFor "Resident 4" (take 4 (drop 12 dates17)))
    (setup dates17).

Definition lastShift : string := idFor "2025-09-17" "Puerta".
End P.

Module L.
Import Legacy.

Definition start (es : list Event) : State := (run rnd0 noLocalDay es (initialState, 0%nat)).1.

Definition wed : string := "2025-09-03-puerta".
Definition mon : string := "2025-09-01-puerta".
Definition tue : string := "2025-09-09-puerta".
Definition wed2 : string := "2025-09-10-puerta".

(** A Wednesday shift wanted by A, who also holds a Monday shift, and by B,
    who holds two more midweek shifts. *)
Definition contestedEvents : list Event :=
  [EvAdd "2025-09-03" "Puerta"; EvAdd "2025-09-01" "Puerta";
   EvAdd "2025-09-09" "Puerta"; EvAdd "2025-09-10" "Puerta";
   EvLogin A; EvSelect wed; EvSelect mon;
   EvLogin B; EvSelect wed; EvSelect tue; EvSelect wed2].

Definition contested : State := start contestedEvents.

(** Three midweek shifts wanted by both A and B; B holds a fourth one. *)
Definition thu : string := "2025-09-04-puerta".
Definition threeContested : State :=
  start [EvAdd "2025-09-03" "Puerta"; EvAdd "2025-09-04" "Puerta";
         EvAdd "2025-09-09" "Puerta"; EvAdd "2025-09-10" "Puerta";
         EvLogin A; EvSelect wed; EvSelect thu; EvSelect tue;
         EvLogin B; EvSelect wed; EvSelect thu; EvSelect tue; EvSelect wed2].

(** The same ledger once B has given up the first two of them. *)
Definition afterTwoRemovals : State :=
  (run rnd0 noLocalDay [EvLogin B; EvSelect wed; EvSelect thu] (threeContested, 0%nat)).1.

(** No conflict; A took the later shift first. *)
Definition outOfOrder : State :=
  start [EvAdd "2025-09-03" "Puerta"; EvAdd "2025-09-04" "Puerta";
         EvLogin A; EvSelect thu; EvSelect wed].

(** B holds four shifts; a fifth one is free. *)
Definition fourClaims : State :=
  start [EvAdd "2025-09-02" "Puerta"; EvAdd "2025-09-03" "Puerta";
         EvAdd "2025-09-04" "Puerta"; EvAdd "2025-09-09" "Puerta";
         EvAdd "2025-09-10" "Puerta";
         EvLogin B; EvSelect "2025-09-02-puerta"; EvSelect wed; EvSelect thu;
         EvSelect tue].

(** A holds one shift. *)
Definition oneClaim : State :=
  start [EvAdd "2025-09-03" "Puerta"; EvLogin A; EvSelect wed].

(** [shift.assigned] of the shift with id [i]. *)
Definition assignedOf (st : State) (i : string) : option (list string) :=
  assigned <$> findShift st i.
End L.

End Examples.

(** ** Around the ledgers: texts, pages and the first version *)

(** More of the runtime: numbers as text, padding, and the names an object
    inherits. *)
Module JSText.
Import JS.

(** A number put into a string: an integer prints in decimal (the numbers
    of the statements have one or two digits), [NaN] as "NaN". *)
Definition numToString (v : option Z) : string :=
  match v with
  | Some n => pretty n
  | None => "NaN"
  end.

(** [s.padStart(2, "0")] *)
Definition padStart2 (s : string) : string :=
  match s with
  | EmptyString => "00"
  | String a EmptyString => String "0" s
  | _ => s
  end.

(** [String(n).padStart(2, "0")] *)
Definition pad2 (n : Z) : string := padStart2 (pretty n).

(** How many times the character occurs. *)
Fixpoint countChar (c : ascii) (s : string) : nat :=
  match s with
  | EmptyString => 0
  | String a s' => (if decide (a = c) then 1 else 0) + countChar c s'
  end.

(** A non-empty run of decimal digits. *)
Fixpoint allDigits (s : string) : bool :=
  match s with
  | EmptyString => true
  | String a s' => bool_decide (is_Some (digitOf a)) && allDigits s'
  end.

Definition isDigits (s : string) : bool :=
  bool_decide (s ≠ ""%string) && allDigits s.

(** The names every plain object inherits from [Object.prototype]. Looking
    one of them up in an object that has no property of that name of its own
    finds a method (for [__proto__], the prototype), not [undefined]. The
    objects the program uses as dictionaries are modelled by the finite map of
    their own properties; where the program looks up a key that may be
    missing, these names are told apart. *)
Definition inheritedNames : list string :=
  ["constructor"; "__defineGetter__"; "__defineSetter__"; "hasOwnProperty";
   "__lookupGetter__"; "__lookupSetter__"; "isPrototypeOf"; "propertyIsEnumerable";
   "toString"; "valueOf"; "__proto__"; "toLocaleString"]%string.

(** None of the names is one of [inheritedNames]. *)
Definition plainNames (l : list string) : Prop :=
  Forall (λ r, r ∉ inheritedNames) l.
End JSText.

(** ** [script.js]: the page around the state *)
Module LegacyPage.
Import JS JSText Legacy.

Definition monthNames : list string :=
  ["Jan"; "Feb"; "Mar"; "Apr"; "May"; "Jun"; "Jul"; "Aug"; "Sep"; "Oct"; "Nov"; "Dec"]%string.

(** [formatDate(iso)]; the same function opens the first version of the
    script. The month and the day are read by [parseInt] as [JS] has it
    (leading digits, no sign or blank before them). *)
Definition formatDate (iso : string) : string :=
  let parts := split "-" iso in
  if decide (length parts ≠ 3%nat) then iso
  else
    let year := default ""%string (parts !! 0%nat) in
    let monthIndex := (λ v, v - 1) <$> (parts !! 1%nat ≫= parseInt) in
    let day := parts !! 2%nat ≫= parseInt in
    let monthName :=
      default (default ""%string (parts !! 1%nat))
        (monthIndex ≫= λ k, if 0 <=? k then monthNames !! Z.to_nat k else None) in
    (numToString day ++ " " ++ monthName ++ " " ++ year)%string.

(** *** [updateCalendar]: the table of one month

    A row is the list of its cells. [startIndex] and [daysInMonth] come from
    [new Date(...)] in local time; [None] stands for [NaN]. *)
Record Entry := mkEntry {
  entryClass : string;             (* 'shift-puerta' or 'shift-trauma' *)
  entryType : string;
  entryNames : list string         (* shown joined by ", ", or a dash if empty *)
}.

Record DayCell := mkDayCell {
  cellClasses : list string;       (* 'mon-cell', 'fri-cell' *)
  cellDate : nat;                  (* the number in the corner *)
  cellEntries : list Entry
}.

Inductive Cell :=
| Blank
| Day (c : DayCell).

Definition entryFor (s : Shift) : Entry :=
  mkEntry (if decide (toLowerCase (type s) = "puerta"%string)
           then "shift-puerta" else "shift-trauma")
    (type s) (assigned s).

(** The cell of one day. *)
Definition dayCell (yearStr monthStr : string) (shiftsInMonth : list Shift)
    (startIndex : option nat) (day : nat) : Cell :=
  let cellIndex := (λ s, (s + day - 1) mod 7)%nat <$> startIndex in
  let dateStr :=
    (yearStr ++ "-" ++ padStart2 monthStr ++ "-" ++ pad2 (Z.of_nat day))%string in
  Day (mkDayCell
         ((if decide (cellIndex = Some 0%nat) then ["mon-cell"%string] else []) ++
          (if decide (cellIndex = Some 4%nat) then ["fri-cell"%string] else []))
         day
         (entryFor <$> filter (λ s, date s = dateStr) shiftsInMonth)).

(** The loop over the days: a row is closed after the cell that fills its
    seventh column. *)
Fixpoint fillDays (startIndex : option nat) (cellFor : nat → Cell) (days : list nat)
    (row : list Cell) (table : list (list Cell)) : list Cell * list (list Cell) :=
  match days with
  | [] => (row, table)
  | day :: rest =>
      let row' := row ++ [cellFor day] in
      if decide ((λ s, (s + day) mod 7)%nat <$> startIndex = Some 0%nat)
      then fillDays startIndex cellFor rest [] (table ++ [row'])
      else fillDays startIndex cellFor rest row' table
  end.

(** The rows of the table below the header: the empty cells before the
    first day, the days, and the cells that complete the last week. *)
Definition monthRows (startIndex daysInMonth : option nat) (cellFor : nat → Cell)
    : list (list Cell) :=
  let '(row, table) :=
    fillDays startIndex cellFor (seq 1 (default 0%nat daysInMonth))
      (replicate (default 0%nat startIndex) Blank) [] in
  if decide (row = []) then table
  else table ++ [row ++ replicate (7 - length row) Blank].

(** [(firstDay + 6) % 7] *)
Definition startIndexOf (firstDay : option nat) : option nat :=
  (λ f, (f + 6) mod 7)%nat <$> firstDay.

(** *** Persistence: [saveState] and [loadState]

    [localStorage] holds at most one saved copy of the data.
    [JSON.parse(JSON.stringify(data))] gives back the strings, booleans,
    arrays and plain objects [data] is made of, so the stored text is
    modelled by the data it encodes. *)
Record Saved := mkSaved {
  savedShifts : list Shift;
  savedPicks : gmap string (list string);
  savedFinished : gmap string bool;
  setupComplete : bool
}.

(** The page: the global variables, whether the admin section is hidden
    ([adminSection.style.display === 'none']), and the storage. *)
Record Page := mkPage {
  appState : State;
  adminHidden : bool;
  storage : option Saved
}.

Definition withApp (p : Page) (st : State) : Page :=
  mkPage st (adminHidden p) (storage p).

(** [saveState()]; [ok] tells whether [localStorage.setItem] went through
    (it throws when the storage is full or unavailable, and the exception is
    swallowed). *)
Definition saveState (ok : bool) (p : Page) : Page :=
  if ok then
    mkPage (appState p) (adminHidden p)
      (Some (mkSaved (shifts (appState p)) (userPicks (appState p)) (finishedUsers (appState p))
               (adminHidden p)))
  else p.

(** [loadState()] *)
Definition loadState (p : Page) : Page :=
  match storage p with
  | None => p
  | Some data =>
      mkPage
        (mkState (savedShifts data)
           (map_imap (λ u _, Some (default [] (savedPicks data !! u)))
              (userPicks (appState p)))
           (savedFinished data ∪ finishedUsers (appState p))
           (currentUser (appState p)))
        (setupComplete data || adminHidden p)
        (storage p)
  end.

(** Opening the page: the script sets up its variables and calls
    [loadState]. The admin section is visible in the page as it is served
    (the note at the end of the script). *)
Definition openPage (stored : option Saved) : Page :=
  loadState (mkPage initialState false stored).

Definition reload (p : Page) : Page := openPage (storage p).

(** [updateCalendar()] files every shift under
    [months[shift.date.slice(0, 7)]]. [months] is a plain object: a key among
    [inheritedNames] finds a method instead of an array, and
    [months[key].push] throws (of these names only "valueOf" fits in seven
    characters). Nothing else in [updateCalendar] throws. *)
Definition updateCalendarReturns (st : State) : bool :=
  forallb (λ s, negb (bool_decide (substring 0 7 (date s) ∈ inheritedNames)))
    (shifts st).

(** [renderTable()] reads [userPicks[currentUser].length] when somebody is
    logged in, and throws when that user has no claim list; its last step is
    [updateCalendar()]. *)
Definition renderTableReturns (st : State) : bool :=
  match currentUser st with
  | None => true
  | Some cu =>
      if decide (cu = ""%string) then true
      else bool_decide (is_Some (userPicks st !! cu))
  end && updateCalendarReturns st.

(** The value of a date field: empty, or a year of four digits or more, a
    month and a day of two digits each, with dashes in between. *)
Definition isDateValue (d : string) : bool :=
  bool_decide (d = ""%string) ||
  match split "-" d with
  | [y; m; dd] =>
      isDigits y && isDigits m && isDigits dd &&
      bool_decide (4 ≤ String.length y)%nat &&
      bool_decide (String.length m = 2%nat) && bool_decide (String.length dd = 2%nat)
  | _ => false
  end.

Definition isStatus (fb : Feedback) : bool :=
  match fb with
  | Status _ => true
  | _ => false
  end.

(** What the user can do with the page. *)
Inductive PageEvent :=
| PAdd (d t : string)
| PFinishSetup
| PStart (u : string)
| PBack
| PSelect (i : string)
| PFinish
| PResolve
| PReload.

(** One event. In [addNewShift] and [handleSelect] the paths that end in
    [showStatus] are the ones that change the data; [addNewShift] then calls
    [saveState], while [handleSelect], [finishSetup], [finishSelection] and
    [resolveConflicts] call [renderTable] first and save only if it returns.
    As in [Legacy.step], a listener whose own code throws is recorded as
    leaving the page alone; on a [consistent] state none does. *)
Definition pageStep (rnd : nat → Z) (localDay : string → option Z)
    (ok : bool) (e : PageEvent) (pn : Page * nat) : Page * nat :=
  let p := pn.1 in
  match e with
  | PAdd d t =>
      let r := addNewShift d t (appState p) in
      (if isStatus r.1 then saveState ok (withApp p r.2) else p, pn.2)
  | PFinishSetup =>
      if decide (shifts (appState p) = []) then pn
      else
        let p' := mkPage (appState p) true (storage p) in
        (if renderTableReturns (appState p) then saveState ok p' else p', pn.2)
  | PStart u => (withApp p (login u (appState p)), pn.2)
  | PBack =>
      (withApp p (mkState (shifts (appState p)) (userPicks (appState p))
                    (finishedUsers (appState p)) None), pn.2)
  | PSelect i =>
      match handleSelect i (appState p) with
      | Some (fb, st') =>
          (if isStatus fb then
             if renderTableReturns st' then saveState ok (withApp p st')
             else withApp p st'
           else p, pn.2)
      | None => pn
      end
  | PFinish =>
      let st' := finishSelection (appState p) in
      match currentUser (appState p) with
      | None => pn
      | Some cu =>
          if decide (cu = ""%string) then pn
          else (if renderTableReturns st' then saveState ok (withApp p st')
                else withApp p st', pn.2)
      end
  | PResolve =>
      match resolveConflicts rnd localDay (appState p) pn.2 with
      | Some (st', n') =>
          (if renderTableReturns st' then saveState ok (withApp p st')
           else withApp p st', n')
      | None => pn
      end
  | PReload => (reload p, pn.2)
  end.

(** A session: each event comes with the fate of the [setItem] it may
    make. *)
Definition pageRun (rnd : nat → Z) (localDay : string → option Z)
    (es : list (bool * PageEvent)) (pn : Page * nat) : Page * nat :=
  fold_left (λ pn a, pageStep rnd localDay a.1 a.2 pn) es pn.

(** The form controls: the start button offers the names in [users], the
    date field yields a date value. *)
Definition fromControls (e : PageEvent) : Prop :=
  match e with
  | PStart u => u = ""%string ∨ u ∈ users
  | PAdd d t => isDateValue d = true
  | _ => True
  end.

#[global] Instance fromControls_dec (e : PageEvent) : Decision (fromControls e).
Proof. destruct e; apply _. Defined.

(** The state with nobody logged in. *)
Definition loggedOut (st : State) : State :=
  mkState (shifts st) (userPicks st) (finishedUsers st) None.

(** What is in the storage is what is on the page. *)
Definition persisted (p : Page) : Prop :=
  match storage p with
  | Some data =>
      data = mkSaved (shifts (appState p)) (userPicks (appState p)) (finishedUsers (appState p))
               (adminHidden p)
  | None =>
      shifts (appState p) = [] ∧ userPicks (appState p) = clearPicks ∅ ∧
      finishedUsers (appState p) = ∅ ∧ adminHidden p = false
  end.

(** The page in the middle of a session: consistent bookkeeping, the
    storage up to date, one of [users] or nobody logged in, and a calendar
    that can be drawn. *)
Definition sessionOk (p : Page) : Prop :=
  consistent (appState p) ∧ persisted p ∧
  (∀ cu, currentUser (appState p) = Some cu → cu ∈ users) ∧
  updateCalendarReturns (appState p) = true.

(** *** Properties used in the statements *)

(** The key [resolveConflicts] ranks with: Monday/Friday count first, then
    the number of claims. *)
Definition rankKey (localDay : string → option Z) (st : State) (u : string) : Z * Z :=
  (default 0 (computeMonFriCount localDay st u), Z.of_nat (length (picksOf st u))).

(** User [u] is where [u] was: same claim list, a lock that is set stays
    set, and every shift of [st] is still at its place in the registry,
    with [u] among its residents exactly when [u] was. *)
Definition untouched (u : string) (st st' : State) : Prop :=
  userPicks st' !! u = userPicks st !! u ∧
  (default false (finishedUsers st !! u) = true →
   default false (finishedUsers st' !! u) = true) ∧
  ∀ k s, shifts st !! k = Some s →
    ∃ s', shifts st' !! k = Some s' ∧ shiftId s' = shiftId s ∧
      (u ∈ assigned s' ↔ u ∈ assigned s).

End LegacyPage.

(** ** The first version: sixteen fixed shifts, ties go to the first claimant *)
Module Original.
Import JS Legacy.

Definition dates : list string :=
  ["2025-09-01"; "2025-09-08"; "2025-09-15"; "2025-09-22";
   "2025-09-29"; "2025-10-06"; "2025-10-13"; "2025-10-20"]%string.

(** [dates.forEach(date => { shifts.push(...); shifts.push(...); })] *)
Definition initialShifts : list Shift :=
  flat_map (λ d, [mkShift (d ++ "-puerta") d "Puerta" [];
                  mkShift (d ++ "-trauma") d "Traumato" []]) dates.

Definition initialState : State := mkState initialShifts (clearPicks ∅) ∅ None.

(** [selectShift(shiftId)] *)
Definition selectShift (i : string) (st : State) : option (Feedback * State) :=
  match currentUser st with
  | None => Some (Silent, st)
  | Some cu =>
      if decide (cu = ""%string) then Some (Silent, st)
      else if default false (finishedUsers st !! cu) then Some (Silent, st)
      else
        match findShift st i with
        | None => Some (Silent, st)
        | Some shift =>
            if includes (assigned shift) cu then
              let shifts' := setAssignedFirst i (without cu) (shifts st) in
              l ← userPicks st !! cu;
              Some (Silent,
                    mkState shifts' (<[cu := removeFirst i l]> (userPicks st))
                      (finishedUsers st) (currentUser st))
            else
              l ← userPicks st !! cu;
              if Z.of_nat (length l) >=? maxShiftsPerUser
              then Some (AlertMax maxShiftsPerUser, st)
              else
                Some (Silent,
                      mkState (setAssignedFirst i (λ a, a ++ [cu]) (shifts st))
                        (<[cu := l ++ [i]]> (userPicks st))
                        (finishedUsers st) (currentUser st))
        end
  end.

(** The inner [forEach] of [resolveConflicts]: a resident with strictly
    fewer claims replaces [chosen]. *)
Fixpoint chooseFewest (st : State) (chosen : string) (l : list string) : option string :=
  match l with
  | [] => Some chosen
  | res :: l' =>
      la ← userPicks st !! res;
      lb ← userPicks st !! chosen;
      chooseFewest st (if (length la <? length lb)%nat then res else chosen) l'
  end.

(** The first [shifts.forEach]: the counts are read from [st], whose
    [userPicks] this loop does not change. *)
Fixpoint keepFewest (st : State) (l : list Shift) : option (list Shift) :=
  match l with
  | [] => Some []
  | s :: l' =>
      if decide (length (assigned s) ≤ 1)%nat then
        r ← keepFewest st l'; Some (s :: r)
      else
        first ← head (assigned s);
        chosen ← chooseFewest st first (assigned s);
        r ← keepFewest st l';
        Some (mkShift (shiftId s) (date s) (type s) [chosen] :: r)
  end.

(** [resolveConflicts()] *)
Definition resolveConflicts (st : State) : option State :=
  shifts' ← keepFewest st (shifts st);
  p ← rebuildPicks shifts' (clearPicks (userPicks st));
  Some (mkState shifts' p (finishedUsers st) (currentUser st)).

(** What the page can do to the state; the start button and
    [finishSelection] are those of [script.js]. *)
Inductive Event :=
| EvLogin (u : string)
| EvSelect (i : string)
| EvFinish
| EvResolve.

(** A listener that throws is recorded as leaving the state alone. *)
Definition step (e : Event) (st : State) : State :=
  match e with
  | EvLogin u => login u st
  | EvSelect i =>
      match selectShift i st with
      | Some (_, st') => st'
      | None => st
      end
  | EvFinish => finishSelection st
  | EvResolve =>
      match resolveConflicts st with
      | Some st' => st'
      | None => st
      end
  end.

Definition run (es : list Event) (st : State) : State :=
  fold_left (λ st e, step e st) es st.

(** The number of claims [resolveConflicts] compares. *)
Definition claims (st : State) (u : string) : nat := length (picksOf st u).

(** [handleSelect] of [script.js] is [selectShift] followed by a status
    line; this drops the line. *)
Definition quiet (fb : Feedback) : Feedback :=
  match fb with
  | Status _ => Silent
  | _ => fb
  end.

End Original.

(** ** The clean version: what the page does around the ledger *)
Module PlannerPage.
Import JS JSText Planner.

(** The number shown as "shifts remaining" by [renderPlanning]. *)
Definition remaining (st : State) (name : string) : Z :=
  slotsPerResident (config st) - total (statsFor st name).

(** No claim list names a shift twice. *)
Definition noRepeats (st : State) : Prop :=
  ∀ r l, picks st !! r = Some l → NoDup l.

(** *** [renderPlanning]: the [assigned] arrays are rebuilt from the picks *)

Definition withAssigned (s : Shift) (a : list string) : Shift :=
  mkShift (shiftId s) (date s) (type s) a.

(** [if (byId[sid]) byId[sid].assigned.push(r)]: [byId] is built with
    [Object.fromEntries], so of several shifts with one id it holds the
    last. *)
Fixpoint pushLast (sid r : string) (l : list Shift) : list Shift :=
  match l with
  | [] => []
  | s :: l' =>
      if existsb (λ x, bool_decide (shiftId x = sid)) l' then s :: pushLast sid r l'
      else if decide (shiftId s = sid) then withAssigned s (assigned s ++ [r]) :: l'
      else s :: l'
  end.

(** [byId[sid]] is the last shift with that id. When no shift has it,
    [byId[sid]] is [undefined] and the claim is skipped, unless [sid] is one
    of [inheritedNames]: then it is a member of [Object.prototype], which has
    no [assigned] array, and the [push] throws. *)
Definition pushById (sid r : string) (sh : list Shift) : option (list Shift) :=
  if existsb (λ x, bool_decide (shiftId x = sid)) sh then Some (pushLast sid r sh)
  else if bool_decide (sid ∈ inheritedNames) then None
  else Some sh.

(** [for (const sid of state.picks[r]) ...] *)
Fixpoint assignPicks (r : string) (ids : list string) (sh : list Shift)
    : option (list Shift) :=
  match ids with
  | [] => Some sh
  | sid :: ids' => sh' ← pushById sid r sh; assignPicks r ids' sh'
  end.

(** [for (const r of state.residents) ...]; iterating over a missing claim
    list throws. *)
Fixpoint rebuildAssigned (st : State) (rs : list string) (sh : list Shift)
    : option (list Shift) :=
  match rs with
  | [] => Some sh
  | r :: rs' =>
      ids ← picks st !! r;
      sh' ← assignPicks r ids sh;
      rebuildAssigned st rs' sh'
  end.

(** [fmtDate] hands the date to [Intl.DateTimeFormat], whose [format]
    throws a [RangeError] on an invalid date; the date is invalid exactly
    when [weekdayUTC] is [NaN]. *)
Definition fmtDateReturns (iso : string) : bool :=
  bool_decide (weekdayUTC iso ≠ None).

(** [statsFor(name)] starts from [state.picks[name] || []] and calls
    [reduce] on it: with no claim list under [name], that is the empty array,
    or a member of [Object.prototype] without [reduce]. *)
Definition statsForReturns (st : State) (name : string) : bool :=
  bool_decide (is_Some (picks st !! name)) || negb (bool_decide (name ∈ inheritedNames)).

(** What [renderPlanning(name)] does to the state. Every row of the table
    formats the date of its shift and reads [state.picks[name]]; below the
    table come the statistics of [name]. *)
Definition renderPlanning (name : string) (st : State) : option State :=
  sh ← rebuildAssigned st (residents st) ((λ s, withAssigned s []) <$> shifts st);
  if decide (sh = []) then
    if statsForReturns st name then Some (setShifts st sh) else None
  else
    _ ← picks st !! name;
    if forallb (λ s, fmtDateReturns (date s)) sh then Some (setShifts st sh) else None.

(** *** The order of the rows in the admin list and in the planning table *)
Section Display.
(** [a.localeCompare(b)] depends on the locale of the browser. *)
Variable localeCompare : string → string → Z.

Definition displayCmp (a b : Shift) (n : nat) : Z * nat :=
  (if String.ltb (date a) (date b) then -1
   else if String.ltb (date b) (date a) then 1
   else localeCompare (type a) (type b), n).

(** [[...state.shifts].sort(...)] *)
Definition displayOrder (st : State) : list Shift :=
  (sortM displayCmp (shifts st) 0).1.
End Display.

(** *** Resetting *)

Definition clearResident (st : State) (r : string) : State :=
  mkState (setupDone st) (config st) (residents st) (shifts st)
    (<[r := []]> (picks st)) (<[r := false]> (finished st)).

(** The click handler of "Reset setup"; [confirmed] is the answer to the
    [confirm] dialog. *)
Definition resetSetup (confirmed : bool) (st : State) : Feedback * State :=
  if confirmed then
    let st1 := fold_left clearResident (residents st) (setShifts st []) in
    (Toast "Setup reset.",
     mkState false (config st1) (residents st1) (shifts st1) (picks st1) (finished st1))
  else (Silent, st).

(** The click handler of the start button: nothing without a name, an alert
    before the setup is finished, the planning table otherwise. *)
Definition start (name : string) (st : State) : option (Feedback * State) :=
  if decide (name = ""%string) then Some (Silent, st)
  else if setupDone st then st' ← renderPlanning name st; Some (Silent, st')
  else Some (Alert "Admin setup is not finished yet.", st).

(** *** Properties used in the statements *)

(** The claim counts of any two residents differ by at most [d]. *)
Definition gapAtMost (d : Z) (st : State) : Prop :=
  ∀ r1 r2, r1 ∈ residents st → r2 ∈ residents st →
    total (statsFor st r1) - total (statsFor st r2) ≤ d.

(** Every resident is at (or over) the quota. *)
Definition allFull (st : State) : Prop :=
  ∀ r, r ∈ residents st →
    slotsPerResident (config st) ≤ Z.of_nat (length (picksOf st r)).

(** [a.date <= b.date], as JavaScript compares strings. *)
Definition dateLe (a b : Shift) : Prop := String.leb (date a) (date b) = true.

End PlannerPage.

(** ** Ledgers with two conflicts, and with one free slot *)
Module Ledgers.
Import JS Planner Examples.

Definition tue : string := idFor "2025-09-02" "Puerta".
Definition fri : string := idFor "2025-09-05" "Puerta".

Definition adds (ds : list string) : list Event :=
  map (λ d, EvAdd d "Puerta") ds ++ [EvFinishSetup].

Definition claimsOf (r : string) (ds : list string) : list Event :=
  map (λ d, EvClaim r (idFor d "Puerta")) ds.

(** A claims the Wednesday, the Monday and the Friday shift, B the
    Wednesday, the Monday, the Tuesday and the Thursday shift. *)
Definition claimsAB : list Event :=
  claimsOf A ["2025-09-03"; "2025-09-01"; "2025-09-05"]%string ++
  claimsOf B ["2025-09-03"; "2025-09-01"; "2025-09-02"; "2025-09-04"]%string.

(** The admin added the Wednesday shift first. *)
Definition wedFirstEvents : list Event :=
  adds ["2025-09-03"; "2025-09-01"; "2025-09-05"; "2025-09-02"; "2025-09-04"]%string ++
  claimsAB.

Definition wedFirst : State := (run rnd0 wedFirstEvents (initialState, 0%nat)).1.

(** The same shifts, added in the order of their dates, and the same
    claims. *)
Definition byDateEvents : list Event :=
  adds ["2025-09-01"; "2025-09-02"; "2025-09-03"; "2025-09-04"; "2025-09-05"]%string ++
  claimsAB.

Definition byDate : State := (run rnd0 byDateEvents (initialState, 0%nat)).1.

(** Seventeen shifts; three residents hold four of them each, the fourth
    resident holds three, and the shifts of 2025-09-16 and 2025-09-17 have no
    claimant. *)
Definition oneSlotLeftEvents : list Event :=
  adds P.dates17 ++
  claimsOf "Resident 1" (take 4 P.dates17) ++
  claimsOf "Resident 2" (take 4 (drop 4 P.dates17)) ++
  claimsOf "Resident 3" (take 4 (drop 8 P.dates17)) ++
  claimsOf "Resident 4" (take 3 (drop 12 P.dates17)).

Definition oneSlotLeft : State := (run rnd0 oneSlotLeftEvents (initialState, 0%nat)).1.

Definition shift16 : Shift :=
  mkShift (idFor "2025-09-16" "Puerta") "2025-09-16" "Puerta" [].
Definition shift17 : Shift :=
  mkShift (idFor "2025-09-17" "Puerta") "2025-09-17" "Puerta" [].

(** The Friday shift was added before the Monday shift; Resident 4 has no
    claim, the others hold one, two and three of the three midweek shifts. *)
Definition midweekClaims : list Event :=
  claimsOf "Resident 1" ["2025-09-09"; "2025-09-10"; "2025-09-11"]%string ++
  claimsOf "Resident 2" ["2025-09-09"; "2025-09-10"]%string ++
  claimsOf "Resident 3" ["2025-09-09"]%string.

Definition friFirstEvents : list Event :=
  adds ["2025-09-05"; "2025-09-01"; "2025-09-09"; "2025-09-10"; "2025-09-11"]%string ++
  midweekClaims.

Definition friFirst : State := (run rnd0 friFirstEvents (initialState, 0%nat)).1.

(** The same shifts, added in the order of their dates, and the same
    claims. *)
Definition monFirstEvents : list Event :=
  adds ["2025-09-01"; "2025-09-05"; "2025-09-09"; "2025-09-10"; "2025-09-11"]%string ++
  midweekClaims.

Definition monFirst : State := (run rnd0 monFirstEvents (initialState, 0%nat)).1.

(** [state.shifts.filter(s => whoIsAssigned(s.id).length === 0)], the
    shifts [randomAssignRemaining] walks, in the order of [state.shifts]. *)
Definition emptyShifts (st : State) : list Shift :=
  filter (λ s, length (whoIsAssigned st (shiftId s)) = 0%nat) (shifts st).

End Ledgers.

(** * Properties *)

(** ** The sort: a permutation whose head is minimal, whatever the oracle *)
Module SortFacts.
Import JS.

Section Generic.
Context {A : Type}.
Variable cmp : A → A → nat → Z * nat.

Lemma insertM_perm x l n : (insertM cmp x l n).1 ≡ₚ x :: l.
Proof.
  revert n. induction l as [|y l IH]; intros n; simpl; [done|].
  destruct (cmp x y n) as [c n1]. destruct (c <? 0); simpl; [done|].
  specialize (IH n1). destruct (insertM cmp x l n1) as [r n2]. simpl in *.
  rewrite IH. apply Permutation_swap.
Qed.

Lemma sortFrom_perm sorted todo n :
  (sortFrom cmp sorted todo n).1 ≡ₚ sorted ++ todo.
Proof.
  revert sorted n. induction todo as [|x todo IH]; intros sorted n; simpl.
  - by rewrite app_nil_r.
  - pose proof (insertM_perm x sorted n) as Hp.
    destruct (insertM cmp x sorted n) as [s' n1]. simpl in Hp.
    rewrite IH, Hp. simpl. apply Permutation_middle.
Qed.

Lemma sortM_perm l n : (sortM cmp l n).1 ≡ₚ l.
Proof. unfold sortM. by rewrite sortFrom_perm. Qed.

Lemma sortM_elem_of l n x : x ∈ (sortM cmp l n).1 ↔ x ∈ l.
Proof. by rewrite sortM_perm. Qed.

Lemma sortM_length l n : length (sortM cmp l n).1 = length l.
Proof. by rewrite sortM_perm. Qed.

(** The counter only moves forward when the comparator's does. *)
Hypothesis cmp_mono : ∀ x y n, (n ≤ (cmp x y n).2)%nat.

Lemma insertM_mono x l n : (n ≤ (insertM cmp x l n).2)%nat.
Proof.
  revert n. induction l as [|y l IH]; intros n; simpl; [done|].
  pose proof (cmp_mono x y n) as H1.
  destruct (cmp x y n) as [c n1]. simpl in H1. destruct (c <? 0); simpl; [done|].
  specialize (IH n1). destruct (insertM cmp x l n1) as [r n2]. simpl in *. lia.
Qed.

Lemma sortFrom_mono sorted todo n : (n ≤ (sortFrom cmp sorted todo n).2)%nat.
Proof.
  revert sorted n. induction todo as [|x todo IH]; intros sorted n; simpl; [done|].
  pose proof (insertM_mono x sorted n) as H1.
  destruct (insertM cmp x sorted n) as [s' n1]. simpl in H1.
  specialize (IH s' n1). lia.
Qed.

Lemma sortM_mono l n : (n ≤ (sortM cmp l n).2)%nat.
Proof. apply sortFrom_mono. Qed.

(** A second comparator that agrees with the first whenever the first
    draws nothing sorts the same way on a run without draws. *)
Variable cmp' : A → A → nat → Z * nat.
Hypothesis cmp_agree : ∀ x y n, (cmp x y n).2 = n → cmp' x y n = cmp x y n.

Lemma insertM_agree x l n :
  (insertM cmp x l n).2 = n → insertM cmp' x l n = insertM cmp x l n.
Proof.
  revert n. induction l as [|y l IH]; intros n; simpl; [done|].
  pose proof (cmp_mono x y n) as H1. pose proof (cmp_agree x y n) as H2.
  destruct (cmp x y n) as [c n1] eqn:E. simpl in *.
  destruct (c <? 0) eqn:Ec; simpl.
  - intros Hn. subst n1. rewrite H2 by done. by rewrite Ec.
  - pose proof (insertM_mono x l n1) as H3. specialize (IH n1).
    destruct (insertM cmp x l n1) as [r n2] eqn:E2. simpl in *.
    intros Hn. subst n2. assert (n1 = n) as Hn1 by lia. subst n1.
    rewrite H2 by done. rewrite Ec. by rewrite IH.
Qed.

Lemma sortFrom_agree sorted todo n :
  (sortFrom cmp sorted todo n).2 = n →
  sortFrom cmp' sorted todo n = sortFrom cmp sorted todo n.
Proof.
  revert sorted n. induction todo as [|x todo IH]; intros sorted n; simpl; [done|].
  pose proof (insertM_mono x sorted n) as H1.
  pose proof (insertM_agree x sorted n) as H2.
  destruct (insertM cmp x sorted n) as [s' n1] eqn:E. simpl in *.
  pose proof (sortFrom_mono s' todo n1) as H3.
  intros Hn. assert (n1 = n) as -> by lia.
  rewrite H2 by done. by apply IH.
Qed.

Lemma sortM_agree l n :
  (sortM cmp l n).2 = n → sortM cmp' l n = sortM cmp l n.
Proof. apply sortFrom_agree. Qed.
End Generic.

Section HeadMinimal.
Context {A : Type}.
Variable cmp : A → A → nat → Z * nat.
Variable le : A → A → Prop.
Hypothesis le_refl : ∀ x, le x x.
Hypothesis le_trans : ∀ x y z, le x y → le y z → le x z.
Hypothesis cmp_lt : ∀ x y n, (cmp x y n).1 < 0 → le x y.
Hypothesis cmp_ge : ∀ x y n, ¬ (cmp x y n).1 < 0 → le y x.

Lemma insertM_headMin x l n : headMin le l → headMin le (insertM cmp x l n).1.
Proof.
  destruct l as [|y l]; simpl.
  - intros _ h [= <-] z Hz. apply list_elem_of_singleton in Hz as ->. apply le_refl.
  - intros Hmin.
    pose proof (cmp_lt x y n) as Hlt. pose proof (cmp_ge x y n) as Hge.
    destruct (cmp x y n) as [c n1]. simpl in *.
    destruct (c <? 0) eqn:Ec; simpl.
    + apply Z.ltb_lt in Ec. intros h [= <-] z Hz.
      apply elem_of_cons in Hz as [->|Hz]; [apply le_refl|].
      eapply le_trans; [by apply Hlt|]. by apply (Hmin y).
    + apply Z.ltb_ge in Ec.
      pose proof (insertM_perm cmp x l n1) as Hp.
      destruct (insertM cmp x l n1) as [r n2]. simpl in *.
      intros h [= <-] z Hz.
      apply elem_of_cons in Hz as [->|Hz]; [apply le_refl|].
      rewrite Hp in Hz. apply elem_of_cons in Hz as [->|Hz].
      * apply Hge. lia.
      * apply (Hmin y); [done|]. by apply elem_of_cons; right.
Qed.

Lemma sortFrom_headMin sorted todo n :
  headMin le sorted → headMin le (sortFrom cmp sorted todo n).1.
Proof.
  revert sorted n. induction todo as [|x todo IH]; intros sorted n Hs; simpl; [done|].
  pose proof (insertM_headMin x sorted n Hs) as H1.
  destruct (insertM cmp x sorted n) as [s' n1]. simpl in *. by apply IH.
Qed.

(** The head of the sorted array is below every element of the input. *)
Lemma sortM_head_minimal l n h :
  head (sortM cmp l n).1 = Some h → h ∈ l ∧ ∀ y, y ∈ l → le h y.
Proof.
  intros Hh. split.
  - apply (sortM_elem_of cmp l n). destruct (sortM cmp l n).1; [done|].
    simpl in Hh. injection Hh as ->. apply elem_of_cons; by left.
  - intros y Hy. apply (sortFrom_headMin [] l n); [by intros ? [=]|done|].
    by apply (sortM_elem_of cmp l n).
Qed.
(** The whole result is ordered, ties in whatever order the oracle chose. *)
Lemma insertM_sorted x l n :
  StronglySorted le l → StronglySorted le (insertM cmp x l n).1.
Proof.
  revert n. induction l as [|y l IH]; intros n Hs; simpl.
  - apply StronglySorted_cons. split; [done|constructor].
  - pose proof (cmp_lt x y n) as Hlt. pose proof (cmp_ge x y n) as Hge.
    destruct (cmp x y n) as [c n1]. simpl in *.
    apply StronglySorted_cons in Hs as [Hy Hs].
    destruct (c <? 0) eqn:Ec; simpl.
    + apply Z.ltb_lt in Ec. apply StronglySorted_cons. split.
      * constructor; [by apply Hlt|]. eapply Forall_impl; [exact Hy|].
        intros z Hz. eapply le_trans; [by apply Hlt|done].
      * by apply StronglySorted_cons.
    + apply Z.ltb_ge in Ec. specialize (IH n1 Hs).
      pose proof (insertM_perm cmp x l n1) as Hp.
      destruct (insertM cmp x l n1) as [r n2]. simpl in *.
      apply StronglySorted_cons. split; [|done].
      rewrite Hp. constructor; [apply Hge; lia|done].
Qed.

Lemma sortFrom_sorted sorted todo n :
  StronglySorted le sorted → StronglySorted le (sortFrom cmp sorted todo n).1.
Proof.
  revert sorted n. induction todo as [|x todo IH]; intros sorted n Hs; simpl; [done|].
  pose proof (insertM_sorted x sorted n Hs) as H1.
  destruct (insertM cmp x sorted n) as [s' n1]. simpl in *. by apply IH.
Qed.

Lemma sortM_sorted l n : StronglySorted le (sortM cmp l n).1.
Proof. apply sortFrom_sorted. constructor. Qed.
End HeadMinimal.

End SortFacts.

(** ** Lists *)
Module ListFacts.

Lemma NoDup_fmap_inj {A B} (f : A → B) (l : list A) x y :
  NoDup (f <$> l) → x ∈ l → y ∈ l → f x = f y → x = y.
Proof.
  induction l as [|a l IH]; intros Hnd Hx Hy Hf; [by apply elem_of_nil in Hx|].
  rewrite fmap_cons in Hnd. apply NoDup_cons in Hnd as [Ha Hnd].
  apply elem_of_cons in Hx as [->|Hx]; apply elem_of_cons in Hy as [->|Hy]; try done.
  - exfalso. apply Ha. rewrite Hf. apply list_elem_of_fmap. eauto.
  - exfalso. apply Ha. rewrite <- Hf. apply list_elem_of_fmap. eauto.
  - by apply IH.
Qed.

Lemma NoDup_fmap_filter {A B} (f : A → B) (P : A → Prop) `{!∀ x, Decision (P x)}
    (l : list A) :
  NoDup (f <$> l) → NoDup (f <$> filter P l).
Proof.
  induction l as [|a l IH]; [done|]. rewrite fmap_cons, filter_cons.
  intros [Ha Hnd]%NoDup_cons. destruct (decide (P a)); [|by apply IH].
  rewrite fmap_cons. apply NoDup_cons. split; [|by apply IH].
  intros (x&Hx&[_ Hin]%list_elem_of_filter)%list_elem_of_fmap.
  apply Ha. apply list_elem_of_fmap. eauto.
Qed.

End ListFacts.

(** ** The clean static version *)
Module PlannerFacts.
Import JS Planner SortFacts.

(** *** Well-formed ledgers *)

Lemma sameFrame_refl st : sameFrame st st.
Proof. by repeat split. Qed.

Lemma sameFrame_trans st1 st2 st3 :
  sameFrame st1 st2 → sameFrame st2 st3 → sameFrame st1 st3.
Proof. unfold sameFrame. intros (?&?&?&?&?) (?&?&?&?&?). repeat split; congruence. Qed.

Lemma sameFrame_setPicks st p : sameFrame st (setPicks st p).
Proof. by repeat split. Qed.

Lemma shrinks_refl st : shrinks st st.
Proof. split; [apply sameFrame_refl|]. split; [done|]. intros r. reflexivity. Qed.

Lemma shrinks_trans st1 st2 st3 : shrinks st1 st2 → shrinks st2 st3 → shrinks st1 st3.
Proof.
  intros (F1&D1&S1) (F2&D2&S2). split; [by eapply sameFrame_trans|]. split.
  - intros r. by rewrite D2, D1.
  - intros r. etrans; [apply S2|apply S1].
Qed.

Lemma shrinks_elem st st' r x :
  shrinks st st' → x ∈ picksOf st' r → x ∈ picksOf st r.
Proof. intros (_&_&Hs). by apply sublist_subseteq. Qed.

Lemma atMostOne_shrinks st st' i : shrinks st st' → atMostOne st i → atMostOne st' i.
Proof.
  intros Hs H r1 r2 H1 H2 H3 H4.
  assert (residents st' = residents st) as Hr by apply Hs. rewrite Hr in H1, H2.
  apply H; [done|done| |]; by eapply shrinks_elem.
Qed.

Lemma withinQuota_shrinks st st' : shrinks st st' → withinQuota st → withinQuota st'.
Proof.
  intros ((_&Hc&_)&Hd&Hs) Hq r l' Hl'. rewrite Hc.
  destruct (proj1 (Hd r) (mk_is_Some _ _ Hl')) as [l Hl].
  specialize (Hs r). unfold picksOf in Hs. rewrite Hl, Hl' in Hs. simpl in Hs.
  apply sublist_length in Hs. specialize (Hq r l Hl). lia.
Qed.

Lemma elem_of_whoIsAssigned st i r :
  r ∈ whoIsAssigned st i ↔ r ∈ residents st ∧ i ∈ picksOf st r.
Proof. unfold whoIsAssigned. rewrite list_elem_of_filter. tauto. Qed.

Lemma filter_length_le_1 {A} (P : A → Prop) `{!∀ x, Decision (P x)} (l : list A) :
  NoDup l → (∀ x y, x ∈ l → y ∈ l → P x → P y → x = y) →
  (length (filter P l) ≤ 1)%nat.
Proof.
  intros Hnd Huniq.
  assert (NoDup (filter P l)) as Hnd' by by apply NoDup_filter.
  destruct (filter P l) as [|a [|b t]] eqn:E; simpl; [lia|lia|].
  assert (a ∈ filter P l) as Ha by (rewrite E; set_solver).
  assert (b ∈ filter P l) as Hb by (rewrite E; set_solver).
  apply list_elem_of_filter in Ha as [Ha1 Ha2]. apply list_elem_of_filter in Hb as [Hb1 Hb2].
  assert (a = b) as -> by by apply Huniq.
  apply NoDup_cons in Hnd' as [Hn _]. exfalso. apply Hn. set_solver.
Qed.

Lemma whoIsAssigned_atMostOne st i :
  NoDup (residents st) → atMostOne st i → (length (whoIsAssigned st i) ≤ 1)%nat.
Proof.
  intros Hnd H. apply filter_length_le_1; [done|]. intros x y ????. by apply H.
Qed.

Lemma atMostOne_of_length st i :
  (length (whoIsAssigned st i) ≤ 1)%nat → atMostOne st i.
Proof.
  intros Hlen r1 r2 H1 H2 H3 H4.
  assert (r1 ∈ whoIsAssigned st i) as Ha by by apply elem_of_whoIsAssigned.
  assert (r2 ∈ whoIsAssigned st i) as Hb by by apply elem_of_whoIsAssigned.
  destruct (whoIsAssigned st i) as [|a [|b t]]; simpl in Hlen; [|  |lia].
  - by apply elem_of_nil in Ha.
  - apply list_elem_of_singleton in Ha, Hb. congruence.
Qed.

Lemma without_idemp i l : without i (without i l) = without i l.
Proof.
  unfold without. induction l as [|y l IH]; [done|].
  rewrite filter_cons. case_decide; [|done]. rewrite filter_cons.
  case_decide; [|done]. by rewrite IH.
Qed.

Lemma elem_of_without i x l : x ∈ without i l ↔ x ∈ l ∧ x ≠ i.
Proof. unfold without. rewrite list_elem_of_filter. tauto. Qed.

Lemma without_id i l : i ∉ l → without i l = l.
Proof.
  unfold without. induction l as [|y l IH]; [done|]. intros Hn.
  rewrite filter_cons. case_decide.
  - rewrite IH; [done|]. set_solver.
  - subst. set_solver.
Qed.

Lemma picksOf_setPicks st p r : picksOf (setPicks st p) r = default [] (p !! r).
Proof. done. Qed.

(** *** The inner loop of the resolver *)

Lemma removeLosers_spec winner i cs st :
  (∀ r, r ∈ cs → is_Some (picks st !! r)) →
  ∃ st', removeLosers winner i cs st = Some st' ∧ sameFrame st st' ∧
    ∀ r, picks st' !! r =
         if decide (r ∈ cs ∧ Some r ≠ winner) then without i <$> picks st !! r
         else picks st !! r.
Proof.
  revert st. induction cs as [|r0 cs IH]; intros st Hdef; cbn [removeLosers].
  - exists st. split; [done|]. split; [apply sameFrame_refl|].
    intros r. destruct (decide _) as [[H _]|]; [|done]. by apply elem_of_nil in H.
  - destruct (decide (Some r0 = winner)) as [Hw|Hw].
    + destruct (IH st) as (st'&E&F&L); [intros; apply Hdef; set_solver|].
      exists st'. split; [done|]. split; [done|]. intros r. rewrite L.
      destruct (decide (r ∈ cs ∧ _)) as [[H1 H2]|H1];
        destruct (decide (r ∈ r0 :: cs ∧ _)) as [[H3 H4]|H3]; try done.
      * exfalso. apply H3. set_solver.
      * exfalso. apply elem_of_cons in H3 as [->|H3]; tauto.
    + destruct (Hdef r0) as [l Hl]; [set_solver|]. rewrite Hl. cbn [mbind option_bind].
      destruct (IH (setPicks st (<[r0:=without i l]> (picks st)))) as (st'&E&F&L).
      { intros r Hr. cbn [picks setPicks]. destruct (decide (r0 = r)) as [->|Hne].
        - rewrite lookup_insert_eq. eauto.
        - rewrite lookup_insert_ne by done. apply Hdef. set_solver. }
      exists st'. split; [done|]. split.
      { eapply sameFrame_trans; [|exact F]. apply sameFrame_setPicks. }
      intros r. rewrite L. cbn [picks setPicks].
      destruct (decide (r0 = r)) as [->|Hne].
      * rewrite lookup_insert_eq, Hl. cbn [fmap option_fmap option_map]. rewrite without_idemp.
        destruct (decide (r ∈ cs ∧ _)) as [[H1 H2]|H1];
          destruct (decide (r ∈ r :: cs ∧ _)) as [[H3 H4]|H3]; try done;
          exfalso; apply H3; (split; [apply elem_of_cons; by left|done]).
      * rewrite lookup_insert_ne by done.
        destruct (decide (r ∈ cs ∧ _)) as [[H1 H2]|H1];
          destruct (decide (r ∈ r0 :: cs ∧ _)) as [[H3 H4]|H3]; try done.
        -- exfalso. apply H3. set_solver.
        -- exfalso. apply H1. set_solver.
Qed.

(** *** The comparator against the order on fairness keys *)

Lemma keyLe_refl a : keyLe a a.
Proof. unfold keyLe. lia. Qed.

Lemma keyLe_trans a b c : keyLe a b → keyLe b c → keyLe a c.
Proof. unfold keyLe. lia. Qed.

Lemma better_neg a b : better a b < 0 → keyLe a b.
Proof.
  unfold better, keyLe. destruct (decide (a.1 ≠ b.1)); [lia|].
  destruct (decide (monFriWeight > 0 ∧ a.2 ≠ b.2)); lia.
Qed.

Lemma better_pos a b : 0 < better a b → keyLe b a.
Proof.
  unfold better, keyLe. destruct (decide (a.1 ≠ b.1)); [lia|].
  destruct (decide (monFriWeight > 0 ∧ a.2 ≠ b.2)); lia.
Qed.

Lemma better_zero a b : better a b = 0 → a = b.
Proof.
  unfold better, monFriWeight. destruct a as [a1 a2], b as [b1 b2]. simpl.
  destruct (decide (a1 ≠ b1)); [lia|].
  destruct (decide (1 > 0 ∧ a2 ≠ b2)) as [|Hn]; [lia|].
  intros _. f_equal; [lia|]. destruct (decide (a2 = b2)); [done|]. exfalso. apply Hn. lia.
Qed.

Section FairCmp.
Variable rnd : nat → Z.

Lemma fairCmp_lt st x y n :
  (fairCmp rnd st x y n).1 < 0 → keyLe (metric st x) (metric st y).
Proof.
  unfold fairCmp. destruct (decide _) as [Hc|Hc]; simpl.
  - apply better_neg.
  - intros _. assert (better (metric st x) (metric st y) = 0) as H0 by lia.
    apply better_zero in H0. rewrite H0. apply keyLe_refl.
Qed.

Lemma fairCmp_ge st x y n :
  ¬ (fairCmp rnd st x y n).1 < 0 → keyLe (metric st y) (metric st x).
Proof.
  unfold fairCmp. destruct (decide _) as [Hc|Hc]; simpl.
  - intros Hn. apply better_pos. lia.
  - intros _. assert (better (metric st x) (metric st y) = 0) as H0 by lia.
    apply better_zero in H0. rewrite H0. apply keyLe_refl.
Qed.

Lemma fairCmp_mono st x y n : (n ≤ (fairCmp rnd st x y n).2)%nat.
Proof. unfold fairCmp. destruct (decide _); simpl; lia. Qed.

(** The winner of a sort of the contenders: a contender whose key is
    smallest. *)
Lemma fair_winner_minimal st cs n w :
  head (sortM (fairCmp rnd st) cs n).1 = Some w →
  w ∈ cs ∧ ∀ y, y ∈ cs → keyLe (metric st w) (metric st y).
Proof.
  apply (sortM_head_minimal (fairCmp rnd st)
           (λ x y, keyLe (metric st x) (metric st y))).
  - intros x. apply keyLe_refl.
  - intros x y z. apply keyLe_trans.
  - apply fairCmp_lt.
  - apply fairCmp_ge.
Qed.

Lemma fair_winner_exists st cs n :
  (1 < length cs)%nat → ∃ w, head (sortM (fairCmp rnd st) cs n).1 = Some w.
Proof.
  intros Hlen. pose proof (sortM_length (fairCmp rnd st) cs n) as Hl.
  destruct (sortM (fairCmp rnd st) cs n).1 as [|w t]; simpl in *; [lia|eauto].
Qed.

(** *** One shift *)

Lemma resolveShift_spec cs s st n :
  (∀ r, r ∈ cs → is_Some (picks st !! r)) →
  ∃ st' n', resolveShift rnd cs s st n = Some (st', n') ∧ (n ≤ n')%nat ∧
    shrinks st st' ∧
    (∀ r x, x ≠ shiftId s → (x ∈ picksOf st' r ↔ x ∈ picksOf st r)) ∧
    ((length cs ≤ 1)%nat → st' = st ∧ n' = n) ∧
    ((1 < length cs)%nat →
      ∃ w, head (sortM (fairCmp rnd st) cs n).1 = Some w ∧
        picks st' !! w = picks st !! w ∧
        (∀ r, r ∈ cs → r ≠ w → shiftId s ∉ picksOf st' r) ∧
        (∀ r, r ∉ cs → picks st' !! r = picks st !! r)).
Proof.
  intros Hdef. unfold resolveShift.
  destruct (decide (length cs ≤ 1)%nat) as [Hle|Hgt].
  { exists st, n. split; [done|]. split; [done|]. split; [apply shrinks_refl|].
    split; [done|]. split; [done|]. lia. }
  pose proof (sortM_mono (fairCmp rnd st) (fairCmp_mono st) cs n) as Hmono.
  destruct (fair_winner_exists st cs n) as [w Hw]; [lia|].
  destruct (sortM (fairCmp rnd st) cs n) as [ranked n'] eqn:Es. simpl in Hw, Hmono.
  destruct (removeLosers_spec (head ranked) (shiftId s) cs st Hdef) as (st'&E&F&L).
  rewrite E. cbn [mbind option_bind]. exists st', n'.
  assert (∀ r, picksOf st' r = picksOf st r ∨
               picksOf st' r = without (shiftId s) (picksOf st r)) as Hcases.
  { intros r. unfold picksOf. rewrite L. destruct (decide _); [|by left].
    right. by destruct (picks st !! r). }
  split; [done|]. split; [done|]. split; [|split; [|split; [lia|]]].
  - split; [done|]. split.
    + intros r. rewrite L. destruct (decide _); [|done]. by rewrite fmap_is_Some.
    + intros r. destruct (Hcases r) as [->| ->]; [done|]. apply sublist_filter.
  - intros r x Hx. destruct (Hcases r) as [->| ->]; [done|].
    rewrite elem_of_without. tauto.
  - intros _. exists w. split; [done|]. rewrite Hw in L. split; [|split].
    + rewrite L. destruct (decide _) as [[_ Hne]|]; [congruence|done].
    + intros r Hr Hne. unfold picksOf. rewrite L.
      destruct (decide _) as [_|Hn]; [|exfalso; apply Hn; split; [done|congruence]].
      destruct (picks st !! r); simpl; [|by apply not_elem_of_nil].
      rewrite elem_of_without. tauto.
    + intros r Hr. rewrite L. destruct (decide _) as [[? _]|]; done.
Qed.
End FairCmp.

(** *** The loop over the shifts *)

Lemma covers_whoIsAssigned st : covers (whoIsAssigned st) st.
Proof.
  split.
  - intros i r [_ Hr]%elem_of_whoIsAssigned. unfold picksOf in Hr.
    destruct (picks st !! r); [eauto|]. by apply elem_of_nil in Hr.
  - intros i r ??. by apply elem_of_whoIsAssigned.
Qed.

Lemma covers_shrinks T st st' : shrinks st st' → covers T st → covers T st'.
Proof.
  intros Hs [C1 C2]. split.
  - intros i r Hi. apply Hs. by eapply C1.
  - intros i r H1 H2. assert (residents st' = residents st) as Hr by apply Hs.
    rewrite Hr in H1. apply (C2 i r H1). by eapply shrinks_elem.
Qed.

Section Loop.
Variable rnd : nat → Z.
Variable T : string → list string.

Lemma resolveLoop_app pre post st n :
  resolveLoop rnd T (pre ++ post) st n =
  '(st1, n1) ← resolveLoop rnd T pre st n; resolveLoop rnd T post st1 n1.
Proof.
  revert st n. induction pre as [|s pre IH]; intros st n; cbn [resolveLoop app].
  - done.
  - destruct (resolveShift rnd (T (shiftId s)) s st n) as [[st1 n1]|]; [|done].
    cbn [mbind option_bind]. apply IH.
Qed.

Lemma resolveLoop_spec l st n :
  covers T st →
  ∃ st' n', resolveLoop rnd T l st n = Some (st', n') ∧ (n ≤ n')%nat ∧
    shrinks st st' ∧
    (∀ x, (∀ s, s ∈ l → shiftId s ≠ x) → ∀ r, x ∈ picksOf st' r ↔ x ∈ picksOf st r) ∧
    (∀ s, s ∈ l → atMostOne st' (shiftId s)).
Proof.
  revert st n. induction l as [|s l IH]; intros st n Hc; cbn [resolveLoop].
  - exists st, n. split; [done|]. split; [done|]. split; [apply shrinks_refl|].
    split; [done|]. intros s Hs. by apply elem_of_nil in Hs.
  - destruct (resolveShift_spec rnd (T (shiftId s)) s st n)
      as (st1&n1&E1&Hn1&Hs1&Ho1&Hle&Hgt); [apply Hc|].
    rewrite E1. cbn [mbind option_bind].
    pose proof (covers_shrinks _ _ _ Hs1 Hc) as Hc1.
    destruct (IH st1 n1 Hc1) as (st2&n2&E2&Hn2&Hs2&Ho2&Ha2).
    exists st2, n2. split; [done|]. split; [lia|].
    split; [by eapply shrinks_trans|]. split.
    + intros x Hx r. rewrite Ho2 by (intros; apply Hx; set_solver).
      apply Ho1. intros ->. by apply (Hx s); [set_solver|].
    + intros s' [->|Hs']%elem_of_cons; [|by apply Ha2].
      apply (atMostOne_shrinks st1); [done|].
      destruct Hc as [C1 C2]. destruct Hc1 as [_ C2'].
      destruct (decide (length (T (shiftId s)) ≤ 1)%nat) as [Hl|Hl].
      * intros r1 r2 H1 H2 H3 H4.
        pose proof (C2' _ _ H1 H3) as Ha. pose proof (C2' _ _ H2 H4) as Hb.
        destruct (T (shiftId s)) as [|a [|b t]]; simpl in Hl; [| |lia].
        -- by apply elem_of_nil in Ha.
        -- apply list_elem_of_singleton in Ha, Hb. congruence.
      * destruct Hgt as (w&Hw&Hkeep&Hlose&Hout); [lia|].
        assert (∀ r, r ∈ residents st1 → shiftId s ∈ picksOf st1 r → r = w) as Hall.
        { intros r H1 H3. destruct (decide (r = w)) as [|Hne]; [done|].
          exfalso. exact (Hlose r (C2' _ _ H1 H3) Hne H3). }
        intros r1 r2 H1 H2 H3 H4. rewrite (Hall r1), (Hall r2); done.
Qed.
End Loop.

(** *** The whole pass *)

Lemma filter_none {A} (P : A → Prop) `{!∀ x, Decision (P x)} (l : list A) :
  (∀ x, x ∈ l → ¬ P x) → filter P l = [].
Proof.
  induction l as [|a l IH]; intros Hall; [done|]. rewrite filter_cons.
  destruct (decide (P a)) as [Hp|_]; [by apply Hall in Hp; [|set_solver]|].
  apply IH. intros; apply Hall; set_solver.
Qed.

Lemma filter_only {A} (P : A → Prop) `{!∀ x, Decision (P x)} (l : list A) w :
  NoDup l → w ∈ l → (∀ r, r ∈ l → P r ↔ r = w) → filter P l = [w].
Proof.
  induction l as [|a l IH]; intros Hnd Hw HP; [by apply elem_of_nil in Hw|].
  apply NoDup_cons in Hnd as [Ha Hnd]. rewrite filter_cons.
  apply elem_of_cons in Hw as [->|Hw].
  - destruct (decide (P a)) as [_|Hn]; [|exfalso; apply Hn, HP; [set_solver|done]].
    f_equal. apply filter_none. intros x Hx HPx.
    apply HP in HPx; [|set_solver]. by subst.
  - destruct (decide (P a)) as [HPa|_].
    { apply HP in HPa; [|set_solver]. by subst. }
    apply IH; [done|done|]. intros r Hr. apply HP. set_solver.
Qed.

Lemma filter_ext_in {A} (P Q : A → Prop) `{!∀ x, Decision (P x)} `{!∀ x, Decision (Q x)}
    (l : list A) :
  (∀ x, x ∈ l → P x ↔ Q x) → filter P l = filter Q l.
Proof.
  induction l as [|a l IH]; intros Hall; [done|]. rewrite !filter_cons.
  rewrite IH by (intros; apply Hall; set_solver).
  destruct (decide (P a)) as [Hp|Hp], (decide (Q a)) as [Hq|Hq]; try done;
    exfalso; [apply Hq|apply Hp]; apply (Hall a); try done; set_solver.
Qed.

Section Pass.
Variable rnd : nat → Z.

(** The pass never throws, and leaves every registered shift with at most
    one claimant. *)
Lemma resolve_at_most_one st n :
  NoDup (residents st) →
  ∃ st' n', resolveConflictsFair rnd st n = Some (st', n') ∧
    sameFrame st st' ∧
    ∀ s, s ∈ shifts st' → (length (whoIsAssigned st' (shiftId s)) ≤ 1)%nat.
Proof.
  intros Hnd. unfold resolveConflictsFair.
  destruct (resolveLoop_spec rnd (whoIsAssigned st) (shifts st) st n
              (covers_whoIsAssigned st)) as (st'&n'&E&_&Hs&_&Ha).
  exists st', n'. split; [done|]. destruct Hs as [F Hs]. split; [done|].
  destruct F as (_&_&Hr&Hsh&_). intros s Hin.
  apply whoIsAssigned_atMostOne; [by rewrite Hr|]. apply Ha. by rewrite <- Hsh.
Qed.

(** Without a conflict the pass changes nothing and draws nothing. *)
Lemma resolveLoop_no_conflict T l st n :
  (∀ s, s ∈ l → (length (T (shiftId s)) ≤ 1)%nat) →
  resolveLoop rnd T l st n = Some (st, n).
Proof.
  induction l as [|s l IH]; intros H; cbn [resolveLoop]; [done|].
  unfold resolveShift. rewrite decide_True by (apply H; set_solver).
  cbn [mbind option_bind]. apply IH. intros; apply H; set_solver.
Qed.

Lemma resolve_idempotent st n :
  (∀ s, s ∈ shifts st → (length (whoIsAssigned st (shiftId s)) ≤ 1)%nat) →
  resolveConflictsFair rnd st n = Some (st, n).
Proof. apply resolveLoop_no_conflict. Qed.

(** The winner of a contested shift, in terms of the ledger [st1] the pass
    holds when it reaches that shift. *)
Lemma resolve_winner_minimal st n pre s post :
  NoDup (residents st) →
  NoDup (shiftId <$> shifts st) →
  shifts st = pre ++ s :: post →
  (1 < length (whoIsAssigned st (shiftId s)))%nat →
  ∃ st1 n1 st2 n2 w,
    resolveLoop rnd (whoIsAssigned st) pre st n = Some (st1, n1) ∧
    resolveConflictsFair rnd st n = Some (st2, n2) ∧
    whoIsAssigned st1 (shiftId s) = whoIsAssigned st (shiftId s) ∧
    w ∈ whoIsAssigned st1 (shiftId s) ∧
    (∀ r, r ∈ whoIsAssigned st1 (shiftId s) → keyLe (metric st1 w) (metric st1 r)) ∧
    whoIsAssigned st2 (shiftId s) = [w].
Proof.
  intros Hnd Hids Hsplit Hlen. set (T := whoIsAssigned st). set (i := shiftId s).
  rewrite Hsplit, fmap_app, fmap_cons in Hids.
  apply NoDup_app in Hids as (_&Hpre&Hpost). apply NoDup_cons in Hpost as [Hpost _].
  assert (∀ p, p ∈ pre → shiftId p ≠ i) as Hpre'.
  { intros p Hp Heq. apply (Hpre i); [|set_solver].
    apply list_elem_of_fmap. eauto. }
  assert (∀ p, p ∈ post → shiftId p ≠ i) as Hpost'.
  { intros p Hp Heq. apply Hpost. apply list_elem_of_fmap. eauto. }
  pose proof (covers_whoIsAssigned st) as Hc.
  destruct (resolveLoop_spec rnd T pre st n Hc) as (st1&n1&E1&_&Hs1&Ho1&_).
  pose proof (covers_shrinks _ _ _ Hs1 Hc) as Hc1.
  destruct (resolveShift_spec rnd (T i) s st1 n1) as (st1'&n1'&E2&_&Hs2&_&_&Hgt);
    [apply Hc1|].
  destruct Hgt as (w&Hw&Hkeep&Hlose&_); [done|].
  pose proof (covers_shrinks _ _ _ Hs2 Hc1) as Hc2.
  destruct (resolveLoop_spec rnd T post st1' n1' Hc2) as (st2&n2&E3&_&Hs3&Ho3&_).
  destruct (fair_winner_minimal rnd st1 (T i) n1 w Hw) as [HwT Hmin].
  assert (residents st1 = residents st) as Hr1 by apply Hs1.
  assert (residents st1' = residents st1) as Hr1' by apply Hs2.
  assert (residents st2 = residents st1') as Hr2 by apply Hs3.
  assert (whoIsAssigned st1 i = T i) as Hsame.
  { unfold T, whoIsAssigned. rewrite Hr1. apply filter_ext_in.
    intros r _. by apply Ho1. }
  exists st1, n1, st2, n2, w. split; [done|]. split.
  { unfold resolveConflictsFair. rewrite Hsplit, resolveLoop_app. fold T.
    rewrite E1. cbn [mbind option_bind resolveLoop]. fold i. rewrite E2.
    cbn [mbind option_bind]. done. }
  split; [done|]. rewrite Hsame. split; [done|]. split; [done|].
  unfold whoIsAssigned. rewrite Hr2, Hr1', Hr1.
  apply elem_of_whoIsAssigned in HwT as [HwR HwP].
  apply filter_only; [done|done|]. intros r Hr.
  rewrite Ho3 by done. split.
  - intros Hi. destruct (decide (r = w)) as [|Hne]; [done|]. exfalso.
    apply (Hlose r); [|done|done]. destruct Hc2 as [_ C2]. apply C2; [|done].
    by rewrite Hr1', Hr1.
  - intros ->. unfold picksOf. rewrite Hkeep. by apply Ho1.
Qed.

(** The pass, cut at any shift of the registry: the shifts before it are
    resolved first, and the shift is ranked on the ledger they leave. *)
Lemma resolve_in_registry_order st n pre s post :
  shifts st = pre ++ s :: post →
  resolveConflictsFair rnd st n =
    '(st1, n1) ← resolveLoop rnd (whoIsAssigned st) pre st n;
    '(st2, n2) ← resolveShift rnd (whoIsAssigned st (shiftId s)) s st1 n1;
    resolveLoop rnd (whoIsAssigned st) post st2 n2.
Proof.
  intros Hsplit. unfold resolveConflictsFair. by rewrite Hsplit, resolveLoop_app.
Qed.
End Pass.

(** Two runs that differ only in the random numbers: when the first one
    draws none, the second one does the same thing. *)
Section Determinism.
Variables rnd rnd' : nat → Z.

Lemma fairCmp_agree st x y n :
  (fairCmp rnd st x y n).2 = n → fairCmp rnd' st x y n = fairCmp rnd st x y n.
Proof. unfold fairCmp. destruct (decide _); simpl; [done|lia]. Qed.

Lemma resolveShift_mono cs s st n st' n' :
  resolveShift rnd cs s st n = Some (st', n') → (n ≤ n')%nat.
Proof.
  unfold resolveShift. destruct (decide _); [by intros [= _ ->]|].
  pose proof (sortM_mono (fairCmp rnd st) (fairCmp_mono rnd st) cs n) as Hm.
  destruct (sortM (fairCmp rnd st) cs n) as [ranked m]. simpl in Hm.
  destruct (removeLosers _ _ _ _); simpl; [|done]. by intros [= _ <-].
Qed.

Lemma resolveLoop_mono T l st n st' n' :
  resolveLoop rnd T l st n = Some (st', n') → (n ≤ n')%nat.
Proof.
  revert st n. induction l as [|s l IH]; intros st n; cbn [resolveLoop].
  - by intros [= _ ->].
  - destruct (resolveShift rnd (T (shiftId s)) s st n) as [[st1 n1]|] eqn:E; [|done].
    cbn [mbind option_bind]. intros H. apply IH in H.
    apply resolveShift_mono in E. lia.
Qed.

Lemma resolveShift_agree cs s st n st' :
  resolveShift rnd cs s st n = Some (st', n) →
  resolveShift rnd' cs s st n = Some (st', n).
Proof.
  unfold resolveShift. destruct (decide _); [done|].
  pose proof (sortM_agree (fairCmp rnd st) (fairCmp_mono rnd st)
                (fairCmp rnd' st) (fairCmp_agree st) cs n) as Ha.
  destruct (sortM (fairCmp rnd st) cs n) as [ranked m] eqn:Es. simpl in Ha.
  destruct (removeLosers (head ranked) (shiftId s) cs st) as [st1|] eqn:Er; [|done].
  cbn [mbind option_bind]. intros [= -> ->]. rewrite Ha by done. by rewrite Er.
Qed.

Lemma resolveLoop_agree T l st n st' :
  resolveLoop rnd T l st n = Some (st', n) →
  resolveLoop rnd' T l st n = Some (st', n).
Proof.
  revert st. induction l as [|s l IH]; intros st; cbn [resolveLoop]; [done|].
  destruct (resolveShift rnd (T (shiftId s)) s st n) as [[st1 n1]|] eqn:E; [|done].
  cbn [mbind option_bind]. intros H.
  pose proof (resolveShift_mono _ _ _ _ _ _ E) as H1.
  pose proof (resolveLoop_mono _ _ _ _ _ _ H) as H2.
  assert (n1 = n) as -> by lia.
  rewrite (resolveShift_agree _ _ _ _ _ E). cbn [mbind option_bind]. by apply IH.
Qed.

Lemma resolve_deterministic st n st' :
  resolveConflictsFair rnd st n = Some (st', n) →
  resolveConflictsFair rnd' st n = Some (st', n).
Proof. apply resolveLoop_agree. Qed.
End Determinism.

(** *** Claiming and unclaiming *)

Lemma length_without_le i l : (length (without i l) ≤ length l)%nat.
Proof. apply length_filter. Qed.

Lemma withinQuota_insert st name l :
  withinQuota st → Z.of_nat (length l) ≤ slotsPerResident (config st) →
  withinQuota (setPicks st (<[name := l]> (picks st))).
Proof.
  intros Hq Hl r l'. cbn [picks setPicks config].
  destruct (decide (name = r)) as [->|Hne].
  - rewrite lookup_insert_eq. by intros [= <-].
  - rewrite lookup_insert_ne by done. apply Hq.
Qed.

Lemma onCheckboxChange_quota name i checked st fb st' :
  onCheckboxChange name i checked st = Some (fb, st') →
  withinQuota st → withinQuota st' ∧ config st' = config st.
Proof.
  unfold onCheckboxChange. destruct (picks st !! name) as [arr|] eqn:E; [|done].
  cbn [mbind option_bind]. intros H Hq. pose proof (Hq _ _ E) as Harr.
  destruct checked.
  - destruct (Z.of_nat (length arr) >=? slotsPerResident (config st)) eqn:Eq.
    + by injection H as <- <-.
    + injection H as <- <-. destruct (includes arr i); [done|]. split; [|done].
      apply withinQuota_insert; [done|]. rewrite length_app. simpl. lia.
  - injection H as <- <-. split; [|done]. apply withinQuota_insert; [done|].
    pose proof (length_without_le i arr). lia.
Qed.

Lemma applyOp_quota op st :
  withinQuota st → withinQuota (applyOp op st) ∧ config (applyOp op st) = config st.
Proof.
  intros Hq. destruct op as [name i|name i]; cbn [applyOp]; unfold claim, unclaim;
    destruct (meFinished st name); try done.
  - destruct (onCheckboxChange name i true st) as [[fb st']|] eqn:E; [|done].
    by eapply onCheckboxChange_quota.
  - destruct (onCheckboxChange name i false st) as [[fb st']|] eqn:E; [|done].
    by eapply onCheckboxChange_quota.
Qed.

Lemma runOps_quota ops st :
  withinQuota st → withinQuota (runOps ops st) ∧ config (runOps ops st) = config st.
Proof.
  revert st. induction ops as [|op ops IH]; intros st Hq; [done|].
  unfold runOps. cbn [fold_left]. destruct (applyOp_quota op st Hq) as [H1 H2].
  destruct (IH _ H1) as [H3 H4]. split; [done|]. unfold runOps in H4. by rewrite H4.
Qed.

(** A claim at the quota is turned down and changes nothing. *)
Lemma claim_at_quota name i st l :
  meFinished st name = false →
  picks st !! name = Some l →
  Z.of_nat (length l) = slotsPerResident (config st) →
  claim name i st = Some (ToastMax (slotsPerResident (config st)), st).
Proof.
  intros Hf Hl Hlen. unfold claim, onCheckboxChange. rewrite Hf, Hl.
  cbn [mbind option_bind]. rewrite <- Hlen.
  by rewrite (proj2 (Z.geb_le _ _)) by lia.
Qed.

(** Claiming a shift again never changes the state. *)
Lemma claim_again_state name i st l fb st' :
  picks st !! name = Some l → i ∈ l →
  claim name i st = Some (fb, st') → st' = st.
Proof.
  intros Hl Hi. unfold claim, onCheckboxChange. destruct (meFinished st name).
  { by intros [= _ <-]. }
  rewrite Hl. cbn [mbind option_bind].
  destruct (_ >=? _); [by intros [= _ <-]|].
  unfold includes. rewrite bool_decide_eq_true_2 by done. by intros [= _ <-].
Qed.

Lemma claim_again_below_quota name i st l :
  meFinished st name = false →
  picks st !! name = Some l → i ∈ l →
  Z.of_nat (length l) < slotsPerResident (config st) →
  claim name i st = Some (Toast "Selections saved", st).
Proof.
  intros Hf Hl Hi Hlen. unfold claim, onCheckboxChange. rewrite Hf, Hl.
  cbn [mbind option_bind].
  destruct (_ >=? _) eqn:E; [apply Z.geb_le in E; lia|].
  unfold includes. by rewrite bool_decide_eq_true_2 by done.
Qed.

(** *** The registry *)

Lemma existsb_id l i :
  existsb (λ s, bool_decide (shiftId s = i)) l = true ↔ ∃ s, s ∈ l ∧ shiftId s = i.
Proof.
  rewrite existsb_exists. split; intros (s&H1&H2); exists s.
  - split; [by apply list_elem_of_In|]. by apply bool_decide_eq_true in H2.
  - split; [by apply list_elem_of_In|]. by apply bool_decide_eq_true.
Qed.

Lemma addGuardia_duplicate d t st s :
  idsDerived st → s ∈ shifts st → date s = d → type s = t →
  d ≠ ""%string → t ≠ ""%string →
  addGuardia d t st = (Alert "That guardia already exists.", st).
Proof.
  intros Hids Hs Hd Ht Hd0 Ht0. unfold addGuardia.
  rewrite decide_False by tauto.
  replace (existsb _ _) with true; [done|]. symmetry. apply existsb_id.
  exists s. split; [done|]. rewrite (Hids s Hs). by subst.
Qed.

Lemma addGuardia_twice d t st :
  d ≠ ""%string → t ≠ ""%string →
  addGuardia d t (addGuardia d t st).2 =
    (Alert "That guardia already exists.", (addGuardia d t st).2).
Proof.
  intros Hd0 Ht0. unfold addGuardia at 2 3. rewrite decide_False by tauto.
  destruct (existsb _ (shifts st)) eqn:E; cbn [snd]; unfold addGuardia;
    rewrite decide_False by tauto.
  - by rewrite E.
  - replace (existsb _ _) with true; [done|]. symmetry. apply existsb_id.
    exists (mkShift (idFor d t) d t []). split; [|done]. cbn [shifts setShifts].
    set_solver.
Qed.

Lemma addGuardia_idsDerived d t st :
  idsDerived st → idsDerived (addGuardia d t st).2.
Proof.
  intros H. unfold addGuardia. destruct (decide _); [done|].
  destruct (existsb _ _); [done|]. cbn [snd]. intros s. cbn [shifts setShifts].
  intros [Hs|Hs]%elem_of_app; [by apply H|]. by apply list_elem_of_singleton in Hs as ->.
Qed.

Lemma addGuardia_NoDup d t st :
  NoDup (shiftId <$> shifts st) → NoDup (shiftId <$> shifts (addGuardia d t st).2).
Proof.
  intros H. unfold addGuardia. destruct (decide _); [done|].
  destruct (existsb _ _) eqn:E; [done|]. cbn [snd shifts setShifts].
  rewrite fmap_app. apply NoDup_app. split; [done|]. split; [|apply NoDup_singleton].
  intros x Hx Hx'. cbn in Hx'. apply list_elem_of_singleton in Hx' as ->.
  apply list_elem_of_fmap in Hx as (s&Hs1&Hs2).
  assert (existsb (λ s, bool_decide (shiftId s = idFor d t)) (shifts st) = true) as Ht;
    [|congruence].
  apply existsb_id. eauto.
Qed.

(** *** Removing a shift *)

Lemma state_eq st st' : sameFrame st st' → picks st' = picks st → st' = st.
Proof.
  destruct st, st'. unfold sameFrame. simpl. intros (?&?&?&?&?) ?. by subst.
Qed.

Lemma filter_all {A} (P : A → Prop) `{!∀ x, Decision (P x)} (l : list A) :
  (∀ x, x ∈ l → P x) → filter P l = l.
Proof.
  induction l as [|a l IH]; intros Hall; [done|]. rewrite filter_cons.
  rewrite decide_True by (apply Hall; set_solver). f_equal.
  apply IH. intros; apply Hall; set_solver.
Qed.

Lemma purge_removeLosers i rs st : purge i rs st = removeLosers None i rs st.
Proof.
  revert st. induction rs as [|r rs IH]; intros st; cbn [purge removeLosers]; [done|].
  rewrite decide_False by done. destruct (picks st !! r); [|done].
  cbn [mbind option_bind]. apply IH.
Qed.

Lemma removeShift_spec i st :
  hydrated st →
  ∃ st', removeShift i st = Some st' ∧
    shifts st' = filter (λ x, shiftId x ≠ i) (shifts st) ∧
    residents st' = residents st ∧ config st' = config st ∧
    finished st' = finished st ∧ setupDone st' = setupDone st ∧
    (∀ r, picks st' !! r =
          if decide (r ∈ residents st) then without i <$> picks st !! r
          else picks st !! r).
Proof.
  intros Hh. unfold removeShift. rewrite purge_removeLosers.
  set (st0 := setShifts st _).
  destruct (removeLosers_spec None i (residents st) st0) as (st'&E&F&L); [apply Hh|].
  exists st'. split; [done|]. destruct F as (Fd&Fc&Fr&Fs&Ff).
  split; [by rewrite Fs|]. split; [by rewrite Fr|]. split; [by rewrite Fc|].
  split; [by rewrite Ff|]. split; [by rewrite Fd|].
  intros r. rewrite L. cbn [picks st0 setShifts].
  destruct (decide (r ∈ residents st ∧ _)) as [[H1 _]|H1];
    destruct (decide (r ∈ residents st)) as [H2|H2]; try done.
  exfalso. apply H1. by split.
Qed.

(** *** Filling the empty shifts *)

Lemma sameFrame_pushPick st r i : sameFrame st (pushPick st r i).
Proof. apply sameFrame_setPicks. Qed.

Lemma hydrated_pushPick st r i : hydrated st → hydrated (pushPick st r i).
Proof.
  intros Hh r' Hr'. cbn [pushPick picks setPicks residents] in *.
  destruct (decide (r = r')) as [->|Hne].
  - rewrite lookup_insert_eq. eauto.
  - rewrite lookup_insert_ne by done. by apply Hh.
Qed.

Lemma canTake_Some st r i :
  is_Some (picks st !! r) →
  canTake st r i =
    Some (negb (includes (picksOf st r) i) &&
          (Z.of_nat (length (picksOf st r)) <? slotsPerResident (config st))).
Proof. intros [l Hl]. unfold canTake, picksOf. by rewrite Hl. Qed.

Lemma canTake_true st r i :
  canTake st r i = Some true →
  (i ∉ picksOf st r) ∧ Z.of_nat (length (picksOf st r)) < slotsPerResident (config st).
Proof.
  unfold canTake, picksOf. destruct (picks st !! r) as [l|]; [|done]. simpl.
  intros [= H]. apply andb_true_iff in H as [H1 H2]. apply Z.ltb_lt in H2.
  split; [|done]. unfold includes in H1. apply negb_true_iff in H1.
  by apply bool_decide_eq_false in H1.
Qed.

Lemma canTake_false st r i :
  canTake st r i = Some false →
  i ∈ picksOf st r ∨ slotsPerResident (config st) ≤ Z.of_nat (length (picksOf st r)).
Proof.
  unfold canTake, picksOf. destruct (picks st !! r) as [l|]; [|done]. simpl.
  intros [= H]. apply andb_false_iff in H as [H|H].
  - left. unfold includes in H. apply negb_false_iff in H.
    by apply bool_decide_eq_true in H.
  - right. by apply Z.ltb_ge in H.
Qed.

Lemma withinQuota_pushPick st r i :
  withinQuota st → canTake st r i = Some true → withinQuota (pushPick st r i).
Proof.
  intros Hq [_ Hlen]%canTake_true. apply withinQuota_insert; [done|].
  rewrite length_app. simpl. lia.
Qed.

Lemma tryNext_spec i cands st :
  (∀ c, c ∈ cands → is_Some (picks st !! c)) →
  ∃ st', tryNext i cands st = Some st' ∧ firstAble st i cands st'.
Proof.
  induction cands as [|c cands IH]; intros Hdef; cbn [tryNext].
  - exists st. split; [done|]. right. split; [|done]. intros c Hc.
    by apply elem_of_nil in Hc.
  - rewrite canTake_Some by (apply Hdef; set_solver).
    pose proof (canTake_Some st c i (Hdef c ltac:(set_solver))) as Hc.
    cbn [mbind option_bind]. destruct (negb _ && _) eqn:Eb.
    + exists (pushPick st c i). split; [done|]. left. exists [], c, cands.
      split; [done|]. split; [|done]. intros ? H. by apply elem_of_nil in H.
    + destruct IH as (st'&E&Hf); [intros; apply Hdef; set_solver|].
      exists st'. split; [done|]. destruct Hf as [(pre&w&post&->&Hpre&Hw&->)|[Hall ->]].
      * left. exists (c :: pre), w, post. split; [done|]. split; [|done].
        intros c' [->|Hc']%elem_of_cons; [done|by apply Hpre].
      * right. split; [|done]. intros c' [->|Hc']%elem_of_cons; [done|by apply Hall].
Qed.

Section Fill.
Variable rnd : nat → Z.

Lemma fillCmp_lt st x y n :
  (fillCmp rnd st x y n).1 < 0 → keyLe (metric st x) (metric st y).
Proof.
  unfold fillCmp, keyLe, metric. cbn [fst snd].
  destruct (decide (total (statsFor st x) ≠ total (statsFor st y))); cbn [fst]; [lia|].
  destruct (decide (monfri (statsFor st x) ≠ monfri (statsFor st y))); cbn [fst]; lia.
Qed.

Lemma fillCmp_ge st x y n :
  ¬ (fillCmp rnd st x y n).1 < 0 → keyLe (metric st y) (metric st x).
Proof.
  unfold fillCmp, keyLe, metric. cbn [fst snd].
  destruct (decide (total (statsFor st x) ≠ total (statsFor st y))); cbn [fst]; [lia|].
  destruct (decide (monfri (statsFor st x) ≠ monfri (statsFor st y))); cbn [fst]; lia.
Qed.

Lemma fill_ranked_sorted st l n :
  StronglySorted (λ x y, keyLe (metric st x) (metric st y))
    (sortM (fillCmp rnd st) l n).1.
Proof.
  apply sortM_sorted.
  - intros x y z. apply keyLe_trans.
  - apply fillCmp_lt.
  - apply fillCmp_ge.
Qed.

(** One empty shift: the ranking is walked from the top. *)
Lemma assignOne_spec s st n :
  hydrated st → residents st ≠ [] →
  ∃ st', assignOne rnd s st n = Some (st', (sortM (fillCmp rnd st) (residents st) n).2) ∧
    firstAble st (shiftId s) (sortM (fillCmp rnd st) (residents st) n).1 st'.
Proof.
  intros Hh Hne. unfold assignOne.
  pose proof (sortM_elem_of (fillCmp rnd st) (residents st) n) as Hin.
  pose proof (sortM_length (fillCmp rnd st) (residents st) n) as Hlen.
  destruct (sortM (fillCmp rnd st) (residents st) n) as [ranked n'].
  cbn [fst snd] in *.
  destruct ranked as [|c t]; [destruct (residents st); simpl in *; [done|lia]|].
  cbn [head tail default from_option id].
  destruct (tryNext_spec (shiftId s) (c :: t) st) as (st'&E&Hf).
  { intros r Hr. apply Hh. by apply Hin. }
  cbn [tryNext] in E. exists st'. split; [|done].
  destruct (canTake st c (shiftId s)) as [b|]; [|done]. cbn [mbind option_bind] in *.
  destruct b; [by injection E as <-|]. by rewrite E.
Qed.

(** The resident who gets the shift has the smallest key among those who
    could take it. *)
Lemma firstAble_minimal st i l n st' :
  firstAble st i (sortM (fillCmp rnd st) l n).1 st' →
  st' = st ∨
  ∃ w, w ∈ l ∧ st' = pushPick st w i ∧ canTake st w i = Some true ∧
    ∀ r, r ∈ l → canTake st r i = Some true → keyLe (metric st w) (metric st r).
Proof.
  intros [(pre&w&post&Hsplit&Hpre&Hw&->)|[_ ->]]; [|by left]. right.
  pose proof (fill_ranked_sorted st l n) as Hs. rewrite Hsplit in Hs.
  exists w. split.
  { apply (sortM_elem_of (fillCmp rnd st) l n). rewrite Hsplit. set_solver. }
  split; [done|]. split; [done|]. intros r Hr Hable.
  apply (sortM_elem_of (fillCmp rnd st) l n) in Hr. rewrite Hsplit in Hr.
  apply elem_of_app in Hr as [Hr|Hr].
  - apply Hpre in Hr. congruence.
  - apply elem_of_cons in Hr as [->|Hr]; [apply keyLe_refl|].
    apply StronglySorted_app_1_r, StronglySorted_cons in Hs as [Hs _].
    rewrite Forall_forall in Hs. by apply Hs.
Qed.

Lemma picksOf_pushPick st w i r :
  picksOf (pushPick st w i) r = if decide (w = r) then picksOf st r ++ [i] else picksOf st r.
Proof.
  unfold picksOf at 1. cbn [pushPick picks setPicks].
  destruct (decide (w = r)) as [->|Hne].
  - by rewrite lookup_insert_eq.
  - by rewrite lookup_insert_ne.
Qed.

Lemma assignLoop_spec l st n :
  hydrated st → residents st ≠ [] → withinQuota st →
  ∃ st' n', assignLoop rnd l st n = Some (st', n') ∧
    hydrated st' ∧ withinQuota st' ∧ grows l st st'.
Proof.
  revert st n. induction l as [|s l IH]; intros st n Hh Hne Hq; cbn [assignLoop].
  - exists st, n. split; [done|]. split; [done|]. split; [done|].
    split; [apply sameFrame_refl|]. split; [done|]. intros; by left.
  - destruct (assignOne_spec s st n Hh Hne) as (st1&E1&Hf). rewrite E1.
    cbn [mbind option_bind].
    assert (hydrated st1 ∧ withinQuota st1 ∧ grows [s] st st1) as (Hh1&Hq1&Hg1).
    { destruct Hf as [(pre&w&post&_&_&Hw&->)|[_ ->]].
      - split; [by apply hydrated_pushPick|]. split; [by apply withinQuota_pushPick|].
        split; [apply sameFrame_pushPick|]. split.
        + intros r x Hx. rewrite picksOf_pushPick. destruct (decide _); set_solver.
        + intros r x. rewrite picksOf_pushPick. destruct (decide _); [|by left].
          intros [Hx|Hx]%elem_of_app; [by left|]. right. exists s. set_solver.
      - split; [done|]. split; [done|]. split; [apply sameFrame_refl|].
        split; [done|]. intros; by left. }
    assert (residents st1 ≠ []) as Hne1.
    { destruct Hg1 as ((_&_&Hr&_)&_). by rewrite Hr. }
    destruct (IH st1 (sortM (fillCmp rnd st) (residents st) n).2 Hh1 Hne1 Hq1)
      as (st2&n2&E2&Hh2&Hq2&Hg2).
    exists st2, n2. split; [done|]. split; [done|]. split; [done|].
    destruct Hg1 as (F1&G1&G1'), Hg2 as (F2&G2&G2'). split; [by eapply sameFrame_trans|].
    split; [by intros; apply G2, G1|]. intros r x Hx.
    apply G2' in Hx as [Hx|(s'&Hs'&<-)].
    + apply G1' in Hx as [Hx|(s'&Hs'&<-)]; [by left|]. right. exists s'. set_solver.
    + right. exists s'. set_solver.
Qed.

(** With everybody at the quota an empty shift stays empty. *)
Lemma assignOne_all_full s st n :
  hydrated st → residents st ≠ [] →
  (∀ r, r ∈ residents st →
     slotsPerResident (config st) ≤ Z.of_nat (length (picksOf st r))) →
  assignOne rnd s st n = Some (st, (sortM (fillCmp rnd st) (residents st) n).2).
Proof.
  intros Hh Hne Hfull. destruct (assignOne_spec s st n Hh Hne) as (st'&E&Hf).
  rewrite E. destruct Hf as [(pre&w&post&Hsplit&_&Hw&_)|[_ ->]]; [|done].
  exfalso. apply canTake_true in Hw as [_ Hw].
  assert (w ∈ residents st) as Hin.
  { apply (sortM_elem_of (fillCmp rnd st) (residents st) n). rewrite Hsplit. set_solver. }
  specialize (Hfull w Hin). lia.
Qed.
(** The whole fill: it never throws on a hydrated ledger with residents,
    keeps every claim list within the quota, and only adds claims for
    shifts nobody had claimed. *)
Lemma randomAssignRemaining_spec st n :
  hydrated st → residents st ≠ [] → withinQuota st →
  ∃ st' n', randomAssignRemaining rnd st n = Some (st', n') ∧
    hydrated st' ∧ withinQuota st' ∧
    grows (filter (λ s, length (whoIsAssigned st (shiftId s)) = 0%nat) (shifts st)) st st'.
Proof. apply assignLoop_spec. Qed.
End Fill.

(** *** Checking the ledger properties by computation *)

Lemma hydrated_Forall st :
  Forall (λ r, is_Some (picks st !! r)) (residents st) → hydrated st.
Proof. intros H r Hr. rewrite Forall_forall in H. by apply H. Qed.

Lemma withinQuota_map_Forall st :
  map_Forall (λ _ l, Z.of_nat (length l) ≤ slotsPerResident (config st)) (picks st) →
  withinQuota st.
Proof. intros H r l Hl. by apply (H r l). Qed.

End PlannerFacts.

(** ** Event sequences of the clean version *)
Module PlannerRuns.
Import JS Planner ListFacts PlannerFacts.

(** [valid] only looks at the residents, the shifts, the claim lists and the
    configuration. *)
Lemma valid_frame st st' :
  residents st' = residents st → shifts st' = shifts st →
  picks st' = picks st → config st' = config st → valid st → valid st'.
Proof.
  intros Hr Hs Hp Hc [V1 V2 V3 V4 V5 V6].
  split; unfold hydrated, withinQuota, idsDerived, claimsRegistered, picksOf in *;
    rewrite ?Hr, ?Hs, ?Hp, ?Hc; done.
Qed.

Lemma hydrateOne_lookup st r r' :
  is_Some (picks (hydrateOne st r) !! r') ↔ is_Some (picks st !! r') ∨ r' = r.
Proof.
  unfold hydrateOne. cbn [picks]. destruct (picks st !! r) as [l|] eqn:E.
  - split; [by left|]. intros [H| ->]; [done|]. by rewrite E.
  - destruct (decide (r = r')) as [->|Hne].
    + rewrite lookup_insert_eq. split; [by right|eauto].
    + rewrite lookup_insert_ne by done. split; [by left|]. intros [H|H]; [done|congruence].
Qed.

Lemma initial_valid : valid initialState.
Proof.
  split.
  - split; [|done]. refine (bool_decide_unpack _ _). by vm_compute.
  - apply hydrated_Forall. refine (bool_decide_unpack _ _). by vm_compute.
  - apply withinQuota_map_Forall. refine (bool_decide_unpack _ _). by vm_compute.
  - constructor.
  - intros s Hs. by apply elem_of_nil in Hs.
  - intros r x Hr Hx. exfalso. revert Hx.
    assert (Forall (λ r, picksOf initialState r = []) (residents initialState)) as H.
    { refine (bool_decide_unpack _ _). by vm_compute. }
    rewrite Forall_forall in H. rewrite (H r Hr). apply not_elem_of_nil.
Qed.

Lemma addGuardia_valid d t st : valid st → valid (addGuardia d t st).2.
Proof.
  intros V. pose proof (addGuardia_NoDup d t st (valid_ids st V)) as Hn.
  pose proof (addGuardia_idsDerived d t st (valid_derived st V)) as Hd.
  unfold addGuardia in *. destruct (decide _); [done|].
  destruct (existsb _ _); [done|]. cbn [snd] in *.
  destruct V as [V1 V2 V3 V4 V5 V6]. split; try done.
  intros r x Hr Hx. destruct (V6 r x Hr Hx) as (s&Hs&Hi). exists s.
  split; [|done]. cbn [shifts setShifts]. apply elem_of_app. by left.
Qed.

Lemma finishSetup_valid st : valid st → valid (finishSetup st).2.
Proof.
  intros V. unfold finishSetup. destruct (decide _); [done|]. by apply (valid_frame st).
Qed.

Lemma finish_valid me st : valid st → valid (finish me st).
Proof. by apply valid_frame. Qed.

Lemma unlock_valid me st : valid st → valid (unlock me st).
Proof. by apply valid_frame. Qed.

Lemma removeShift_valid i st st' : valid st → removeShift i st = Some st' → valid st'.
Proof.
  intros [V1 V2 V3 V4 V5 V6] E.
  destruct (removeShift_spec i st V2) as (st2&E2&Hsh&Hr&Hc&_&_&L).
  rewrite E in E2. injection E2 as <-.
  assert (∀ r, picksOf st' r `sublist_of` picksOf st r) as Hsub.
  { intros r. unfold picksOf. rewrite L. destruct (decide _); [|done].
    destruct (picks st !! r); simpl; [apply sublist_filter|done]. }
  split.
  - by rewrite Hr.
  - intros r. rewrite Hr. intros Hin. rewrite L, decide_True by done.
    apply fmap_is_Some. by apply V2.
  - intros r l'. rewrite L, Hc. destruct (decide _); [|apply V3].
    destruct (picks st !! r) as [l|] eqn:El; [|done]. simpl. intros [= <-].
    pose proof (length_filter (λ y, y ≠ i) l). specialize (V3 r l El).
    unfold without. lia.
  - rewrite Hsh. by apply NoDup_fmap_filter.
  - intros s. rewrite Hsh. intros [_ Hs]%list_elem_of_filter. by apply V5.
  - intros r x. rewrite Hr. intros Hin Hx.
    assert (x ∈ picksOf st r ∧ x ≠ i) as [Hx' Hne].
    { revert Hx. unfold picksOf. rewrite L, decide_True by done.
      destruct (picks st !! r); simpl; [|by intros ?%elem_of_nil].
      by rewrite elem_of_without. }
    destruct (V6 r x Hin Hx') as (s&Hs&Hi). exists s. split; [|done].
    rewrite Hsh. apply list_elem_of_filter. split; [congruence|done].
Qed.

Lemma onCheckboxChange_valid name i checked st fb st' :
  valid st → registered st i = true →
  onCheckboxChange name i checked st = Some (fb, st') → valid st'.
Proof.
  intros V Hreg E. pose proof (onCheckboxChange_quota _ _ _ _ _ _ E (valid_quota st V))
    as [Hq Hc].
  apply existsb_id in Hreg as (s0&Hs0&Hi0).
  destruct V as [V1 V2 V3 V4 V5 V6].
  unfold onCheckboxChange in E. destruct (picks st !! name) as [arr|] eqn:Ea; [|done].
  cbn [mbind option_bind] in E.
  assert (∀ l, (∀ x, x ∈ l → x ∈ arr ∨ x = i) →
               withinQuota (setPicks st (<[name := l]> (picks st))) →
               valid (setPicks st (<[name := l]> (picks st)))) as Hins.
  { intros l Hl Hq'. split; try done.
    - intros r Hr. cbn [picks setPicks]. destruct (decide (name = r)) as [->|Hne].
      + rewrite lookup_insert_eq. eauto.
      + rewrite lookup_insert_ne by done. by apply V2.
    - intros r x Hr. unfold picksOf. cbn [picks setPicks shifts].
      destruct (decide (name = r)) as [->|Hne].
      + rewrite lookup_insert_eq. simpl. intros Hx.
        destruct (Hl x Hx) as [Hx'| ->]; [|eauto].
        apply (V6 r x Hr). unfold picksOf. by rewrite Ea.
      + rewrite lookup_insert_ne by done. apply (V6 r x Hr). }
  destruct checked.
  - destruct (_ >=? _); [by injection E as <- <-|]. injection E as <- <-.
    destruct (includes arr i); [done|]. apply Hins.
    + intros x [Hx|Hx]%elem_of_app; [by left|]. right. by apply list_elem_of_singleton in Hx.
    + done.
  - injection E as <- <-. apply Hins; [|done].
    intros x Hx. left. by apply elem_of_without in Hx as [? _].
Qed.

Lemma applyOp_valid op st :
  valid st →
  registered st (match op with OpClaim _ i | OpUnclaim _ i => i end) = true →
  valid (applyOp op st).
Proof.
  intros V Hreg. destruct op as [name i|name i]; cbn [applyOp]; unfold claim, unclaim;
    destruct (meFinished st name); try done.
  - destruct (onCheckboxChange name i true st) as [[fb st']|] eqn:E; [|done].
    by eapply onCheckboxChange_valid.
  - destruct (onCheckboxChange name i false st) as [[fb st']|] eqn:E; [|done].
    by eapply onCheckboxChange_valid.
Qed.

Lemma shrinks_valid st st' : shrinks st st' → valid st → valid st'.
Proof.
  intros Hs [V1 V2 V3 V4 V5 V6].
  pose proof (withinQuota_shrinks _ _ Hs V3) as Hq.
  destruct Hs as [(_&Hc&Hr&Hsh&_) [Hd Hsub]]. split.
  - by rewrite Hr.
  - intros r. rewrite Hr. intros Hin. apply Hd. by apply V2.
  - done.
  - by rewrite Hsh.
  - intros s. rewrite Hsh. apply V5.
  - intros r x. rewrite Hr, Hsh. intros Hin Hx. apply (V6 r x Hin).
    by apply (sublist_subseteq _ _ (Hsub r)).
Qed.

Lemma step_valid rnd e sn : valid sn.1 → valid (step rnd e sn).1.
Proof.
  intros V. destruct e as [d t| |i|name i|name i|me|me| |]; cbn [step].
  - by apply addGuardia_valid.
  - by apply finishSetup_valid.
  - destruct (registered sn.1 i); [|done].
    destruct (removeShift i sn.1) as [st'|] eqn:E; [|done].
    by eapply removeShift_valid.
  - destruct (registered sn.1 i) eqn:Hr; [|done]. by apply (applyOp_valid (OpClaim name i)).
  - destruct (registered sn.1 i) eqn:Hr; [|done]. by apply (applyOp_valid (OpUnclaim name i)).
  - by apply finish_valid.
  - by apply unlock_valid.
  - destruct (resolveLoop_spec rnd (whoIsAssigned sn.1) (shifts sn.1) sn.1 sn.2
                (covers_whoIsAssigned sn.1)) as (st'&n'&E&_&Hs&_).
    unfold resolveConflictsFair. rewrite E. by eapply shrinks_valid.
  - destruct V as [V1 V2 V3 V4 V5 V6].
    destruct (randomAssignRemaining_spec rnd sn.1 sn.2 V2 (proj2 V1) V3)
      as (st'&n'&E&Hh&Hq&(_&Hc&Hr&Hsh&_)&_&Hg).
    rewrite E. cbn [fst]. split; try done.
    + by rewrite Hr.
    + by rewrite Hsh.
    + intros s. rewrite Hsh. apply V5.
    + intros r x. rewrite Hr, Hsh. intros Hin Hx.
      destruct (Hg r x Hx) as [Hx'|(s&Hs&Hi)]; [by apply (V6 r x)|].
      exists s. split; [|done]. by apply list_elem_of_filter in Hs as [_ Hs].
Qed.

(** Every state the page can reach from the initial one is well formed. *)
Lemma run_valid rnd es sn : valid sn.1 → valid (run rnd es sn).1.
Proof.
  revert sn. induction es as [|e es IH]; intros sn V; [done|].
  unfold run. cbn [fold_left]. apply IH. by apply step_valid.
Qed.

End PlannerRuns.

(** ** [script.js] *)
Module LegacyFacts.
Import JS Legacy ListFacts.

Lemma findShift_Some st i s :
  findShift st i = Some s → s ∈ shifts st ∧ shiftId s = i.
Proof.
  unfold findShift. intros H. apply find_some in H as [H1 H2].
  split; [by apply list_elem_of_In|]. by apply bool_decide_eq_true in H2.
Qed.

Lemma findShift_None st i :
  findShift st i = None → ∀ s, s ∈ shifts st → shiftId s ≠ i.
Proof.
  unfold findShift. intros H s Hs Hi.
  pose proof (find_none _ _ H s (proj1 (list_elem_of_In _ _) Hs)) as Hf.
  by apply bool_decide_eq_false in Hf.
Qed.

Lemma clearPicks_lookup_from (us : list string) (p : gmap string (list string)) u :
  fold_left (λ p u, <[u := []]> p) us p !! u =
  if decide (u ∈ us) then Some [] else p !! u.
Proof.
  revert p. induction us as [|a us IH]; intros p; cbn [fold_left].
  - rewrite decide_False; [done|]. apply not_elem_of_nil.
  - rewrite IH. destruct (decide (u ∈ us)) as [H|H].
    + rewrite decide_True; [done|]. set_solver.
    + destruct (decide (a = u)) as [->|Hne].
      * rewrite lookup_insert_eq. rewrite decide_True; [done|]. set_solver.
      * rewrite lookup_insert_ne by done. rewrite decide_False; [done|]. set_solver.
Qed.

Lemma clearPicks_lookup (p : gmap string (list string)) u :
  clearPicks p !! u = if decide (u ∈ users) then Some [] else p !! u.
Proof. apply clearPicks_lookup_from. Qed.

Lemma initial_consistent : consistent initialState.
Proof.
  split; cbn [initialState shifts userPicks].
  - constructor.
  - intros u. rewrite clearPicks_lookup. destruct (decide _); [by split; eauto|].
    rewrite lookup_empty. split; [by intros [? ?]|done].
  - intros s u Hs. by apply elem_of_nil in Hs.
  - intros u l. rewrite clearPicks_lookup. destruct (decide _).
    + intros [= <-]. constructor.
    + by rewrite lookup_empty.
  - intros u x. unfold picksOf. cbn [initialState userPicks].
    rewrite clearPicks_lookup. destruct (decide _); simpl.
    + intros H. by apply elem_of_nil in H.
    + rewrite lookup_empty. simpl. intros H. by apply elem_of_nil in H.
Qed.

(** *** [setAssignedFirst] and [removeFirst] *)

Lemma setAssignedFirst_ids i f l :
  shiftId <$> setAssignedFirst i f l = shiftId <$> l.
Proof.
  induction l as [|s l IH]; [done|]. cbn [setAssignedFirst].
  destruct (decide _); [done|]. by rewrite !fmap_cons, IH.
Qed.

Lemma setAssignedFirst_spec i f l s0 :
  NoDup (shiftId <$> l) → s0 ∈ l → shiftId s0 = i →
  ∀ s', s' ∈ setAssignedFirst i f l ↔
        (s' ∈ l ∧ shiftId s' ≠ i) ∨
        s' = mkShift (shiftId s0) (date s0) (type s0) (f (assigned s0)).
Proof.
  induction l as [|s l IH]; intros Hnd Hs0 Hi s'; [by apply elem_of_nil in Hs0|].
  rewrite fmap_cons in Hnd. apply NoDup_cons in Hnd as [Hs Hnd].
  cbn [setAssignedFirst]. destruct (decide (shiftId s = i)) as [Hsi|Hsi].
  - assert (∀ x, x ∈ l → shiftId x ≠ i) as Hl.
    { intros x Hx Hxi. apply Hs. rewrite Hsi, <- Hxi. apply list_elem_of_fmap. eauto. }
    assert (s0 = s) as ->.
    { apply elem_of_cons in Hs0 as [|Hs0]; [done|]. by apply Hl in Hs0. }
    rewrite !elem_of_cons. split.
    + intros [->|H]; [by right|]. left. split; [by right|by apply Hl].
    + intros [[[->|H] Hne]| ->]; [done|by right|by left].
  - apply elem_of_cons in Hs0 as [->|Hs0]; [done|].
    rewrite !elem_of_cons, (IH Hnd Hs0 Hi). split.
    + intros [->|[[H1 H2]| ->]]; [left; split; [by left|done]|left; split; [by right|done]|by right].
    + intros [[[->|H1] H2]| ->]; [by left|right; by left|right; by right].
Qed.

Lemma elem_of_removeFirst i l x :
  NoDup l → x ∈ removeFirst i l ↔ x ∈ l ∧ x ≠ i.
Proof.
  induction l as [|y l IH]; intros Hnd; cbn [removeFirst].
  - split; [by intros H%elem_of_nil|by intros [H%elem_of_nil _]].
  - apply NoDup_cons in Hnd as [Hy Hnd]. destruct (decide (y = i)) as [->|Hne].
    + rewrite elem_of_cons. split.
      * intros H. split; [by right|]. by intros ->.
      * intros [[->|H] Hx]; done.
    + rewrite !elem_of_cons, (IH Hnd). split.
      * intros [->|[H1 H2]]; [split; [by left|done]|split; [by right|done]].
      * intros [[->|H1] H2]; [by left|by right].
Qed.

Lemma NoDup_removeFirst i l : NoDup l → NoDup (removeFirst i l).
Proof.
  induction l as [|y l IH]; intros Hnd; cbn [removeFirst]; [done|].
  apply NoDup_cons in Hnd as [Hy Hnd]. destruct (decide (y = i)); [done|].
  apply NoDup_cons. split; [|by apply IH]. rewrite elem_of_removeFirst by done. tauto.
Qed.

Lemma length_removeFirst i l : (length (removeFirst i l) ≤ length l)%nat.
Proof.
  induction l as [|y l IH]; cbn [removeFirst]; [done|].
  destruct (decide _); simpl; lia.
Qed.

(** *** [handleSelect] *)

Lemma handleSelect_cases i st fb st' :
  handleSelect i st = Some (fb, st') → selected i st fb st'.
Proof.
  unfold handleSelect. destruct (currentUser st) as [cu|] eqn:Ecu.
  2:{ intros [= <- <-]. constructor. by left. }
  destruct (decide (cu = ""%string)). { intros [= <- <-]. constructor. by left. }
  destruct (default false _). { intros [= <- <-]. constructor. by left. }
  destruct (findShift st i) as [shift|] eqn:Ef.
  2:{ intros [= <- <-]. constructor. by left. }
  unfold includes. destruct (bool_decide (cu ∈ assigned shift)) eqn:Ein.
  - apply bool_decide_eq_true in Ein.
    destruct (userPicks st !! cu) as [l|] eqn:El; [|done]. cbn [mbind option_bind].
    intros [= <- <-]. by eapply selected_drop.
  - apply bool_decide_eq_false in Ein.
    destruct (userPicks st !! cu) as [l|] eqn:El; [|done]. cbn [mbind option_bind].
    destruct (_ >=? _) eqn:Eq.
    + intros [= <- <-]. constructor. by right.
    + intros [= <- <-]. eapply selected_take; try done. rewrite Z.geb_leb in Eq. by apply Z.leb_gt in Eq.
Qed.

Lemma picksOf_insert st sh cu l f c u :
  picksOf (mkState sh (<[cu := l]> (userPicks st)) f c) u =
  if decide (cu = u) then l else picksOf st u.
Proof.
  unfold picksOf. cbn [userPicks]. destruct (decide (cu = u)) as [->|Hne].
  - by rewrite lookup_insert_eq.
  - by rewrite lookup_insert_ne.
Qed.

Lemma is_Some_insert_same (p : gmap string (list string)) cu l l' u :
  p !! cu = Some l → is_Some (<[cu := l']> p !! u) ↔ is_Some (p !! u).
Proof.
  intros Hl. destruct (decide (cu = u)) as [->|Hne].
  - rewrite lookup_insert_eq, Hl. split; eauto.
  - by rewrite lookup_insert_ne.
Qed.

Lemma selected_consistent i st fb st' :
  consistent st → selected i st fb st' → consistent st'.
Proof.
  intros [Hids Hdom Hsync Hnd Hreg] Hsel.
  destruct Hsel as [?|cu shift l Hcu Hf Hin Hl|cu shift l Hcu Hf Hin Hl Hlen]; [done| |].
  - apply findShift_Some in Hf as [Hf1 Hf2].
    assert (picksOf st cu = l) as Hpl by (unfold picksOf; by rewrite Hl).
    split; cbn [shifts userPicks].
    + by rewrite setAssignedFirst_ids.
    + intros u. rewrite <- Hdom. by eapply is_Some_insert_same.
    + intros s' u Hs'. rewrite picksOf_insert.
      apply (setAssignedFirst_spec i _ _ shift Hids Hf1 Hf2) in Hs' as [[Hs' Hne]| ->].
      * rewrite (Hsync s' u Hs'). destruct (decide (cu = u)) as [<-|]; [|done].
        rewrite Hpl, elem_of_removeFirst by by eapply Hnd. tauto.
      * cbn [assigned shiftId]. rewrite PlannerFacts.elem_of_without, (Hsync shift u Hf1), Hf2.
        destruct (decide (cu = u)) as [<-|Hne].
        -- rewrite elem_of_removeFirst by by eapply Hnd. tauto.
        -- split; [tauto|]. intros H. split; [done|congruence].
    + intros u l'. destruct (decide (cu = u)) as [<-|Hne].
      * rewrite lookup_insert_eq. intros [= <-]. apply NoDup_removeFirst. by eapply Hnd.
      * rewrite lookup_insert_ne by done. apply Hnd.
    + intros u x. rewrite picksOf_insert. intros Hx.
      assert (x ∈ picksOf st u) as Hx'.
      { destruct (decide (cu = u)) as [<-|]; [|done].
        rewrite Hpl. apply elem_of_removeFirst in Hx; [tauto|by eapply Hnd]. }
      destruct (Hreg u x Hx') as (s&Hs&Hsx).
      assert (x ∈ shiftId <$> setAssignedFirst i (without cu) (shifts st)) as Hm.
      { rewrite setAssignedFirst_ids. apply list_elem_of_fmap. eauto. }
      apply list_elem_of_fmap in Hm as (s'&->&Hs'). eauto.
  - apply findShift_Some in Hf as [Hf1 Hf2].
    assert (picksOf st cu = l) as Hpl by (unfold picksOf; by rewrite Hl).
    assert (i ∉ l) as Hil.
    { rewrite <- Hpl, <- Hf2, <- (Hsync shift cu Hf1). done. }
    split; cbn [shifts userPicks].
    + by rewrite setAssignedFirst_ids.
    + intros u. rewrite <- Hdom. by eapply is_Some_insert_same.
    + intros s' u Hs'. rewrite picksOf_insert.
      apply (setAssignedFirst_spec i _ _ shift Hids Hf1 Hf2) in Hs' as [[Hs' Hne]| ->].
      * rewrite (Hsync s' u Hs'). destruct (decide (cu = u)) as [<-|]; [|done].
        rewrite Hpl, elem_of_app, list_elem_of_singleton. tauto.
      * cbn [assigned shiftId]. rewrite elem_of_app, list_elem_of_singleton.
        rewrite (Hsync shift u Hf1), Hf2.
        destruct (decide (cu = u)) as [<-|Hne].
        -- rewrite elem_of_app, list_elem_of_singleton. tauto.
        -- split; [|tauto]. intros [H|H]; [done|congruence].
    + intros u l'. destruct (decide (cu = u)) as [<-|Hne].
      * rewrite lookup_insert_eq. intros [= <-]. apply NoDup_app.
        split; [by eapply Hnd|]. split; [|apply NoDup_singleton].
        intros x Hx Hx'. apply list_elem_of_singleton in Hx' as ->. done.
      * rewrite lookup_insert_ne by done. apply Hnd.
    + intros u x. rewrite picksOf_insert. intros Hx.
      assert (x ∈ shiftId <$> shifts st) as Hm.
      { destruct (decide (cu = u)) as [<-|].
        - apply elem_of_app in Hx as [Hx|Hx].
          + rewrite <- Hpl in Hx. destruct (Hreg _ _ Hx) as (s&Hs&<-).
            apply list_elem_of_fmap. eauto.
          + apply list_elem_of_singleton in Hx as ->. apply list_elem_of_fmap. eauto.
        - destruct (Hreg _ _ Hx) as (s&Hs&<-). apply list_elem_of_fmap. eauto. }
      rewrite <- (setAssignedFirst_ids i (λ a, a ++ [cu])) in Hm.
      apply list_elem_of_fmap in Hm as (s'&->&Hs'). eauto.
Qed.

Lemma selected_quota i st fb st' :
  withinQuota st → selected i st fb st' → withinQuota st'.
Proof.
  intros Hq Hsel.
  destruct Hsel as [?|cu shift l Hcu Hf Hin Hl|cu shift l Hcu Hf Hin Hl Hlen]; [done| |];
    intros u l'; cbn [userPicks]; (destruct (decide (cu = u)) as [<-|Hne];
      [rewrite lookup_insert_eq; intros [= <-]|rewrite lookup_insert_ne by done; apply Hq]).
  - pose proof (length_removeFirst i l). specialize (Hq _ _ Hl). lia.
  - rewrite length_app. simpl. lia.
Qed.

(** *** [resolveConflicts] *)

Section Resolve.
Variable rnd : nat → Z.
Variable localDay : string → option Z.

Lemma computeMonFriCount_Some st u :
  is_Some (userPicks st !! u) → is_Some (computeMonFriCount localDay st u).
Proof. intros [l Hl]. unfold computeMonFriCount. rewrite Hl. simpl. eauto. Qed.

Lemma chooseStep_spec st chosen n res :
  is_Some (userPicks st !! res) →
  (∀ c, chosen = Some c → c ≠ ""%string → is_Some (userPicks st !! c)) →
  ∃ r n', chooseStep rnd localDay st (chosen, n) res = Some (Some r, n') ∧
    (n ≤ n')%nat ∧ (r = res ∨ (chosen = Some r ∧ r ≠ ""%string)) ∧
    (chosen = None → r = res).
Proof.
  intros Hres Hc. unfold chooseStep. destruct chosen as [c|].
  2:{ exists res, n. split; [done|]. split; [done|]. split; [by left|done]. }
  destruct (decide (c = ""%string)) as [He|He].
  { exists res, n. split; [done|]. split; [done|]. split; [by left|done]. }
  specialize (Hc c eq_refl He).
  destruct (computeMonFriCount_Some st res Hres) as [a ->].
  destruct (computeMonFriCount_Some st c Hc) as [b ->].
  destruct Hres as [la ->]. destruct Hc as [lb ->]. cbn [mbind option_bind].
  destruct (a <? b).
  { exists res, n. split; [done|]. split; [done|]. split; [by left|done]. }
  destruct (a =? b).
  2:{ exists c, n. split; [done|]. split; [done|]. split; [by right|done]. }
  destruct (length la <? length lb)%nat.
  { exists res, n. split; [done|]. split; [done|]. split; [by left|done]. }
  destruct (length la =? length lb)%nat.
  2:{ exists c, n. split; [done|]. split; [done|]. split; [by right|done]. }
  destruct (rnd n <? 0).
  - exists res, (S n). split; [done|]. split; [lia|]. split; [by left|done].
  - exists c, (S n). split; [done|]. split; [lia|]. split; [by right|done].
Qed.

Lemma chooseLoop_spec st l chosen n :
  (∀ u, u ∈ l → is_Some (userPicks st !! u)) →
  (∀ c, chosen = Some c → c ≠ ""%string → is_Some (userPicks st !! c)) →
  ∃ r n', chooseLoop rnd localDay st (chosen, n) l = Some (r, n') ∧ (n ≤ n')%nat ∧
    ((r = chosen) ∨ ∃ c, c ∈ l ∧ r = Some c) ∧
    (l ≠ [] → ∃ c, r = Some c).
Proof.
  revert chosen n. induction l as [|res l IH]; intros chosen n Hl Hc; cbn [chooseLoop].
  - exists chosen, n. split; [done|]. split; [done|]. split; [by left|done].
  - destruct (chooseStep_spec st chosen n res) as (r1&n1&E1&Hn1&Hr1&_);
      [apply Hl; set_solver|done|].
    rewrite E1. cbn [mbind option_bind].
    destruct (IH (Some r1) n1) as (r&n'&E&Hn&Hr&_).
    { intros; apply Hl; set_solver. }
    { intros c [= <-] Hne. destruct Hr1 as [->|[-> _]]; [apply Hl; set_solver|by apply Hc]. }
    exists r, n'. split; [done|]. split; [lia|]. split.
    + destruct Hr as [->|(c&Hc'&->)]; [|right; exists c; set_solver].
      destruct Hr1 as [->|[-> _]]; [right; exists res; set_solver|by left].
    + intros _. destruct Hr as [->|(c&_&->)]; eauto.
Qed.

Lemma keepChosen_spec st l n :
  (∀ s u, s ∈ l → u ∈ assigned s → is_Some (userPicks st !! u)) →
  ∃ l' n', keepChosen rnd localDay st l n = Some (l', n') ∧ (n ≤ n')%nat ∧
    Forall2 kept l l'.
Proof.
  revert n. induction l as [|s l IH]; intros n Hdef; cbn [keepChosen].
  - exists [], n. split; [done|]. split; [done|]. constructor.
  - destruct (decide (length (assigned s) ≤ 1)%nat) as [Hle|Hgt].
    + destruct (IH n) as (l'&n'&E&Hn&HF); [intros; eapply Hdef; [|done]; set_solver|].
      rewrite E. cbn [mbind option_bind]. exists (s :: l'), n'.
      split; [done|]. split; [done|]. constructor; [|done].
      split; [done|]. split; [done|]. split; [done|]. by left.
    + destruct (chooseLoop_spec st (assigned s) None n) as (r&n1&E1&Hn1&Hr&Hex).
      { intros u Hu. eapply (Hdef s); [set_solver|done]. }
      { done. }
      rewrite E1. cbn [mbind option_bind].
      destruct (IH n1) as (l'&n'&E&Hn&HF); [intros; eapply Hdef; [|done]; set_solver|].
      rewrite E. cbn [mbind option_bind].
      destruct Hex as [c ->]. { intros Hnil. rewrite Hnil in Hgt. simpl in Hgt. lia. }
      eexists _, n'. split; [done|]. split; [lia|]. constructor; [|done].
      split; [done|]. split; [done|]. split; [done|]. right. split; [lia|].
      exists c. split; [|done]. destruct Hr as [?|(c'&Hc'&[= ->])]; done.
Qed.

Lemma keepChosen_no_conflict st l n :
  (∀ s, s ∈ l → (length (assigned s) ≤ 1)%nat) →
  keepChosen rnd localDay st l n = Some (l, n).
Proof.
  induction l as [|s l IH]; intros H; cbn [keepChosen]; [done|].
  rewrite decide_True by (apply H; set_solver).
  rewrite IH by (intros; apply H; set_solver). done.
Qed.
End Resolve.

Lemma kept_ids l l' : Forall2 kept l l' → shiftId <$> l' = shiftId <$> l.
Proof.
  induction 1 as [|s s' l l' Hk _ IH]; [done|]. rewrite !fmap_cons, IH.
  by destruct Hk as [-> _].
Qed.

Lemma kept_at_most_one l l' s' :
  Forall2 kept l l' → s' ∈ l' → (length (assigned s') ≤ 1)%nat.
Proof.
  induction 1 as [|s s2 l l' Hk _ IH]; [by intros H%elem_of_nil|].
  intros [->|H]%elem_of_cons; [|by apply IH].
  destruct Hk as (_&_&_&[[Hle ->]|[_ (c&_&->)]]); [done|simpl; lia].
Qed.

Lemma kept_subset l l' s' u :
  Forall2 kept l l' → s' ∈ l' → u ∈ assigned s' →
  ∃ s, s ∈ l ∧ shiftId s = shiftId s' ∧ u ∈ assigned s.
Proof.
  induction 1 as [|s s2 l l' Hk _ IH]; [by intros H%elem_of_nil|].
  intros [->|H]%elem_of_cons Hu.
  - exists s. split; [set_solver|]. destruct Hk as (Hi&_&_&[[_ ->]|[_ (c&Hc&Ha)]]); [done|].
    split; [done|]. rewrite Ha in Hu. by apply list_elem_of_singleton in Hu as ->.
  - destruct (IH H Hu) as (s0&?&?&?). exists s0. set_solver.
Qed.

Lemma kept_same l l' :
  Forall2 kept l l' → (∀ s, s ∈ l → (length (assigned s) ≤ 1)%nat) → l' = l.
Proof.
  induction 1 as [|s s' l l' Hk _ IH]; intros Hle; [done|].
  rewrite IH by (intros; apply Hle; set_solver). f_equal.
  destruct Hk as (_&_&_&[[_ ->]|[Hgt _]]); [done|].
  specialize (Hle s ltac:(set_solver)). lia.
Qed.

(** The second half: the claim lists are rebuilt in registry order. *)
Lemma rebuildPicks_spec l (p : gmap string (list string)) :
  (∀ s, s ∈ l → (length (assigned s) ≤ 1)%nat) →
  (∀ s u, s ∈ l → u ∈ assigned s → is_Some (p !! u)) →
  ∃ p', rebuildPicks l p = Some p' ∧
    ∀ u, p' !! u =
         (λ old, old ++ (shiftId <$> filter (λ s, u ∈ assigned s) l)) <$> p !! u.
Proof.
  revert p. induction l as [|s l IH]; intros p Hle Hdef; cbn [rebuildPicks].
  - exists p. split; [done|]. intros u. rewrite filter_nil. simpl.
    destruct (p !! u); simpl; [by rewrite app_nil_r|done].
  - pose proof (Hle s ltac:(set_solver)) as Hs.
    destruct (assigned s) as [|c [|c' t]] eqn:Ea; simpl in Hs; [| |lia].
    + cbn [pushAll mbind option_bind].
      destruct (IH p) as (p'&E&L); [intros; apply Hle; set_solver|
                                    intros; eapply Hdef; [|done]; set_solver|].
      exists p'. split; [done|]. intros u. rewrite L, filter_cons, Ea.
      rewrite decide_False; [done|]. apply not_elem_of_nil.
    + destruct (Hdef s c) as [lc Hlc]; [set_solver|rewrite Ea; set_solver|].
      cbn [pushAll]. rewrite Hlc. cbn [mbind option_bind].
      destruct (IH (<[c := lc ++ [shiftId s]]> p)) as (p'&E&L).
      { intros; apply Hle; set_solver. }
      { intros s0 u H0 Hu. destruct (decide (c = u)) as [->|Hne].
        - rewrite lookup_insert_eq. eauto.
        - rewrite lookup_insert_ne by done. eapply Hdef; [|done]. set_solver. }
      exists p'. split; [done|]. intros u. rewrite L, filter_cons, Ea.
      destruct (decide (c = u)) as [->|Hne].
      * rewrite lookup_insert_eq, Hlc. simpl.
        rewrite decide_True by set_solver. by rewrite fmap_cons, <- app_assoc.
      * rewrite lookup_insert_ne by done. rewrite decide_False; [done|].
        intros Hu. apply list_elem_of_singleton in Hu. congruence.
Qed.

Section ResolvePass.
Variable rnd : nat → Z.
Variable localDay : string → option Z.

Lemma consistent_assigned_defined st s u :
  consistent st → s ∈ shifts st → u ∈ assigned s → is_Some (userPicks st !! u).
Proof.
  intros Hc Hs Hu. apply (cons_sync st Hc s u Hs) in Hu. unfold picksOf in Hu.
  destruct (userPicks st !! u); [eauto|]. by apply elem_of_nil in Hu.
Qed.

(** The pass never throws on a consistent state, leaves at most one
    resident on every shift, and rebuilds every claim list from the shifts
    in registry order. *)
Lemma resolveConflicts_spec st n :
  consistent st →
  ∃ st' n', resolveConflicts rnd localDay st n = Some (st', n') ∧ (n ≤ n')%nat ∧
    Forall2 kept (shifts st) (shifts st') ∧
    (∀ s, s ∈ shifts st' → (length (assigned s) ≤ 1)%nat) ∧
    (∀ u, u ∈ users →
       userPicks st' !! u =
       Some (shiftId <$> filter (λ s, u ∈ assigned s) (shifts st'))) ∧
    (∀ u, u ∉ users → userPicks st' !! u = None) ∧
    finishedUsers st' = finishedUsers st ∧ currentUser st' = currentUser st ∧
    consistent st'.
Proof.
  intros Hc. unfold resolveConflicts.
  destruct (keepChosen_spec rnd localDay st (shifts st) n) as (l'&n'&E&Hn&HF).
  { intros s u. by apply consistent_assigned_defined. }
  rewrite E. cbn [mbind option_bind].
  assert (∀ s, s ∈ l' → (length (assigned s) ≤ 1)%nat) as Hle.
  { intros s'. by apply (kept_at_most_one (shifts st)). }
  assert (∀ s u, s ∈ l' → u ∈ assigned s → u ∈ users) as Husers.
  { intros s' u Hs' Hu. destruct (kept_subset _ _ _ _ HF Hs' Hu) as (s&Hs&_&Hus).
    apply (cons_dom st Hc). by eapply consistent_assigned_defined. }
  destruct (rebuildPicks_spec l' (clearPicks (userPicks st)) Hle) as (p'&Ep&Lp).
  { intros s u Hs Hu. rewrite clearPicks_lookup, decide_True; [eauto|]. by eapply Husers. }
  rewrite Ep. cbn [mbind option_bind].
  assert (∀ u, u ∈ users →
            p' !! u = Some (shiftId <$> filter (λ s, u ∈ assigned s) l')) as Hin.
  { intros u Hu. by rewrite Lp, clearPicks_lookup, decide_True. }
  assert (∀ u, u ∉ users → p' !! u = None) as Hout.
  { intros u Hu. rewrite Lp, clearPicks_lookup, decide_False by done.
    destruct (userPicks st !! u) eqn:Eu; [|done].
    exfalso. apply Hu, (cons_dom st Hc). eauto. }
  eexists _, n'. split; [done|]. split; [done|]. cbn [shifts userPicks finishedUsers currentUser].
  split; [done|]. split; [done|]. split; [done|]. split; [done|]. split; [done|].
  split; [done|].
  assert (NoDup (shiftId <$> l')) as Hids'.
  { rewrite (kept_ids _ _ HF). apply Hc. }
  split; cbn [shifts userPicks].
  - done.
  - intros u. destruct (decide (u ∈ users)) as [Hu|Hu].
    + rewrite (Hin u Hu). split; eauto.
    + rewrite (Hout u Hu). split; [by intros [? ?]|done].
  - intros s' u Hs'. unfold picksOf. cbn [userPicks].
    destruct (decide (u ∈ users)) as [Hu|Hu].
    + rewrite (Hin u Hu). simpl. split.
      * intros Ha. apply list_elem_of_fmap. exists s'. split; [done|].
        by apply list_elem_of_filter.
      * intros (s''&Hid&[Ha Hs'']%list_elem_of_filter)%list_elem_of_fmap.
        by rewrite (NoDup_fmap_inj shiftId l' s' s'' Hids' Hs' Hs'' Hid).
    + rewrite (Hout u Hu). simpl. split; [|by intros H%elem_of_nil].
      intros Ha. exfalso. apply Hu. by eapply Husers.
  - intros u l. destruct (decide (u ∈ users)) as [Hu|Hu].
    + rewrite (Hin u Hu). intros [= <-]. by apply NoDup_fmap_filter.
    + by rewrite (Hout u Hu).
  - intros u x. unfold picksOf. cbn [userPicks].
    destruct (decide (u ∈ users)) as [Hu|Hu].
    + rewrite (Hin u Hu). simpl.
      intros (s'&->&[_ Hs']%list_elem_of_filter)%list_elem_of_fmap. eauto.
    + rewrite (Hout u Hu). simpl. by intros H%elem_of_nil.
Qed.

(** On a state without conflicts the shifts are untouched and every user
    keeps the same claims, listed in registry order. *)
Lemma resolveConflicts_resolved st n :
  consistent st →
  (∀ s, s ∈ shifts st → (length (assigned s) ≤ 1)%nat) →
  ∃ st', resolveConflicts rnd localDay st n = Some (st', n) ∧
    shifts st' = shifts st ∧
    finishedUsers st' = finishedUsers st ∧ currentUser st' = currentUser st ∧
    (∀ u, u ∈ users →
       userPicks st' !! u =
       Some (shiftId <$> filter (λ s, u ∈ assigned s) (shifts st))) ∧
    (∀ u, picksOf st' u ≡ₚ picksOf st u).
Proof.
  intros Hc Hle.
  destruct (resolveConflicts_spec st n Hc) as (st'&n'&E&_&HF&_&Hin&Hout&Hf&Hcu&Hc').
  pose proof (kept_same _ _ HF Hle) as Hsh.
  assert (n' = n) as ->.
  { unfold resolveConflicts in E. rewrite keepChosen_no_conflict in E by done.
    cbn [mbind option_bind] in E. destruct (rebuildPicks _ _); [|done]. by injection E. }
  exists st'. split; [done|]. split; [done|]. split; [done|]. split; [done|].
  split; [intros u Hu; by rewrite (Hin u Hu), Hsh|].
  intros u. apply NoDup_Permutation.
  - unfold picksOf. destruct (userPicks st' !! u) eqn:Eu; [|constructor].
    by eapply (cons_nodup st' Hc').
  - unfold picksOf. destruct (userPicks st !! u) eqn:Eu; [|constructor].
    by eapply (cons_nodup st Hc).
  - intros x. split.
    + intros Hx. destruct (cons_reg st' Hc' u x Hx) as (s&Hs&<-).
      apply (cons_sync st' Hc' s u Hs) in Hx. rewrite Hsh in Hs.
      by apply (cons_sync st Hc s u Hs).
    + intros Hx. destruct (cons_reg st Hc u x Hx) as (s&Hs&<-).
      apply (cons_sync st Hc s u Hs) in Hx. rewrite <- Hsh in Hs.
      by apply (cons_sync st' Hc' s u Hs).
Qed.
End ResolvePass.

(** *** [addNewShift] *)

Lemma existsb_shiftId l i :
  existsb (λ s, bool_decide (shiftId s = i)) l = true ↔ ∃ s, s ∈ l ∧ shiftId s = i.
Proof.
  rewrite existsb_exists. split; intros (s&H1&H2); exists s.
  - split; [by apply list_elem_of_In|]. by apply bool_decide_eq_true in H2.
  - split; [by apply list_elem_of_In|]. by apply bool_decide_eq_true.
Qed.

Lemma addNewShift_duplicate d t st s :
  idsDerived st → s ∈ shifts st → date s = d → type s = t → d ≠ ""%string →
  addNewShift d t st = (Alert "This guardia already exists.", st).
Proof.
  intros Hids Hs Hd Ht Hd0. unfold addNewShift. rewrite decide_False by done.
  replace (existsb _ _) with true; [done|]. symmetry. apply existsb_shiftId.
  exists s. split; [done|]. rewrite (Hids s Hs). by subst.
Qed.

Lemma addNewShift_twice d t st :
  d ≠ ""%string →
  addNewShift d t (addNewShift d t st).2 =
    (Alert "This guardia already exists.", (addNewShift d t st).2).
Proof.
  intros Hd0. unfold addNewShift at 2 3. rewrite decide_False by done.
  destruct (existsb _ (shifts st)) eqn:E; cbn [snd]; unfold addNewShift;
    rewrite decide_False by done.
  - by rewrite E.
  - replace (existsb _ _) with true; [done|]. symmetry. apply existsb_shiftId.
    eexists. split; [cbn [shifts]; apply elem_of_app; right; by apply list_elem_of_singleton|done].
Qed.

Lemma addNewShift_idsDerived d t st : idsDerived st → idsDerived (addNewShift d t st).2.
Proof.
  intros H. unfold addNewShift. destruct (decide _); [done|].
  destruct (existsb _ _); [done|]. cbn [snd shifts]. intros s.
  intros [Hs|Hs]%elem_of_app; [by apply H|]. by apply list_elem_of_singleton in Hs as ->.
Qed.

Lemma addNewShift_consistent d t st : consistent st → consistent (addNewShift d t st).2.
Proof.
  intros Hc. unfold addNewShift. destruct (decide _); [done|].
  destruct (existsb _ _) eqn:E; [done|]. cbn [snd].
  assert (∀ s, s ∈ shifts st → shiftId s ≠ (d ++ "-" ++ toLowerCase t)%string) as Hfresh.
  { intros s Hs Hi. assert (existsb (λ s, bool_decide (shiftId s = (d ++ "-" ++ toLowerCase t)%string))
                              (shifts st) = true) as Ht; [|congruence].
    apply existsb_shiftId. eauto. }
  destruct Hc as [Hids Hdom Hsync Hnd Hreg]. split; cbn [shifts userPicks]; try done.
  - rewrite fmap_app. apply NoDup_app. split; [done|]. split; [|apply NoDup_singleton].
    intros x (s&->&Hs)%list_elem_of_fmap Hx. cbn in Hx.
    apply list_elem_of_singleton in Hx. by apply (Hfresh s).
  - intros s u [Hs|Hs]%elem_of_app; [by apply Hsync|].
    apply list_elem_of_singleton in Hs as ->. cbn [assigned shiftId]. split.
    + by intros H%elem_of_nil.
    + intros Hx. destruct (Hreg u _ Hx) as (s&Hs&Hi). by apply Hfresh in Hi.
  - intros u x Hx. destruct (Hreg u x Hx) as (s&Hs&Hi). exists s. split; [|done].
    apply elem_of_app. by left.
Qed.

End LegacyFacts.

(** ** Event sequences of [script.js] *)
Module LegacyRuns.
Import JS Legacy LegacyFacts.

Lemma login_consistent u st : consistent st → consistent (login u st).
Proof. intros [? ? ? ? ?]. unfold login. destruct (decide _); by split. Qed.

Lemma finishSelection_consistent st : consistent st → consistent (finishSelection st).
Proof.
  intros [? ? ? ? ?]. unfold finishSelection. destruct (currentUser st); [|by split].
  destruct (decide _); by split.
Qed.

Lemma step_consistent rnd localDay e sn :
  consistent sn.1 → consistent (step rnd localDay e sn).1.
Proof.
  intros Hc. destruct e as [d t|u|i| |]; cbn [step fst snd].
  - by apply addNewShift_consistent.
  - by apply login_consistent.
  - destruct (handleSelect i sn.1) as [[fb st']|] eqn:E; [|done].
    cbn [fst]. eapply selected_consistent; [done|]. by eapply handleSelect_cases.
  - by apply finishSelection_consistent.
  - destruct (resolveConflicts_spec rnd localDay sn.1 sn.2 Hc)
      as (st'&n'&E&_&_&_&_&_&_&_&Hc').
    by rewrite E.
Qed.

Lemma run_consistent rnd localDay es sn :
  consistent sn.1 → consistent (run rnd localDay es sn).1.
Proof.
  revert sn. induction es as [|e es IH]; intros sn Hc; [done|].
  unfold run. cbn [fold_left]. apply IH. by apply step_consistent.
Qed.

Lemma login_quota u st : withinQuota st → withinQuota (login u st).
Proof. intros H. unfold login. by destruct (decide _). Qed.

Lemma selectAs_quota ui st : withinQuota st → withinQuota (selectAs ui st).
Proof.
  intros Hq. unfold selectAs. cbn [step fst snd].
  pose proof (login_quota ui.1 st Hq) as Hq'.
  destruct (handleSelect ui.2 (login ui.1 st)) as [[fb st']|] eqn:E; [|done].
  cbn [fst]. eapply selected_quota; [done|]. by eapply handleSelect_cases.
Qed.

Lemma selects_quota ops st :
  withinQuota st → withinQuota (fold_left (λ st ui, selectAs ui st) ops st).
Proof.
  revert st. induction ops as [|ui ops IH]; intros st Hq; [done|].
  cbn [fold_left]. apply IH. by apply selectAs_quota.
Qed.

(** Taking one more shift at the limit only raises the alert. *)
Lemma handleSelect_at_quota i st cu shift l :
  currentUser st = Some cu → cu ≠ ""%string →
  default false (finishedUsers st !! cu) = false →
  findShift st i = Some shift → cu ∉ assigned shift →
  userPicks st !! cu = Some l → Z.of_nat (length l) = maxShiftsPerUser →
  handleSelect i st = Some (AlertMax maxShiftsPerUser, st).
Proof.
  intros Hcu Hne Hfin Hf Hin Hl Hlen. unfold handleSelect.
  rewrite Hcu, decide_False, Hfin, Hf by done. unfold includes.
  rewrite bool_decide_eq_false_2 by done. rewrite Hl. cbn [mbind option_bind].
  rewrite Hlen. by rewrite (proj2 (Z.geb_le _ _)) by lia.
Qed.

Lemma legacy_withinQuota_map_Forall st :
  map_Forall (λ _ l, Z.of_nat (length l) ≤ maxShiftsPerUser) (userPicks st) →
  withinQuota st.
Proof. intros H r l Hl. by apply (H r l). Qed.

(** Selecting a shift one already holds gives it up. *)
Lemma handleSelect_again i st cu shift l :
  currentUser st = Some cu → cu ≠ ""%string →
  default false (finishedUsers st !! cu) = false →
  findShift st i = Some shift → cu ∈ assigned shift →
  userPicks st !! cu = Some l →
  handleSelect i st =
    Some (Status "Selections saved",
          mkState (setAssignedFirst i (without cu) (shifts st))
            (<[cu := removeFirst i l]> (userPicks st)) (finishedUsers st) (Some cu)).
Proof.
  intros Hcu Hne Hfin Hf Hin Hl. unfold handleSelect.
  rewrite Hcu, decide_False, Hfin, Hf by done. unfold includes.
  rewrite bool_decide_eq_true_2 by done. by rewrite Hl.
Qed.

End LegacyRuns.

(** ** The claims of the specification *)
Module Claims.
Import JS SortFacts Examples.

(** The dates of the examples: 2025-09-01 is a Monday and counts as an
    undesirable day, 2025-09-03 is a Wednesday and does not. *)
Example monday_is_undesirable :
  Planner.weekdayUTC "2025-09-01" = Some 1 ∧ Planner.isMonOrFri "2025-09-01" = true ∧
  Planner.weekdayUTC "2025-09-03" = Some 3 ∧ Planner.isMonOrFri "2025-09-03" = false ∧
  Legacy.monFriDate noLocalDay "2025-09-01" = true ∧
  Legacy.monFriDate noLocalDay "2025-09-03" = false.
Proof. repeat split; by vm_compute. Qed.

(** C1, in the form the code satisfies.
    In [resolveConflictsFair], for a registry without
    repeated ids and residents without repeated names, every shift [s] with
    more than one claimant ends the pass with exactly one claimant [w]; [w]
    is one of the claimants, and its key (total claims, Monday/Friday claims),
    read on the ledger [st1] the pass holds when it reaches [s], is
    lexicographically smallest among the claimants. In the scenario of the
    contested Monday shift, A (key (1,1)) wins over B (key (3,1)) whatever the
    random numbers. *)
Theorem C1_fair_winner_has_smallest_key :
  (∀ (rnd : nat → Z) (st : Planner.State) (n : nat) pre s post,
     NoDup (Planner.residents st) →
     NoDup (Planner.shiftId <$> Planner.shifts st) →
     Planner.shifts st = pre ++ s :: post →
     (1 < length (Planner.whoIsAssigned st (Planner.shiftId s)))%nat →
     ∃ st1 n1 st2 n2 w,
       Planner.resolveLoop rnd (Planner.whoIsAssigned st) pre st n = Some (st1, n1) ∧
       Planner.resolveConflictsFair rnd st n = Some (st2, n2) ∧
       Planner.whoIsAssigned st1 (Planner.shiftId s) =
         Planner.whoIsAssigned st (Planner.shiftId s) ∧
       w ∈ Planner.whoIsAssigned st1 (Planner.shiftId s) ∧
       (∀ r, r ∈ Planner.whoIsAssigned st1 (Planner.shiftId s) →
             Planner.keyLe (Planner.metric st1 w) (Planner.metric st1 r)) ∧
       Planner.whoIsAssigned st2 (Planner.shiftId s) = [w]) ∧
  (∀ (rnd : nat → Z) (n : nat),
     Planner.whoIsAssigned P.scenario P.mon = [A; B] ∧
     Planner.metric P.scenario A = (1, 1) ∧
     Planner.metric P.scenario B = (3, 1) ∧
     (λ r, Planner.whoIsAssigned r.1 P.mon) <$>
       Planner.resolveConflictsFair rnd P.scenario n = Some [A]).
Proof.
  split.
  - intros rnd st n pre s post H1 H2 H3 H4.
    exact (PlannerFacts.resolve_winner_minimal rnd st n pre s post H1 H2 H3 H4).
  - intros rnd n. by vm_compute.
Qed.

Lemma C1_witness :
  ∃ st1 n1 st2 n2 w,
    Planner.resolveLoop rnd0 (Planner.whoIsAssigned P.scenario) [] P.scenario 0 = Some (st1, n1) ∧
    Planner.resolveConflictsFair rnd0 P.scenario 0 = Some (st2, n2) ∧
    Planner.whoIsAssigned st1 P.mon = Planner.whoIsAssigned P.scenario P.mon ∧
    w ∈ Planner.whoIsAssigned st1 P.mon ∧
    (∀ r, r ∈ Planner.whoIsAssigned st1 P.mon →
          Planner.keyLe (Planner.metric st1 w) (Planner.metric st1 r)) ∧
    Planner.whoIsAssigned st2 P.mon = [w].
Proof.
  apply (proj1 C1_fair_winner_has_smallest_key rnd0 P.scenario 0%nat []
           P.shiftMon [P.shiftWed; P.shiftThu]).
  - refine (bool_decide_unpack _ _). by vm_compute.
  - refine (bool_decide_unpack _ _). by vm_compute.
  - by vm_compute.
  - refine (bool_decide_unpack _ _). by vm_compute.
Defined.

(** [script.js] on a Wednesday shift wanted by A, with key (2,1), and by B,
    with key (3,0): (2,1) is the smaller key, and [resolveConflicts] gives the
    shift to B, who has fewer Monday/Friday claims. *)
Lemma C1_counterexample :
  L.assignedOf L.contested L.wed = Some [A; B] ∧
  Legacy.fairnessKey noLocalDay L.contested A = (2, 1) ∧
  Legacy.fairnessKey noLocalDay L.contested B = (3, 0) ∧
  Planner.keyLe (2, 1) (3, 0) ∧ ¬ Planner.keyLe (3, 0) (2, 1) ∧
  (λ r, L.assignedOf r.1 L.wed) <$>
    Legacy.resolveConflicts rnd0 noLocalDay L.contested 0 = Some (Some [B]).
Proof.
  split; [by vm_compute|]. split; [by vm_compute|]. split; [by vm_compute|].
  split; [left; simpl; lia|]. split; [|by vm_compute].
  unfold Planner.keyLe. simpl. lia.
Qed.

(** C2. After [resolveConflictsFair] (residents without repeated names) and
    after [script.js]'s [resolveConflicts] (consistent bookkeeping), the pass
    has returned and every registered shift has at most one claimant. *)
Theorem C2_at_most_one_claimant_after_resolve :
  (∀ (rnd : nat → Z) (st : Planner.State) (n : nat),
     NoDup (Planner.residents st) →
     ∃ st' n', Planner.resolveConflictsFair rnd st n = Some (st', n') ∧
       ∀ s, s ∈ Planner.shifts st' →
            (length (Planner.whoIsAssigned st' (Planner.shiftId s)) ≤ 1)%nat) ∧
  (∀ (rnd : nat → Z) (localDay : string → option Z) (st : Legacy.State) (n : nat),
     Legacy.consistent st →
     ∃ st' n', Legacy.resolveConflicts rnd localDay st n = Some (st', n') ∧
       ∀ s, s ∈ Legacy.shifts st' → (length (Legacy.assigned s) ≤ 1)%nat).
Proof.
  split.
  - intros rnd st n Hnd.
    destruct (PlannerFacts.resolve_at_most_one rnd st n Hnd) as (st'&n'&E&_&H).
    by exists st', n'.
  - intros rnd localDay st n Hc.
    destruct (LegacyFacts.resolveConflicts_spec rnd localDay st n Hc)
      as (st'&n'&E&_&_&H&_).
    by exists st', n'.
Qed.

Lemma C2_witness :
  (∃ st' n', Planner.resolveConflictsFair rnd0 P.scenario 0 = Some (st', n') ∧
     ∀ s, s ∈ Planner.shifts st' →
          (length (Planner.whoIsAssigned st' (Planner.shiftId s)) ≤ 1)%nat) ∧
  (∃ st' n', Legacy.resolveConflicts rnd0 noLocalDay L.contested 0 = Some (st', n') ∧
     ∀ s, s ∈ Legacy.shifts st' → (length (Legacy.assigned s) ≤ 1)%nat).
Proof.
  split.
  - apply (proj1 C2_at_most_one_claimant_after_resolve rnd0 P.scenario 0%nat).
    refine (bool_decide_unpack _ _). by vm_compute.
  - apply (proj2 C2_at_most_one_claimant_after_resolve rnd0 noLocalDay L.contested 0%nat).
    apply LegacyRuns.run_consistent, LegacyFacts.initial_consistent.
Defined.

(* C3 and C10, on the order of the passes, are in [Passes]. *)

(** C4, in the form the code satisfies.
    On a ledger in which no shift has more than one claimant
    [resolveConflictsFair] returns the very same state and draws nothing.
    [script.js]'s [resolveConflicts], on consistent bookkeeping without a
    conflict, leaves the shifts, the lock flags and the current user
    unchanged and gives every user the same claims as before, relisted in
    registry order. *)
Theorem C4_resolve_is_noop_on_resolved_ledger :
  (∀ (rnd : nat → Z) (st : Planner.State) (n : nat),
     (∀ s, s ∈ Planner.shifts st →
           (length (Planner.whoIsAssigned st (Planner.shiftId s)) ≤ 1)%nat) →
     Planner.resolveConflictsFair rnd st n = Some (st, n)) ∧
  (∀ (rnd : nat → Z) (localDay : string → option Z) (st : Legacy.State) (n : nat),
     Legacy.consistent st →
     (∀ s, s ∈ Legacy.shifts st → (length (Legacy.assigned s) ≤ 1)%nat) →
     ∃ st', Legacy.resolveConflicts rnd localDay st n = Some (st', n) ∧
       Legacy.shifts st' = Legacy.shifts st ∧
       Legacy.finishedUsers st' = Legacy.finishedUsers st ∧
       Legacy.currentUser st' = Legacy.currentUser st ∧
       (∀ u, u ∈ Legacy.users →
          Legacy.userPicks st' !! u =
          Some (Legacy.shiftId <$>
                  filter (λ s, u ∈ Legacy.assigned s) (Legacy.shifts st))) ∧
       (∀ u, Legacy.picksOf st' u ≡ₚ Legacy.picksOf st u)).
Proof.
  split.
  - intros rnd st n H. by apply PlannerFacts.resolve_idempotent.
  - intros rnd localDay st n Hc H. by apply LegacyFacts.resolveConflicts_resolved.
Qed.

(** The registry of three shifts before anybody has claimed, and the two
    claims A made out of order in [script.js]. *)
Lemma C4_witness :
  Planner.resolveConflictsFair rnd0 P.registry3 0 = Some (P.registry3, 0%nat) ∧
  ∃ st', Legacy.resolveConflicts rnd0 noLocalDay L.outOfOrder 0 = Some (st', 0%nat) ∧
    Legacy.shifts st' = Legacy.shifts L.outOfOrder ∧
    Legacy.finishedUsers st' = Legacy.finishedUsers L.outOfOrder ∧
    Legacy.currentUser st' = Legacy.currentUser L.outOfOrder ∧
    (∀ u, u ∈ Legacy.users →
       Legacy.userPicks st' !! u =
       Some (Legacy.shiftId <$>
               filter (λ s, u ∈ Legacy.assigned s) (Legacy.shifts L.outOfOrder))) ∧
    (∀ u, Legacy.picksOf st' u ≡ₚ Legacy.picksOf L.outOfOrder u).
Proof.
  split.
  - apply (proj1 C4_resolve_is_noop_on_resolved_ledger rnd0 P.registry3 0%nat).
    refine (proj1 (Forall_forall _ _) _). refine (bool_decide_unpack _ _). by vm_compute.
  - apply (proj2 C4_resolve_is_noop_on_resolved_ledger rnd0 noLocalDay L.outOfOrder 0%nat).
    + apply LegacyRuns.run_consistent, LegacyFacts.initial_consistent.
    + refine (proj1 (Forall_forall _ _) _). refine (bool_decide_unpack _ _). by vm_compute.
Defined.

(** [script.js] on a ledger without conflicts in which A took the Thursday
    shift before the Wednesday one: the pass turns A's claim list around. *)
Lemma C4_counterexample :
  Forall (λ s, (length (Legacy.assigned s) ≤ 1)%nat) (Legacy.shifts L.outOfOrder) ∧
  Legacy.userPicks L.outOfOrder !! A = Some [L.thu; L.wed] ∧
  (λ r, Legacy.userPicks r.1 !! A) <$>
    Legacy.resolveConflicts rnd0 noLocalDay L.outOfOrder 0 = Some (Some [L.wed; L.thu]).
Proof.
  split; [|split; by vm_compute].
  refine (bool_decide_unpack _ _). by vm_compute.
Qed.

(** C5. Through any sequence of claims and unclaims no claim list grows
    beyond the quota, and a claim made with the list at the quota is turned
    down with the quota message and changes nothing; the same holds for
    [script.js]'s [handleSelect] and [maxShiftsPerUser]. *)
Theorem C5_quota_never_exceeded :
  (∀ (ops : list Planner.Op) (st : Planner.State),
     Planner.withinQuota st → Planner.withinQuota (Planner.runOps ops st)) ∧
  (∀ (name i : string) (st : Planner.State) (l : list string),
     Planner.meFinished st name = false →
     Planner.picks st !! name = Some l →
     Z.of_nat (length l) = Planner.slotsPerResident (Planner.config st) →
     Planner.claim name i st =
       Some (Planner.ToastMax (Planner.slotsPerResident (Planner.config st)), st)) ∧
  (∀ (ops : list (string * string)) (st : Legacy.State),
     Legacy.withinQuota st →
     Legacy.withinQuota (fold_left (λ st ui, Legacy.selectAs ui st) ops st)) ∧
  (∀ (i : string) (st : Legacy.State) cu shift (l : list string),
     Legacy.currentUser st = Some cu → cu ≠ ""%string →
     default false (Legacy.finishedUsers st !! cu) = false →
     Legacy.findShift st i = Some shift → cu ∉ Legacy.assigned shift →
     Legacy.userPicks st !! cu = Some l →
     Z.of_nat (length l) = Legacy.maxShiftsPerUser →
     Legacy.handleSelect i st = Some (Legacy.AlertMax Legacy.maxShiftsPerUser, st)).
Proof.
  split; [|split; [|split]].
  - intros ops st Hq. by apply PlannerFacts.runOps_quota.
  - intros name i st l. apply PlannerFacts.claim_at_quota.
  - intros ops st. apply LegacyRuns.selects_quota.
  - intros i st cu shift l. apply LegacyRuns.handleSelect_at_quota.
Qed.

(** The resident of [P.atQuota] tries a fifth shift; five selections in
    [script.js] starting from four. *)
Lemma C5_witness :
  Planner.withinQuota
    (Planner.runOps (P.claimsFor A P.dates5) (P.setup P.dates5)) ∧
  Planner.claim A (Planner.idFor "2025-09-05" "Puerta") P.atQuota =
    Some (Planner.ToastMax (Planner.slotsPerResident (Planner.config P.atQuota)), P.atQuota) ∧
  Legacy.withinQuota
    (fold_left (λ st ui, Legacy.selectAs ui st)
       [(A, L.wed); (A, L.mon); (B, L.wed)] L.contested) ∧
  Legacy.handleSelect L.wed2 L.fourClaims =
    Some (Legacy.AlertMax Legacy.maxShiftsPerUser, L.fourClaims).
Proof.
  split; [|split; [|split]].
  - apply (proj1 C5_quota_never_exceeded).
    apply PlannerFacts.withinQuota_map_Forall.
    refine (bool_decide_unpack _ _). by vm_compute.
  - apply (proj1 (proj2 C5_quota_never_exceeded) A _ P.atQuota
             (Planner.picksOf P.atQuota A)); by vm_compute.
  - apply (proj1 (proj2 (proj2 C5_quota_never_exceeded))).
    apply LegacyRuns.legacy_withinQuota_map_Forall.
    refine (bool_decide_unpack _ _). by vm_compute.
  - apply (proj2 (proj2 (proj2 C5_quota_never_exceeded)) L.wed2 L.fourClaims B
             (Legacy.mkShift L.wed2 "2025-09-10" "Puerta" [])
             (Legacy.picksOf L.fourClaims B)); try by vm_compute.
    refine (bool_decide_unpack _ _). by vm_compute.
Defined.

(** C6. [whoIsAssigned] is, in every state, exactly the residents whose
    claim list holds the id; in [script.js], after any sequence of events
    from the initial state, a user is in [shift.assigned] exactly when the
    shift's id is in the user's claim list. *)
Theorem C6_assigned_view_matches_claim_lists :
  (∀ (st : Planner.State) (i r : string),
     r ∈ Planner.whoIsAssigned st i ↔
     r ∈ Planner.residents st ∧ i ∈ Planner.picksOf st r) ∧
  (∀ (rnd : nat → Z) (localDay : string → option Z) (es : list Legacy.Event) s u,
     s ∈ Legacy.shifts (Legacy.run rnd localDay es (Legacy.initialState, 0%nat)).1 →
     (u ∈ Legacy.assigned s ↔
      Legacy.shiftId s ∈
        Legacy.picksOf (Legacy.run rnd localDay es (Legacy.initialState, 0%nat)).1 u)).
Proof.
  split.
  - apply PlannerFacts.elem_of_whoIsAssigned.
  - intros rnd localDay es s u Hs.
    apply (Legacy.cons_sync _
             (LegacyRuns.run_consistent rnd localDay es (Legacy.initialState, 0%nat)
                LegacyFacts.initial_consistent) s u Hs).
Qed.

Lemma C6_witness :
  A ∈ Legacy.assigned (Legacy.mkShift L.wed "2025-09-03" "Puerta" [A; B]) ↔
  Legacy.shiftId (Legacy.mkShift L.wed "2025-09-03" "Puerta" [A; B]) ∈
    Legacy.picksOf
      (Legacy.run rnd0 noLocalDay L.contestedEvents (Legacy.initialState, 0%nat)).1 A.
Proof.
  apply (proj2 C6_assigned_view_matches_claim_lists rnd0 noLocalDay L.contestedEvents).
  vm_compute. by constructor.
Defined.

(** C7, in the form the code satisfies.
    Claiming a shift that is already in the resident's claim
    list returns and leaves the state as it was; with the list below the
    quota the answer is the usual "Selections saved", with the list at or
    over the quota it is the quota message. In [script.js] there is one
    toggle: [handleSelect] on a shift the user holds gives the shift up. *)
Theorem C7_claiming_again_changes_nothing :
  (∀ (name i : string) (st : Planner.State) (l : list string),
     Planner.picks st !! name = Some l → i ∈ l →
     ∃ fb, Planner.claim name i st = Some (fb, st) ∧
       (Planner.meFinished st name = false →
        (Z.of_nat (length l) < Planner.slotsPerResident (Planner.config st) →
           fb = Planner.Toast "Selections saved") ∧
        (Planner.slotsPerResident (Planner.config st) ≤ Z.of_nat (length l) →
           fb = Planner.ToastMax (Planner.slotsPerResident (Planner.config st))))) ∧
  (∀ (i : string) (st : Legacy.State) cu shift (l : list string),
     Legacy.consistent st →
     Legacy.currentUser st = Some cu → cu ≠ ""%string →
     default false (Legacy.finishedUsers st !! cu) = false →
     Legacy.findShift st i = Some shift → cu ∈ Legacy.assigned shift →
     Legacy.userPicks st !! cu = Some l →
     ∃ st', Legacy.handleSelect i st = Some (Legacy.Status "Selections saved", st') ∧
       i ∉ Legacy.picksOf st' cu).
Proof.
  split.
  - intros name i st l Hl Hi. unfold Planner.claim, Planner.onCheckboxChange.
    rewrite Hl. cbn [mbind option_bind]. unfold includes.
    rewrite bool_decide_eq_true_2 by done.
    destruct (Planner.meFinished st name).
    { eexists. split; [done|]. by intros [=]. }
    destruct (_ >=? _) eqn:E; (eexists; split; [done|]); intros _; split; intros H;
      try done.
    + apply Z.geb_le in E. lia.
    + rewrite Z.geb_leb in E. apply Z.leb_gt in E. lia.
  - intros i st cu shift l Hc Hcu Hne Hfin Hf Hin Hl.
    rewrite (LegacyRuns.handleSelect_again i st cu shift l) by done.
    eexists. split; [done|]. rewrite LegacyFacts.picksOf_insert, decide_True by done.
    rewrite LegacyFacts.elem_of_removeFirst by by eapply (Legacy.cons_nodup st Hc).
    tauto.
Qed.

Lemma C7_witness :
  (∃ fb, Planner.claim A P.mon P.scenario = Some (fb, P.scenario) ∧
     (Planner.meFinished P.scenario A = false →
      (Z.of_nat (length [P.mon]) < Planner.slotsPerResident (Planner.config P.scenario) →
         fb = Planner.Toast "Selections saved") ∧
      (Planner.slotsPerResident (Planner.config P.scenario) ≤ Z.of_nat (length [P.mon]) →
         fb = Planner.ToastMax (Planner.slotsPerResident (Planner.config P.scenario))))) ∧
  (∃ st', Legacy.handleSelect L.wed L.oneClaim =
            Some (Legacy.Status "Selections saved", st') ∧
     L.wed ∉ Legacy.picksOf st' A).
Proof.
  split.
  - apply (proj1 C7_claiming_again_changes_nothing A P.mon P.scenario [P.mon]).
    + by vm_compute.
    + refine (bool_decide_unpack _ _). by vm_compute.
  - apply (proj2 C7_claiming_again_changes_nothing L.wed L.oneClaim A
             (Legacy.mkShift L.wed "2025-09-03" "Puerta" [A]) [L.wed]).
    + apply LegacyRuns.run_consistent, LegacyFacts.initial_consistent.
    + by vm_compute.
    + by vm_compute.
    + by vm_compute.
    + by vm_compute.
    + refine (bool_decide_unpack _ _). by vm_compute.
    + by vm_compute.
Defined.

(** A resident with four claims, the Monday shift among them, claims the
    Monday shift again: the answer is the quota message. In [script.js], A
    selects again the one shift A holds: the claim is gone. *)
Lemma C7_counterexample :
  Planner.picks P.atQuota !! A =
    Some [P.mon; Planner.idFor "2025-09-02" "Puerta"; P.wed; P.thu] ∧
  Planner.claim A P.mon P.atQuota = Some (Planner.ToastMax 4, P.atQuota) ∧
  Legacy.userPicks L.oneClaim !! A = Some [L.wed] ∧
  (λ r, (r.1, Legacy.userPicks r.2 !! A, L.assignedOf r.2 L.wed)) <$>
    Legacy.handleSelect L.wed L.oneClaim
    = Some (Legacy.Status "Selections saved", Some [], Some []).
Proof. repeat split; by vm_compute. Qed.

(** C8. Adding a guardia whose date and type are those of a registered
    shift (ids derived by [idFor]) is answered with the "already exists"
    alert and the state, hence the registry and its size, stays as it was; in
    particular the second of two identical additions is turned down. The
    same holds for [addNewShift] of [script.js]. *)
Theorem C8_duplicate_shift_rejected :
  (∀ (d t : string) (st : Planner.State) s,
     Planner.idsDerived st → s ∈ Planner.shifts st →
     Planner.date s = d → Planner.type s = t →
     d ≠ ""%string → t ≠ ""%string →
     Planner.addGuardia d t st = (Planner.Alert "That guardia already exists.", st)) ∧
  (∀ (d t : string) (st : Planner.State),
     d ≠ ""%string → t ≠ ""%string →
     Planner.addGuardia d t (Planner.addGuardia d t st).2 =
       (Planner.Alert "That guardia already exists.", (Planner.addGuardia d t st).2)) ∧
  (∀ (d t : string) (st : Legacy.State) s,
     Legacy.idsDerived st → s ∈ Legacy.shifts st →
     Legacy.date s = d → Legacy.type s = t → d ≠ ""%string →
     Legacy.addNewShift d t st = (Legacy.Alert "This guardia already exists.", st)) ∧
  (∀ (d t : string) (st : Legacy.State),
     d ≠ ""%string →
     Legacy.addNewShift d t (Legacy.addNewShift d t st).2 =
       (Legacy.Alert "This guardia already exists.", (Legacy.addNewShift d t st).2)).
Proof.
  split; [|split; [|split]].
  - intros d t st s. apply PlannerFacts.addGuardia_duplicate.
  - apply PlannerFacts.addGuardia_twice.
  - intros d t st s. apply LegacyFacts.addNewShift_duplicate.
  - apply LegacyFacts.addNewShift_twice.
Qed.

Lemma C8_witness :
  Planner.addGuardia "2025-09-01" "Puerta" P.registry3 =
    (Planner.Alert "That guardia already exists.", P.registry3) ∧
  Planner.addGuardia "2025-09-01" "Puerta"
    (Planner.addGuardia "2025-09-01" "Puerta" Planner.initialState).2 =
    (Planner.Alert "That guardia already exists.",
     (Planner.addGuardia "2025-09-01" "Puerta" Planner.initialState).2) ∧
  length (Planner.shifts
            (Planner.addGuardia "2025-09-01" "Puerta" Planner.initialState).2) = 1%nat ∧
  Legacy.addNewShift "2025-09-03" "Puerta" L.oneClaim =
    (Legacy.Alert "This guardia already exists.", L.oneClaim) ∧
  Legacy.addNewShift "2025-09-01" "Puerta"
    (Legacy.addNewShift "2025-09-01" "Puerta" Legacy.initialState).2 =
    (Legacy.Alert "This guardia already exists.",
     (Legacy.addNewShift "2025-09-01" "Puerta" Legacy.initialState).2).
Proof.
  split; [|split; [|split; [|split]]].
  - apply (proj1 C8_duplicate_shift_rejected "2025-09-01"%string "Puerta"%string
             P.registry3 P.shiftMon); try done.
    + refine (proj1 (Forall_forall _ _) _). refine (bool_decide_unpack _ _). by vm_compute.
    + vm_compute. by constructor.
  - by apply (proj1 (proj2 C8_duplicate_shift_rejected)).
  - by vm_compute.
  - apply (proj1 (proj2 (proj2 C8_duplicate_shift_rejected)) "2025-09-03"%string
             "Puerta"%string L.oneClaim
             (Legacy.mkShift L.wed "2025-09-03" "Puerta" [A])); try done.
    + refine (proj1 (Forall_forall _ _) _). refine (bool_decide_unpack _ _). by vm_compute.
    + vm_compute. by constructor.
  - by apply (proj2 (proj2 (proj2 C8_duplicate_shift_rejected))).
Defined.

(** C9. On a hydrated ledger the "Remove" handler returns; afterwards the
    registry holds the same shifts minus those with the removed id, no
    resident's claim list holds the id (so nobody is assigned to it), and
    every other claim is where it was. When the id is not registered, and
    claims only name registered shifts, the state does not change. *)
Theorem C9_remove_shift_cascades :
  ∀ (i : string) (st : Planner.State),
    Planner.hydrated st →
    ∃ st', Planner.removeShift i st = Some st' ∧
      (∀ s, s ∈ Planner.shifts st' ↔ s ∈ Planner.shifts st ∧ Planner.shiftId s ≠ i) ∧
      Planner.residents st' = Planner.residents st ∧
      (∀ r, r ∈ Planner.residents st → i ∉ Planner.picksOf st' r) ∧
      Planner.whoIsAssigned st' i = [] ∧
      (∀ r x, x ≠ i → (x ∈ Planner.picksOf st' r ↔ x ∈ Planner.picksOf st r)) ∧
      (Planner.claimsRegistered st →
       (∀ s, s ∈ Planner.shifts st → Planner.shiftId s ≠ i) → st' = st).
Proof.
  intros i st Hh.
  destruct (PlannerFacts.removeShift_spec i st Hh) as (st'&E&Hsh&Hr&Hcf&Hf&Hsd&L).
  exists st'. split; [done|].
  assert (∀ r, Planner.picksOf st' r =
               if decide (r ∈ Planner.residents st)
               then without i (Planner.picksOf st r)
               else Planner.picksOf st r) as Hp.
  { intros r. unfold Planner.picksOf. rewrite L. destruct (decide _); [|done].
    by destruct (Planner.picks st !! r). }
  split; [|split; [done|split; [|split; [|split]]]].
  - intros s. rewrite Hsh, list_elem_of_filter. tauto.
  - intros r Hr'. rewrite Hp, decide_True by done.
    rewrite PlannerFacts.elem_of_without. tauto.
  - apply PlannerFacts.filter_none. intros r Hr'. rewrite Hr in Hr'.
    rewrite Hp, decide_True by done. rewrite PlannerFacts.elem_of_without. tauto.
  - intros r x Hx. rewrite Hp. destruct (decide _); [|done].
    rewrite PlannerFacts.elem_of_without. tauto.
  - intros Hreg Habs.
    assert (∀ r, r ∈ Planner.residents st → i ∉ Planner.picksOf st r) as Hno.
    { intros r Hr' Hi. destruct (Hreg r i Hr' Hi) as (s&Hs&Hsi). by apply (Habs s). }
    assert (Planner.shifts st' = Planner.shifts st) as Hsh'.
    { rewrite Hsh. by apply PlannerFacts.filter_all. }
    apply PlannerFacts.state_eq; [by repeat split|].
    apply map_eq. intros r. rewrite L. destruct (decide _) as [Hin|]; [|done].
    specialize (Hno r Hin). unfold Planner.picksOf in Hno.
    destruct (Planner.picks st !! r) as [l|]; [|done]. simpl in *.
    by rewrite PlannerFacts.without_id.
Qed.

(** Two residents hold the Monday shift of [P.scenario]; it is removed. *)
Lemma C9_witness :
  ∃ st', Planner.removeShift P.mon P.scenario = Some st' ∧
    (∀ s, s ∈ Planner.shifts st' ↔ s ∈ Planner.shifts P.scenario ∧ Planner.shiftId s ≠ P.mon) ∧
    Planner.residents st' = Planner.residents P.scenario ∧
    (∀ r, r ∈ Planner.residents P.scenario → P.mon ∉ Planner.picksOf st' r) ∧
    Planner.whoIsAssigned st' P.mon = [] ∧
    (∀ r x, x ≠ P.mon → (x ∈ Planner.picksOf st' r ↔ x ∈ Planner.picksOf P.scenario r)) ∧
    (Planner.claimsRegistered P.scenario →
     (∀ s, s ∈ Planner.shifts P.scenario → Planner.shiftId s ≠ P.mon) → st' = P.scenario).
Proof.
  apply (C9_remove_shift_cascades P.mon P.scenario).
  apply PlannerFacts.hydrated_Forall. refine (bool_decide_unpack _ _). by vm_compute.
Defined.

End Claims.

(** * Further properties *)

(** ** Texts and dates *)
Module TextFacts.
Import JS JSText.

Lemma splitAux_nosep c s cur :
  includesChar c s = false → splitAux c s cur = [String.rev_app cur s].
Proof.
  revert cur. induction s as [|a s IH]; intros cur; cbn [includesChar splitAux]; [done|].
  destruct (decide (a = c)); [done|]. intros H. by rewrite IH.
Qed.

Lemma splitAux_sep c a rest cur :
  includesChar c a = false →
  splitAux c (a ++ String c rest) cur = String.rev_app cur a :: splitAux c rest "".
Proof.
  revert cur. induction a as [|x a IH]; intros cur; cbn [includesChar].
  - intros _. change ("" ++ String c rest)%string with (String c rest).
    cbn [splitAux]. by rewrite decide_True.
  - destruct (decide (x = c)); [done|]. intros H.
    change (String x a ++ String c rest)%string with (String x (a ++ String c rest)).
    cbn [splitAux]. rewrite decide_False by done. by rewrite IH.
Qed.

Lemma split_nosep c s : includesChar c s = false → split c s = [s].
Proof. intros H. unfold split. by rewrite splitAux_nosep. Qed.

Lemma split_sep c a rest :
  includesChar c a = false → split c (a ++ String c rest) = a :: split c rest.
Proof. intros H. unfold split. by rewrite splitAux_sep. Qed.

Lemma length_splitAux c s cur : length (splitAux c s cur) = S (countChar c s).
Proof.
  revert cur. induction s as [|a s IH]; intros cur; cbn [splitAux countChar]; [done|].
  destruct (decide (a = c)); simpl; by rewrite IH.
Qed.

Lemma length_split c s : length (split c s) = S (countChar c s).
Proof. apply length_splitAux. Qed.

Lemma includesChar_count c s : includesChar c s = false ↔ countChar c s = 0%nat.
Proof.
  induction s as [|a s IH]; cbn [includesChar countChar]; [done|].
  destruct (decide (a = c)); simpl; [split; [done|lia]|done].
Qed.

Lemma allDigits_nosep c s :
  digitOf c = None → allDigits s = true → includesChar c s = false.
Proof.
  intros Hc. induction s as [|a s IH]; cbn [allDigits includesChar]; [done|].
  intros [Ha Hs]%andb_true_iff. apply bool_decide_eq_true in Ha.
  destruct (decide (a = c)) as [->|]; [|by apply IH].
  rewrite Hc in Ha. by destruct Ha.
Qed.

Lemma isDigits_nosep c s :
  digitOf c = None → isDigits s = true → includesChar c s = false.
Proof. intros Hc [_ H]%andb_true_iff. by eapply allDigits_nosep. Qed.

(** On a run of digits [Number] and [parseInt] read the same value. *)
Lemma digits_value s acc seen :
  allDigits s = true → (s ≠ ""%string ∨ seen = true) →
  ∃ v, digitsAcc s acc = Some v ∧ digitPrefix s acc seen = Some v.
Proof.
  revert acc seen. induction s as [|a s IH]; intros acc seen; cbn [allDigits digitsAcc digitPrefix].
  - intros _ [H| ->]; [done|]. eauto.
  - intros [Ha Hs]%andb_true_iff _. apply bool_decide_eq_true in Ha as [d Hd].
    rewrite Hd. apply IH; [done|by right].
Qed.

Lemma Number_parseInt s : isDigits s = true → ∃ v, Number s = Some v ∧ parseInt s = Some v.
Proof.
  intros [H1 H2]%andb_true_iff. apply bool_decide_eq_true in H1.
  apply digits_value; [done|by left].
Qed.

End TextFacts.

Module DateFacts.
Import JS JSText TextFacts LegacyPage.

Lemma pad2_digits n :
  0 ≤ n ≤ 99 →
  includesChar "-" (pad2 n) = false ∧ parseInt (pad2 n) = Some n ∧ isDigits (pad2 n) = true.
Proof.
  intros Hn.
  assert (Forall (λ k, includesChar "-" (pad2 (Z.of_nat k)) = false ∧
                       parseInt (pad2 (Z.of_nat k)) = Some (Z.of_nat k) ∧
                       isDigits (pad2 (Z.of_nat k)) = true) (seq 0 100)) as H.
  { refine (bool_decide_unpack _ _). by vm_compute. }
  rewrite Forall_forall in H. replace n with (Z.of_nat (Z.to_nat n)) by lia.
  apply H. apply elem_of_seq. lia.
Qed.

Lemma split3 c (a b d : string) :
  includesChar c a = false → includesChar c b = false → includesChar c d = false →
  split c (a ++ String c (b ++ String c d)) = [a; b; d].
Proof.
  intros Ha Hb Hd. rewrite split_sep by done. rewrite split_sep by done.
  by rewrite split_nosep.
Qed.

Lemma formatDate_parts (y mm dd : string) :
  includesChar "-" y = false → includesChar "-" mm = false → includesChar "-" dd = false →
  formatDate (y ++ "-" ++ mm ++ "-" ++ dd) =
    (numToString (parseInt dd) ++ " " ++
     default mm (((λ v, v - 1)%Z <$> parseInt mm) ≫=
                 λ k, if (0 <=? k)%Z then monthNames !! Z.to_nat k else None) ++ " " ++ y)%string.
Proof.
  intros Hy Hm Hd. unfold formatDate.
  change (y ++ "-" ++ mm ++ "-" ++ dd)%string with (y ++ String "-" (mm ++ String "-" dd))%string.
  rewrite split3 by done. done.
Qed.

End DateFacts.

Module DateTexts.
Import JS JSText TextFacts DateFacts LegacyPage.

(** X1. [formatDate] on a date written year-month-day, the month (1 to 12)
    and the day (0 to 99) on two digits and a year part without a dash: the
    result is the day without its leading zero, the English three-letter
    name of the month and the year part as it was written, with a space in
    between ("2025-09-01" gives "1 Sep 2025"). *)
Theorem X1_formatDate_canonical (y : string) (m d : Z) :
  includesChar "-" y = false → 1 ≤ m ≤ 12 → 0 ≤ d ≤ 99 →
  formatDate (y ++ "-" ++ pad2 m ++ "-" ++ pad2 d) =
    (pretty d ++ " " ++ default "" (monthNames !! Z.to_nat (m - 1)) ++ " " ++ y)%string.
Proof.
  intros Hy Hm Hd.
  destruct (pad2_digits m ltac:(lia)) as (Hm1&Hm2&_).
  destruct (pad2_digits d Hd) as (Hd1&Hd2&_).
  rewrite formatDate_parts by done. rewrite Hm2, Hd2. cbn [numToString fmap option_fmap option_map mbind option_bind].
  rewrite (proj2 (Z.leb_le 0 (m - 1))) by lia.
  destruct (monthNames !! Z.to_nat (m - 1)) as [nm|] eqn:E; [done|].
  apply lookup_ge_None in E. simpl in E. lia.
Qed.

Lemma X1_witness :
  formatDate "2025-09-01" = "1 Sep 2025"%string.
Proof.
  apply (X1_formatDate_canonical "2025" 9 1); [done|lia|lia].
Defined.

(** X2. What [formatDate] does with other texts: a text that does not have
    exactly two dashes comes back unchanged; a month written in digits whose
    value is 0 or more than 12 is shown as it was written, in place of a
    month name; an empty day part is shown as "NaN". *)
Theorem X2_formatDate_fallbacks :
  (∀ iso, countChar "-" iso ≠ 2%nat → formatDate iso = iso) ∧
  (∀ (y mm : string) (k d : Z),
     includesChar "-" y = false → isDigits mm = true → parseInt mm = Some k →
     k = 0 ∨ 13 ≤ k → 0 ≤ d ≤ 99 →
     formatDate (y ++ "-" ++ mm ++ "-" ++ pad2 d) = (pretty d ++ " " ++ mm ++ " " ++ y)%string) ∧
  (∀ (y : string) (m : Z),
     includesChar "-" y = false → 1 ≤ m ≤ 12 →
     formatDate (y ++ "-" ++ pad2 m ++ "-") =
       ("NaN " ++ default "" (monthNames !! Z.to_nat (m - 1)) ++ " " ++ y)%string).
Proof.
  split; [|split].
  - intros iso H. unfold formatDate. rewrite length_split.
    rewrite decide_True; [done|lia].
  - intros y mm k d Hy Hmm Hk Hrange Hd.
    destruct (pad2_digits d Hd) as (Hd1&Hd2&_).
    rewrite formatDate_parts; [|done|by apply isDigits_nosep|done].
    rewrite Hk, Hd2. cbn [numToString fmap option_fmap option_map mbind option_bind].
    destruct (0 <=? k - 1) eqn:E; [|done].
    apply Z.leb_le in E.
    destruct (monthNames !! Z.to_nat (k - 1)) as [nm|] eqn:E2; [|done].
    apply lookup_lt_Some in E2. simpl in E2. lia.
  - intros y m Hy Hm. destruct (pad2_digits m ltac:(lia)) as (Hm1&Hm2&_).
    change (y ++ "-" ++ pad2 m ++ "-")%string with (y ++ "-" ++ pad2 m ++ "-" ++ "")%string.
    rewrite (formatDate_parts y (pad2 m) "") by done. rewrite Hm2.
    cbn [numToString fmap option_fmap option_map mbind option_bind parseInt digitPrefix].
    rewrite (proj2 (Z.leb_le 0 (m - 1))) by lia.
    destruct (monthNames !! Z.to_nat (m - 1)) as [nm|] eqn:E; [done|].
    apply lookup_ge_None in E. simpl in E. lia.
Qed.

Lemma X2_witness :
  formatDate "09/01/2025" = "09/01/2025"%string ∧
  formatDate "2025-13-05" = "5 13 2025"%string ∧
  formatDate "2025-09-" = "NaN Sep 2025"%string.
Proof.
  split; [|split].
  - apply (proj1 X2_formatDate_fallbacks). by vm_compute.
  - apply (proj1 (proj2 X2_formatDate_fallbacks) "2025" "13" 13 5); try done; lia.
  - apply (proj2 (proj2 X2_formatDate_fallbacks) "2025" 9); [done|lia].
Defined.

End DateTexts.

Module WeekdayFacts.
Import JS JSText TextFacts DateFacts.

Lemma includesChar_app c a b :
  includesChar c (a ++ b) = includesChar c a || includesChar c b.
Proof.
  induction a as [|x a IH]; [done|].
  change (String x a ++ b)%string with (String x (a ++ b)). cbn [includesChar].
  by destruct (decide (x = c)).
Qed.

Lemma includesChar_cons c x b :
  includesChar c (String x b) = bool_decide (x = c) || includesChar c b.
Proof.
  cbn [includesChar]. destruct (decide (x = c)).
  - by rewrite bool_decide_eq_true_2.
  - by rewrite bool_decide_eq_false_2.
Qed.

End WeekdayFacts.

Module WeekdayReadings.
Import JS JSText TextFacts DateFacts WeekdayFacts.

(** X13. On a date written year-month-day in digits, [isMonOrFri] of the
    clean version and the Monday/Friday test of [script.js] give the same
    answer. *)
Theorem X13_monFri_versions_agree (localDay : string → option Z) (y m d : string) :
  isDigits y = true → isDigits m = true → isDigits d = true →
  Planner.isMonOrFri (y ++ "-" ++ m ++ "-" ++ d) =
  Legacy.monFriDate localDay (y ++ "-" ++ m ++ "-" ++ d).
Proof.
  intros Hy Hm Hd.
  destruct (Number_parseInt y Hy) as (vy&Ny&Py).
  destruct (Number_parseInt m Hm) as (vm&Nm&Pm).
  destruct (Number_parseInt d Hd) as (vd&Nd&Pd).
  assert (includesChar "-" y = false) as Hy' by (apply isDigits_nosep; [by vm_compute|done]).
  assert (includesChar "-" m = false) as Hm' by (apply isDigits_nosep; [by vm_compute|done]).
  assert (includesChar "-" d = false) as Hd' by (apply isDigits_nosep; [by vm_compute|done]).
  unfold Planner.isMonOrFri, Planner.isMon, Planner.isFri, Planner.weekdayUTC, Legacy.monFriDate.
  change (y ++ "-" ++ m ++ "-" ++ d)%string with (y ++ String "-" (m ++ String "-" d))%string.
  rewrite includesChar_app, includesChar_cons.
  rewrite (bool_decide_eq_true_2 ("-"%char = "-"%char)) by done.
  rewrite orb_true_r. rewrite split3 by done.
  cbn [map lookup list_lookup mjoin option_join mbind option_bind].
  by rewrite Ny, Nm, Nd, Py, Pm, Pd.
Qed.

Lemma X13_witness :
  Planner.isMonOrFri "2025-09-01" = Legacy.monFriDate (λ _, None) "2025-09-01".
Proof. by apply (X13_monFri_versions_agree (λ _, None) "2025" "09" "01"). Defined.

(** X3. The Monday/Friday test of [computeMonFriCount] gives the same
    answer for a date written month/day/year as for the same digits written
    year-month-day. *)
Theorem X3_monFri_us_format_like_iso (localDay : string → option Z) (y m d : string) :
  isDigits y = true → isDigits m = true → isDigits d = true →
  Legacy.monFriDate localDay (m ++ "/" ++ d ++ "/" ++ y) =
  Legacy.monFriDate localDay (y ++ "-" ++ m ++ "-" ++ d).
Proof.
  intros Hy Hm Hd.
  assert (includesChar "-" y = false) as Hy' by (apply isDigits_nosep; [by vm_compute|done]).
  assert (includesChar "-" m = false) as Hm' by (apply isDigits_nosep; [by vm_compute|done]).
  assert (includesChar "-" d = false) as Hd' by (apply isDigits_nosep; [by vm_compute|done]).
  assert (includesChar "/" y = false) as Hy2 by (apply isDigits_nosep; [by vm_compute|done]).
  assert (includesChar "/" m = false) as Hm2 by (apply isDigits_nosep; [by vm_compute|done]).
  assert (includesChar "/" d = false) as Hd2 by (apply isDigits_nosep; [by vm_compute|done]).
  unfold Legacy.monFriDate.
  change (y ++ "-" ++ m ++ "-" ++ d)%string with (y ++ String "-" (m ++ String "-" d))%string.
  change (m ++ "/" ++ d ++ "/" ++ y)%string with (m ++ String "/" (d ++ String "/" y))%string.
  rewrite !includesChar_app, !includesChar_cons, !includesChar_app, !includesChar_cons.
  rewrite Hy', Hm', Hd', Hm2. rewrite (bool_decide_eq_true_2 ("-"%char = "-"%char)) by done.
  rewrite (bool_decide_eq_false_2 ("/"%char = "-"%char)) by done.
  rewrite (bool_decide_eq_true_2 ("/"%char = "/"%char)) by done.
  cbn [orb]. rewrite !split3 by done.
  done.
Qed.

Lemma X3_witness :
  Legacy.monFriDate (λ _, None) "09/01/2025" = Legacy.monFriDate (λ _, None) "2025-09-01".
Proof. by apply (X3_monFri_us_format_like_iso (λ _, None) "2025" "09" "01"). Defined.

End WeekdayReadings.

(** ** [script.js]: selecting, locking and resolving *)
Module SelectFacts.
Import JS Legacy LegacyFacts.

(** The registry as the admin entered it: id, date and type of every shift. *)
Lemma setAssignedFirst_lookup i f l k s :
  l !! k = Some s →
  ∃ s', setAssignedFirst i f l !! k = Some s' ∧
    shiftId s' = shiftId s ∧ date s' = date s ∧ type s' = type s ∧
    (shiftId s ≠ i → s' = s) ∧
    (assigned s' = assigned s ∨ assigned s' = f (assigned s)).
Proof.
  revert k. induction l as [|a l IH]; intros k Hk; [done|]. cbn [setAssignedFirst].
  destruct (decide (shiftId a = i)) as [Ha|Ha].
  - destruct k as [|k]; simpl in *.
    + injection Hk as <-. eexists. split; [done|]. simpl.
      split; [done|]. split; [done|]. split; [done|]. split; [done|by right].
    + exists s. split; [done|]. split; [done|]. split; [done|]. split; [done|].
      split; [done|by left].
  - destruct k as [|k]; simpl in *.
    + injection Hk as <-. exists a. split; [done|]. split; [done|]. split; [done|].
      split; [done|]. split; [done|by left].
    + by apply IH.
Qed.

Lemma length_setAssignedFirst i f l : length (setAssignedFirst i f l) = length l.
Proof.
  induction l as [|a l IH]; [done|]. cbn [setAssignedFirst].
  destruct (decide _); simpl; [done|by rewrite IH].
Qed.

Lemma handleSelect_frame_aux i st fb st' :
  handleSelect i st = Some (fb, st') →
  finishedUsers st' = finishedUsers st ∧ currentUser st' = currentUser st ∧
  length (shifts st') = length (shifts st) ∧
  (∀ u, Some u ≠ currentUser st → userPicks st' !! u = userPicks st !! u) ∧
  (∀ k s, shifts st !! k = Some s →
     ∃ s', shifts st' !! k = Some s' ∧
       shiftId s' = shiftId s ∧ date s' = date s ∧ type s' = type s ∧
       (shiftId s ≠ i → s' = s) ∧
       (∀ u, Some u ≠ currentUser st → (u ∈ assigned s' ↔ u ∈ assigned s))).
Proof.
  intros H. apply handleSelect_cases in H.
  destruct H as [fb Hfb|cu shift l Hcu Hf Hin Hl|cu shift l Hcu Hf Hin Hl Hlen].
  - split; [done|]. split; [done|]. split; [done|]. split; [done|].
    intros k s Hk. exists s. by repeat split.
  - cbn [finishedUsers currentUser shifts userPicks]. rewrite Hcu.
    split; [done|]. split; [done|]. split; [apply length_setAssignedFirst|]. split.
    + intros u Hu. rewrite lookup_insert_ne; [done|congruence].
    + intros k s Hk.
      destruct (setAssignedFirst_lookup i (without cu) _ k s Hk) as (s'&E&H1&H2&H3&H4&H5).
      exists s'. split; [done|]. split; [done|]. split; [done|]. split; [done|].
      split; [done|]. intros u Hu. destruct H5 as [-> | ->]; [done|].
      rewrite PlannerFacts.elem_of_without. split; [tauto|]. intros Hin'.
      split; [done|congruence].
  - cbn [finishedUsers currentUser shifts userPicks]. rewrite Hcu.
    split; [done|]. split; [done|]. split; [apply length_setAssignedFirst|]. split.
    + intros u Hu. rewrite lookup_insert_ne; [done|congruence].
    + intros k s Hk.
      destruct (setAssignedFirst_lookup i (λ a, a ++ [cu]) _ k s Hk) as (s'&E&H1&H2&H3&H4&H5).
      exists s'. split; [done|]. split; [done|]. split; [done|]. split; [done|].
      split; [done|]. intros u Hu. destruct H5 as [-> | ->]; [done|].
      rewrite elem_of_app, list_elem_of_singleton. split; [|tauto].
      intros [?| ->]; [done|congruence].
Qed.

End SelectFacts.

Module LockFacts.
Import JS Legacy LegacyFacts LegacyPage SelectFacts.

Lemma untouched_refl u st : untouched u st st.
Proof. split; [done|]. split; [done|]. intros k s Hk. exists s. by repeat split. Qed.

Lemma untouched_trans u st1 st2 st3 :
  untouched u st1 st2 → untouched u st2 st3 → untouched u st1 st3.
Proof.
  intros (P1&F1&S1) (P2&F2&S2). split; [congruence|]. split; [tauto|].
  intros k s Hk. destruct (S1 k s Hk) as (s2&Hk2&Hi2&Hu2).
  destruct (S2 k s2 Hk2) as (s3&Hk3&Hi3&Hu3). exists s3.
  split; [done|]. split; [congruence|]. by rewrite Hu3.
Qed.

Lemma handleSelect_finished i st u :
  currentUser st = Some u → default false (finishedUsers st !! u) = true →
  handleSelect i st = Some (Silent, st).
Proof.
  intros Hcu Hf. unfold handleSelect. rewrite Hcu. destruct (decide _); [done|].
  by rewrite Hf.
Qed.

Lemma step_untouched rnd localDay e sn u :
  e ≠ EvResolve → default false (finishedUsers sn.1 !! u) = true →
  untouched u sn.1 (step rnd localDay e sn).1.
Proof.
  intros He Hf. destruct e as [d t|u'|i| |]; cbn [step fst snd]; [| | | |done].
  - unfold addNewShift. destruct (decide _); [apply untouched_refl|].
    destruct (existsb _ _); [apply untouched_refl|]. cbn [snd].
    split; [done|]. split; [done|]. intros k s Hk. exists s. cbn [shifts].
    split; [|done]. by apply lookup_app_l_Some.
  - unfold login. destruct (decide _); [apply untouched_refl|].
    split; [done|]. split; [done|]. intros k s Hk. exists s. by repeat split.
  - destruct (decide (currentUser sn.1 = Some u)) as [Hcu|Hcu].
    { rewrite (handleSelect_finished i sn.1 u Hcu Hf). apply untouched_refl. }
    destruct (handleSelect i sn.1) as [[fb st']|] eqn:E; [|apply untouched_refl].
    cbn [fst]. destruct (handleSelect_frame_aux i sn.1 fb st' E) as (Hfin&_&_&Hp&Hs).
    split; [apply Hp; congruence|]. split; [by rewrite Hfin|].
    intros k s Hk. destruct (Hs k s Hk) as (s'&Hk'&Hi&_&_&_&Hu). exists s'.
    split; [done|]. split; [done|]. apply Hu. congruence.
  - unfold finishSelection. destruct (currentUser sn.1) as [cu|]; [|apply untouched_refl].
    destruct (decide _); [apply untouched_refl|].
    split; [done|]. split.
    + cbn [finishedUsers]. intros _. destruct (decide (cu = u)) as [->|Hne].
      * by rewrite lookup_insert_eq.
      * by rewrite lookup_insert_ne.
    + intros k s Hk. exists s. by repeat split.
Qed.

Lemma run_untouched rnd localDay es sn u :
  Forall (λ e, e ≠ EvResolve) es → default false (finishedUsers sn.1 !! u) = true →
  untouched u sn.1 (run rnd localDay es sn).1.
Proof.
  revert sn. induction es as [|e es IH]; intros sn Hes Hf; [apply untouched_refl|].
  apply Forall_cons in Hes as [He Hes]. unfold run. cbn [fold_left].
  pose proof (step_untouched rnd localDay e sn u He Hf) as H1.
  eapply untouched_trans; [exact H1|]. apply IH; [done|]. by apply H1.
Qed.

End LockFacts.

Module ToggleFacts.
Import JS Legacy LegacyFacts LegacyPage SelectFacts.

Lemma removeFirst_snoc i l : i ∉ l → removeFirst i (l ++ [i]) = l.
Proof.
  induction l as [|y l IH]; intros Hi; cbn [removeFirst app].
  - by rewrite decide_True.
  - rewrite decide_False by set_solver. rewrite IH; [done|set_solver].
Qed.

Lemma without_snoc u (a : list string) : u ∉ a → without u (a ++ [u]) = a.
Proof.
  intros Hu. unfold without. rewrite filter_app, filter_cons, decide_False by tauto.
  rewrite filter_nil, app_nil_r. by apply PlannerFacts.without_id.
Qed.

Lemma setAssignedFirst_undo i f g l :
  (∀ s, s ∈ l → shiftId s = i → g (f (assigned s)) = assigned s) →
  setAssignedFirst i g (setAssignedFirst i f l) = l.
Proof.
  induction l as [|s l IH]; intros H; [done|]. cbn [setAssignedFirst].
  destruct (decide (shiftId s = i)) as [Hs|Hs].
  - cbn [setAssignedFirst shiftId]. rewrite decide_True by done. cbn [shiftId date type assigned].
    rewrite H by (done || set_solver). by destruct s.
  - cbn [setAssignedFirst]. rewrite decide_False by done. f_equal. apply IH.
    intros; apply H; [set_solver|done].
Qed.

Lemma findShift_setAssignedFirst i f st s f' c u :
  findShift st i = Some s →
  findShift (mkState (setAssignedFirst i f (shifts st)) u f' c) i =
    Some (mkShift (shiftId s) (date s) (type s) (f (assigned s))).
Proof.
  unfold findShift. cbn [shifts]. induction (shifts st) as [|a l IH]; [done|].
  cbn [find setAssignedFirst]. destruct (decide (shiftId a = i)) as [Ha|Ha].
  - rewrite bool_decide_eq_true_2 by done. intros [= <-]. cbn [find shiftId].
    by rewrite bool_decide_eq_true_2.
  - rewrite bool_decide_eq_false_2 by done. cbn [find].
    rewrite bool_decide_eq_false_2 by done. apply IH.
Qed.

End ToggleFacts.

Module Selecting.
Import JS Legacy LegacyFacts LegacyPage SelectFacts LockFacts ToggleFacts Examples.

(** X4. When [handleSelect] returns, the lock flags and the current user are
    the same, the registry has the same shifts at the same places with the
    same ids, dates and types, only the shift with the given id can differ,
    and for everybody but the current user the claim list and the membership
    in every [shift.assigned] are as before. *)
Theorem X4_handleSelect_touches_current_user_only (i : string) (st : State) fb st' :
  handleSelect i st = Some (fb, st') →
  finishedUsers st' = finishedUsers st ∧ currentUser st' = currentUser st ∧
  length (shifts st') = length (shifts st) ∧
  (∀ u, Some u ≠ currentUser st → userPicks st' !! u = userPicks st !! u) ∧
  (∀ k s, shifts st !! k = Some s →
     ∃ s', shifts st' !! k = Some s' ∧
       shiftId s' = shiftId s ∧ date s' = date s ∧ type s' = type s ∧
       (shiftId s ≠ i → s' = s) ∧
       (∀ u, Some u ≠ currentUser st → (u ∈ assigned s' ↔ u ∈ assigned s))).
Proof. apply handleSelect_frame_aux. Qed.

Lemma X4_witness :
  ∃ st', handleSelect L.wed2 L.contested = Some (Status "Selections saved", st') ∧
    finishedUsers st' = finishedUsers L.contested ∧
    currentUser st' = currentUser L.contested ∧
    length (shifts st') = length (shifts L.contested) ∧
    (∀ u, Some u ≠ currentUser L.contested →
          userPicks st' !! u = userPicks L.contested !! u) ∧
    (∀ k s, shifts L.contested !! k = Some s →
       ∃ s', shifts st' !! k = Some s' ∧
         shiftId s' = shiftId s ∧ date s' = date s ∧ type s' = type s ∧
         (shiftId s ≠ L.wed2 → s' = s) ∧
         (∀ u, Some u ≠ currentUser L.contested → (u ∈ assigned s' ↔ u ∈ assigned s))).
Proof.
  eexists. split; [by vm_compute|].
  apply (X4_handleSelect_touches_current_user_only L.wed2 L.contested
           (Status "Selections saved")).
  by vm_compute.
Defined.

(** X6. Once a user has finished, no sequence of additions, logins,
    selections and finishes (by that user or by others) changes that user's
    claim list, clears the lock, or changes whether the user is in the
    [assigned] list of any shift; the shifts stay at their places in the
    registry. Only [resolveConflicts] can take claims from a finished
    user. *)
Theorem X6_finished_user_is_locked (rnd : nat → Z) (localDay : string → option Z)
    (es : list Event) (st : State) (n : nat) (u : string) :
  Forall (λ e, e ≠ EvResolve) es →
  default false (finishedUsers st !! u) = true →
  untouched u st (run rnd localDay es (st, n)).1.
Proof. intros Hes Hf. by apply (run_untouched rnd localDay es (st, n) u). Qed.

Lemma X6_witness :
  let st := L.start (L.contestedEvents ++ [EvFinish]) in
  default false (finishedUsers st !! B) = true ∧
  untouched B st
    (run rnd0 noLocalDay
       [EvSelect L.wed; EvLogin A; EvSelect L.tue; EvFinish; EvLogin B; EvSelect L.mon]
       (st, 0%nat)).1.
Proof.
  split; [by vm_compute|].
  apply (X6_finished_user_is_locked rnd0 noLocalDay
           [EvSelect L.wed; EvLogin A; EvSelect L.tue; EvFinish; EvLogin B; EvSelect L.mon]
           (L.start (L.contestedEvents ++ [EvFinish])) 0 B).
  - repeat (constructor; [discriminate|]). constructor.
  - by vm_compute.
Defined.

(** X5. On consistent bookkeeping, a logged-in user who has not finished,
    is below [maxShiftsPerUser] and does not hold the registered shift [i]:
    [handleSelect(i)] saves the selection and puts [i] in the user's claim
    list, and a second [handleSelect(i)] gives back exactly the state before
    the first. *)
Theorem X5_select_twice_restores (i : string) (st : State) cu shift (l : list string) :
  consistent st →
  currentUser st = Some cu → cu ≠ ""%string →
  default false (finishedUsers st !! cu) = false →
  findShift st i = Some shift → cu ∉ assigned shift →
  userPicks st !! cu = Some l → Z.of_nat (length l) < maxShiftsPerUser →
  ∃ st1, handleSelect i st = Some (Status "Selections saved", st1) ∧
    i ∈ picksOf st1 cu ∧
    handleSelect i st1 = Some (Status "Selections saved", st).
Proof.
  intros Hc Hcu Hne Hfin Hf Hin Hl Hlen.
  pose proof (findShift_Some st i shift Hf) as [Hs1 Hs2].
  assert (i ∉ l) as Hil.
  { intros Hi. apply Hin. apply (cons_sync st Hc shift cu Hs1). rewrite Hs2.
    unfold picksOf. by rewrite Hl. }
  eexists. split.
  { unfold handleSelect. rewrite Hcu, decide_False, Hfin, Hf by done. unfold includes.
    rewrite bool_decide_eq_false_2 by done. rewrite Hl. cbn [mbind option_bind].
    destruct (_ >=? _) eqn:E; [apply Z.geb_le in E; lia|]. done. }
  split.
  { rewrite picksOf_insert, decide_True by done. set_solver. }
  rewrite (LegacyRuns.handleSelect_again i _ cu
             (mkShift (shiftId shift) (date shift) (type shift) (assigned shift ++ [cu]))
             (l ++ [i])); cbn [currentUser finishedUsers userPicks shifts assigned]; try done.
  - f_equal. f_equal. destruct st as [sh p f c]. cbn [shifts userPicks finishedUsers currentUser] in *.
    rewrite removeFirst_snoc by done. rewrite insert_insert_eq, insert_id by done.
    rewrite setAssignedFirst_undo; [by subst|].
    intros s Hs Hsi. apply without_snoc.
    assert (s = shift) as ->; [|done].
    apply (ListFacts.NoDup_fmap_inj shiftId sh); [apply Hc|done|done|congruence].
  - by apply findShift_setAssignedFirst.
  - set_solver.
  - by rewrite lookup_insert_eq.
Qed.

Lemma X5_witness :
  ∃ st1, handleSelect L.mon L.contested = Some (Status "Selections saved", st1) ∧
    L.mon ∈ picksOf st1 B ∧
    handleSelect L.mon st1 = Some (Status "Selections saved", L.contested).
Proof.
  apply (X5_select_twice_restores L.mon L.contested B
           (mkShift L.mon "2025-09-01" "Puerta" [A]) [L.wed; L.tue; L.wed2]).
  - apply (LegacyRuns.run_consistent rnd0 noLocalDay L.contestedEvents (initialState, 0%nat)),
      initial_consistent.
  - by vm_compute.
  - by vm_compute.
  - by vm_compute.
  - by vm_compute.
  - refine (bool_decide_unpack _ _). by vm_compute.
  - by vm_compute.
  - by vm_compute.
Defined.

End Selecting.

Module RankFacts.
Import JS Legacy LegacyFacts LegacyPage.

Lemma users_nonempty u : u ∈ users → u ≠ ""%string.
Proof.
  intros Hu. assert (Forall (λ u, u ≠ ""%string) users) as H.
  { refine (bool_decide_unpack _ _). by vm_compute. }
  rewrite Forall_forall in H. by apply H.
Qed.

Section Rank.
Variable rnd : nat → Z.
Variable localDay : string → option Z.

Lemma chooseStep_min st c n res :
  c ≠ ""%string → is_Some (userPicks st !! c) → is_Some (userPicks st !! res) →
  ∃ w n', chooseStep rnd localDay st (Some c, n) res = Some (Some w, n') ∧
    (w = res ∨ w = c) ∧
    Planner.keyLe (rankKey localDay st w) (rankKey localDay st c) ∧ Planner.keyLe (rankKey localDay st w) (rankKey localDay st res).
Proof.
  intros Hc [lb Hlb] [la Hla]. unfold chooseStep. rewrite decide_False by done.
  destruct (computeMonFriCount_Some localDay st res (mk_is_Some _ _ Hla)) as [a Ha].
  destruct (computeMonFriCount_Some localDay st c (mk_is_Some _ _ Hlb)) as [b Hb].
  rewrite Ha, Hb, Hla, Hlb. cbn [mbind option_bind].
  assert (rankKey localDay st res = (a, Z.of_nat (length la))) as Kres.
  { unfold rankKey, picksOf. by rewrite Ha, Hla. }
  assert (rankKey localDay st c = (b, Z.of_nat (length lb))) as Kc.
  { unfold rankKey, picksOf. by rewrite Hb, Hlb. }
  unfold Planner.keyLe.
  destruct (a <? b) eqn:E1.
  { apply Z.ltb_lt in E1. exists res, n. split; [done|]. split; [by left|].
    rewrite Kres, Kc. simpl. lia. }
  apply Z.ltb_ge in E1. destruct (a =? b) eqn:E2.
  2:{ apply Z.eqb_neq in E2. exists c, n. split; [done|]. split; [by right|].
      rewrite Kres, Kc. simpl. lia. }
  apply Z.eqb_eq in E2. destruct (length la <? length lb)%nat eqn:E3.
  { apply Nat.ltb_lt in E3. exists res, n. split; [done|]. split; [by left|].
    rewrite Kres, Kc. simpl. lia. }
  apply Nat.ltb_ge in E3. destruct (length la =? length lb)%nat eqn:E4.
  2:{ apply Nat.eqb_neq in E4. exists c, n. split; [done|]. split; [by right|].
      rewrite Kres, Kc. simpl. lia. }
  apply Nat.eqb_eq in E4. destruct (rnd n <? 0).
  - exists res, (S n). split; [done|]. split; [by left|]. rewrite Kres, Kc. simpl. lia.
  - exists c, (S n). split; [done|]. split; [by right|]. rewrite Kres, Kc. simpl. lia.
Qed.

Lemma chooseLoop_min st l c n :
  c ≠ ""%string → is_Some (userPicks st !! c) →
  (∀ u, u ∈ l → u ≠ ""%string ∧ is_Some (userPicks st !! u)) →
  ∃ w n', chooseLoop rnd localDay st (Some c, n) l = Some (Some w, n') ∧
    w ∈ c :: l ∧ Planner.keyLe (rankKey localDay st w) (rankKey localDay st c) ∧
    ∀ x, x ∈ l → Planner.keyLe (rankKey localDay st w) (rankKey localDay st x).
Proof.
  revert c n. induction l as [|res l IH]; intros c n Hc Hdef Hl; cbn [chooseLoop].
  - exists c, n. split; [done|]. split; [set_solver|]. split; [apply PlannerFacts.keyLe_refl|].
    intros x Hx. by apply elem_of_nil in Hx.
  - destruct (Hl res ltac:(set_solver)) as [Hres1 Hres2].
    destruct (chooseStep_min st c n res Hc Hdef Hres2) as (w1&n1&E1&Hw1&Hk1&Hk2).
    rewrite E1. cbn [mbind option_bind].
    destruct (IH w1 n1) as (w&n'&E&Hw&Hk&Hall).
    { by destruct Hw1 as [-> | ->]. }
    { by destruct Hw1 as [-> | ->]. }
    { intros; apply Hl; set_solver. }
    exists w, n'. split; [done|]. split.
    { apply elem_of_cons in Hw as [->|Hw]; [destruct Hw1 as [-> | ->]|]; set_solver. }
    split; [by eapply PlannerFacts.keyLe_trans|].
    intros x [->|Hx]%elem_of_cons; [by eapply PlannerFacts.keyLe_trans|by apply Hall].
Qed.

(** The shift at a given place of the registry, after the first loop. *)
Lemma keepChosen_at st pre s post n l' n' :
  (∀ s0 u, s0 ∈ pre ++ s :: post → u ∈ assigned s0 →
           u ≠ ""%string ∧ is_Some (userPicks st !! u)) →
  keepChosen rnd localDay st (pre ++ s :: post) n = Some (l', n') →
  (1 < length (assigned s))%nat →
  ∃ w, l' !! length pre = Some (mkShift (shiftId s) (date s) (type s) [w]) ∧
    w ∈ assigned s ∧
    ∀ r, r ∈ assigned s → Planner.keyLe (rankKey localDay st w) (rankKey localDay st r).
Proof.
  revert n l'. induction pre as [|p pre IH]; intros n l' Hdef E Hlen.
  - cbn [app keepChosen] in E. rewrite decide_False in E by lia.
    destruct (assigned s) as [|a rest] eqn:Ea; [simpl in Hlen; lia|].
    cbn [chooseLoop chooseStep mbind option_bind] in E.
    destruct (Hdef s a) as [Ha1 Ha2]; [set_solver|rewrite Ea; set_solver|].
    destruct (chooseLoop_min st rest a n Ha1 Ha2) as (w&n1&E1&Hw&Hk&Hall).
    { intros u Hu. apply (Hdef s); [set_solver|rewrite Ea; set_solver]. }
    rewrite E1 in E. cbn [mbind option_bind] in E.
    destruct (keepChosen rnd localDay st post n1) as [[r n2]|]; [|done].
    cbn [mbind option_bind] in E. injection E as <- <-.
    exists w. split; [done|]. split; [done|].
    intros r0 [->|Hr]%elem_of_cons; [done|by apply Hall].
  - cbn [app keepChosen] in E.
    assert (∀ s0 u, s0 ∈ pre ++ s :: post → u ∈ assigned s0 →
                    u ≠ ""%string ∧ is_Some (userPicks st !! u)) as Hdef'.
    { intros s0 u Hs0. apply Hdef. set_solver. }
    destruct (decide (length (assigned p) ≤ 1)%nat).
    + destruct (keepChosen rnd localDay st (pre ++ s :: post) n) as [[r n2]|] eqn:E2; [|done].
      cbn [mbind option_bind] in E. injection E as <- <-.
      by apply (IH n r).
    + destruct (chooseLoop rnd localDay st (None, n) (assigned p)) as [[ch n1]|]; [|done].
      cbn [mbind option_bind] in E.
      destruct (keepChosen rnd localDay st (pre ++ s :: post) n1) as [[r n2]|] eqn:E2; [|done].
      cbn [mbind option_bind] in E. injection E as <- <-.
      by apply (IH n1 r).
Qed.

End Rank.
End RankFacts.

Module LegacyResolving.
Import JS Legacy LegacyFacts LegacyPage RankFacts Examples.

(** X7. [resolveConflicts] of [script.js] on consistent bookkeeping: it
    returns, and a shift with more than one claimant is left, at its place in
    the registry, with exactly one of them, whose key (Monday/Friday count
    first, then number of claims), read before the pass, is the smallest
    among the claimants in lexicographic order. *)
Theorem X7_legacy_winner_has_smallest_rank_key (rnd : nat → Z) (localDay : string → option Z)
    (st : State) (n : nat) pre s post :
  consistent st → shifts st = pre ++ s :: post → (1 < length (assigned s))%nat →
  ∃ st' n' w, resolveConflicts rnd localDay st n = Some (st', n') ∧
    shifts st' !! length pre = Some (mkShift (shiftId s) (date s) (type s) [w]) ∧
    w ∈ assigned s ∧
    ∀ r, r ∈ assigned s →
         Planner.keyLe (rankKey localDay st w) (rankKey localDay st r).
Proof.
  intros Hc Hsplit Hlen.
  destruct (resolveConflicts_spec rnd localDay st n Hc) as (st'&n'&E&_).
  pose proof E as E'. unfold resolveConflicts in E'.
  destruct (keepChosen rnd localDay st (shifts st) n) as [[l' n1]|] eqn:Ek; [|done].
  cbn [mbind option_bind] in E'.
  destruct (rebuildPicks l' _) as [p|]; [|done]. cbn [mbind option_bind] in E'.
  injection E' as <- <-. rewrite Hsplit in Ek.
  destruct (keepChosen_at rnd localDay st pre s post n l' n1) as (w&Hw1&Hw2&Hw3); try done.
  { intros s0 u Hs0 Hu. rewrite <- Hsplit in Hs0.
    pose proof (consistent_assigned_defined st s0 u Hc Hs0 Hu) as Hd. split; [|done].
    apply users_nonempty. by apply (cons_dom st Hc). }
  eexists _, n1, w. split; [exact E|]. by split.
Qed.

Lemma X7_witness :
  ∃ post st' n' w,
    shifts L.contested = mkShift L.wed "2025-09-03" "Puerta" [A; B] :: post ∧
    resolveConflicts rnd0 noLocalDay L.contested 0 = Some (st', n') ∧
    shifts st' !! 0%nat = Some (mkShift L.wed "2025-09-03" "Puerta" [w]) ∧
    w ∈ [A; B] ∧
    ∀ r, r ∈ [A; B] →
         Planner.keyLe (rankKey noLocalDay L.contested w) (rankKey noLocalDay L.contested r).
Proof.
  eexists (tail (shifts L.contested)).
  destruct (X7_legacy_winner_has_smallest_rank_key rnd0 noLocalDay L.contested 0 []
              (mkShift L.wed "2025-09-03" "Puerta" [A; B]) (tail (shifts L.contested)))
    as (st' & n' & w & H).
  - apply (LegacyRuns.run_consistent rnd0 noLocalDay L.contestedEvents (initialState, 0%nat)),
      initial_consistent.
  - by vm_compute.
  - cbn [assigned length]. lia.
  - exists st', n', w. split; [by vm_compute|exact H].
Defined.

(** X8. [resolveConflicts] of [script.js] on consistent bookkeeping only
    takes claims away: the lock flags and the current user are unchanged, no
    user ends with a claim the user did not have, every shift keeps its
    place, id, date and type, its claimants afterwards were claimants before,
    and a shift that had a claimant still has exactly one. *)
Theorem X8_legacy_resolve_only_removes (rnd : nat → Z) (localDay : string → option Z)
    (st : State) (n : nat) :
  consistent st →
  ∃ st' n', resolveConflicts rnd localDay st n = Some (st', n') ∧
    finishedUsers st' = finishedUsers st ∧ currentUser st' = currentUser st ∧
    (∀ u x, x ∈ picksOf st' u → x ∈ picksOf st u) ∧
    Forall2 (λ s s', shiftId s' = shiftId s ∧ date s' = date s ∧ type s' = type s ∧
                     (∀ u, u ∈ assigned s' → u ∈ assigned s) ∧
                     (assigned s ≠ [] → ∃ w, assigned s' = [w]))
      (shifts st) (shifts st').
Proof.
  intros Hc.
  destruct (resolveConflicts_spec rnd localDay st n Hc)
    as (st'&n'&E&_&HF&Hle&_&_&Hf&Hcu&Hc').
  exists st', n'. split; [done|]. split; [done|]. split; [done|]. split.
  - intros u x Hx. destruct (cons_reg st' Hc' u x Hx) as (s'&Hs'&<-).
    apply (cons_sync st' Hc' s' u Hs') in Hx.
    destruct (kept_subset _ _ s' u HF Hs' Hx) as (s&Hs&Hi&Hu).
    rewrite <- Hi. by apply (cons_sync st Hc s u Hs).
  - eapply Forall2_impl; [exact HF|]. intros s s' (Hi&Hd&Ht&Hk).
    split; [done|]. split; [done|]. split; [done|].
    destruct Hk as [[Hlen ->]|[Hlen (c&Hc1&Hc2)]].
    + split; [done|]. intros Hne. destruct (assigned s) as [|a [|b t]]; [done|eauto|].
      simpl in Hlen. lia.
    + split; [|eauto]. intros u. rewrite Hc2. by intros ->%list_elem_of_singleton.
Qed.

Lemma X8_witness :
  ∃ st' n', resolveConflicts rnd0 noLocalDay L.threeContested 0 = Some (st', n') ∧
    finishedUsers st' = finishedUsers L.threeContested ∧
    currentUser st' = currentUser L.threeContested ∧
    (∀ u x, x ∈ picksOf st' u → x ∈ picksOf L.threeContested u) ∧
    Forall2 (λ s s', shiftId s' = shiftId s ∧ date s' = date s ∧ type s' = type s ∧
                     (∀ u, u ∈ assigned s' → u ∈ assigned s) ∧
                     (assigned s ≠ [] → ∃ w, assigned s' = [w]))
      (shifts L.threeContested) (shifts st').
Proof.
  apply (X8_legacy_resolve_only_removes rnd0 noLocalDay L.threeContested 0).
  unfold L.threeContested, L.start.
  apply LegacyRuns.run_consistent, initial_consistent.
Defined.

End LegacyResolving.

(** ** The first version *)
Module RebuildFacts.
Import JS Legacy LegacyFacts ListFacts.

(** Rebuilding the claim lists from shifts that kept at most one of their
    residents gives consistent bookkeeping again. *)
Lemma rebuild_after_kept st l' f c :
  consistent st → Forall2 kept (shifts st) l' →
  ∃ p', rebuildPicks l' (clearPicks (userPicks st)) = Some p' ∧
    (∀ u, u ∈ users →
       p' !! u = Some (shiftId <$> filter (λ s, u ∈ assigned s) l')) ∧
    (∀ s, s ∈ l' → (length (assigned s) ≤ 1)%nat) ∧
    consistent (mkState l' p' f c).
Proof.
  intros Hc HF.
  assert (∀ s, s ∈ l' → (length (assigned s) ≤ 1)%nat) as Hle.
  { intros s'. by apply (kept_at_most_one (shifts st)). }
  assert (∀ s u, s ∈ l' → u ∈ assigned s → u ∈ users) as Husers.
  { intros s' u Hs' Hu. destruct (kept_subset _ _ _ _ HF Hs' Hu) as (s&Hs&_&Hus).
    apply (cons_dom st Hc). by eapply consistent_assigned_defined. }
  destruct (rebuildPicks_spec l' (clearPicks (userPicks st)) Hle) as (p'&Ep&Lp).
  { intros s u Hs Hu. rewrite clearPicks_lookup, decide_True; [eauto|]. by eapply Husers. }
  assert (∀ u, u ∈ users →
            p' !! u = Some (shiftId <$> filter (λ s, u ∈ assigned s) l')) as Hin.
  { intros u Hu. by rewrite Lp, clearPicks_lookup, decide_True. }
  assert (∀ u, u ∉ users → p' !! u = None) as Hout.
  { intros u Hu. rewrite Lp, clearPicks_lookup, decide_False by done.
    destruct (userPicks st !! u) eqn:Eu; [|done].
    exfalso. apply Hu, (cons_dom st Hc). eauto. }
  exists p'. split; [done|]. split; [done|]. split; [done|].
  assert (NoDup (shiftId <$> l')) as Hids'.
  { rewrite (kept_ids _ _ HF). apply Hc. }
  split; cbn [shifts userPicks].
  - done.
  - intros u. destruct (decide (u ∈ users)) as [Hu|Hu].
    + rewrite (Hin u Hu). split; eauto.
    + rewrite (Hout u Hu). split; [by intros [? ?]|done].
  - intros s' u Hs'. unfold picksOf. cbn [userPicks].
    destruct (decide (u ∈ users)) as [Hu|Hu].
    + rewrite (Hin u Hu). simpl. split.
      * intros Ha. apply list_elem_of_fmap. exists s'. split; [done|].
        by apply list_elem_of_filter.
      * intros (s''&Hid&[Ha Hs'']%list_elem_of_filter)%list_elem_of_fmap.
        by rewrite (NoDup_fmap_inj shiftId l' s' s'' Hids' Hs' Hs'' Hid).
    + rewrite (Hout u Hu). simpl. split; [|by intros H%elem_of_nil].
      intros Ha. exfalso. apply Hu. by eapply Husers.
  - intros u l. destruct (decide (u ∈ users)) as [Hu|Hu].
    + rewrite (Hin u Hu). intros [= <-]. by apply NoDup_fmap_filter.
    + by rewrite (Hout u Hu).
  - intros u x. unfold picksOf. cbn [userPicks].
    destruct (decide (u ∈ users)) as [Hu|Hu].
    + rewrite (Hin u Hu). simpl.
      intros (s'&->&[_ Hs']%list_elem_of_filter)%list_elem_of_fmap. eauto.
    + rewrite (Hout u Hu). simpl. by intros H%elem_of_nil.
Qed.

(** A pass that keeps claims only where they were: no list gets longer. *)
Lemma kept_picks_shorter st st' :
  consistent st → consistent st' → Forall2 kept (shifts st) (shifts st') →
  ∀ u, (∀ x, x ∈ picksOf st' u → x ∈ picksOf st u) ∧
       (length (picksOf st' u) ≤ length (picksOf st u))%nat.
Proof.
  intros Hc Hc' HF u.
  assert (∀ x, x ∈ picksOf st' u → x ∈ picksOf st u) as Hsub.
  { intros x Hx. destruct (cons_reg st' Hc' u x Hx) as (s'&Hs'&<-).
    apply (cons_sync st' Hc' s' u Hs') in Hx.
    destruct (kept_subset _ _ s' u HF Hs' Hx) as (s&Hs&Hi&Hu).
    rewrite <- Hi. by apply (cons_sync st Hc s u Hs). }
  split; [done|]. apply submseteq_length, NoDup_submseteq; [|done].
  unfold picksOf. destruct (userPicks st' !! u) as [l|] eqn:E; [|constructor].
  by apply (cons_nodup st' Hc' u).
Qed.

End RebuildFacts.

Module OriginalFacts.
Import JS Legacy LegacyFacts ListFacts RebuildFacts Original.

(** [selectShift] is [handleSelect] without the status line. *)
Lemma selectShift_handleSelect i st :
  selectShift i st = (λ r, (quiet r.1, r.2)) <$> handleSelect i st.
Proof.
  unfold selectShift, handleSelect. destruct (currentUser st) as [cu|]; [|done].
  destruct (decide _); [done|]. destruct (default false _); [done|].
  destruct (findShift st i) as [shift|]; [|done].
  destruct (includes _ _); destruct (userPicks st !! cu) as [l|]; try done.
  cbn [mbind option_bind]. by destruct (_ >=? _).
Qed.

Lemma selectShift_consistent i st fb st' :
  consistent st → selectShift i st = Some (fb, st') → consistent st'.
Proof.
  intros Hc. rewrite selectShift_handleSelect.
  destruct (handleSelect i st) as [[fb0 st0]|] eqn:E; [|done]. intros [= _ <-].
  eapply selected_consistent; [done|]. by eapply handleSelect_cases.
Qed.

Lemma selectShift_quota i st fb st' :
  withinQuota st → selectShift i st = Some (fb, st') → withinQuota st'.
Proof.
  intros Hq. rewrite selectShift_handleSelect.
  destruct (handleSelect i st) as [[fb0 st0]|] eqn:E; [|done]. intros [= _ <-].
  eapply selected_quota; [done|]. by eapply handleSelect_cases.
Qed.

(** The inner loop: [seenA ++ chosen :: seenB] is what has been visited. *)
Lemma chooseFewest_first st l seenA c seenB :
  (∀ r, r ∈ seenA → (claims st c < claims st r)%nat) →
  (∀ r, r ∈ seenB → (claims st c ≤ claims st r)%nat) →
  is_Some (userPicks st !! c) → (∀ u, u ∈ l → is_Some (userPicks st !! u)) →
  ∃ a w b, chooseFewest st c l = Some w ∧
    seenA ++ c :: seenB ++ l = a ++ w :: b ∧
    (∀ r, r ∈ a → (claims st w < claims st r)%nat) ∧
    (∀ r, r ∈ b → (claims st w ≤ claims st r)%nat).
Proof.
  revert seenA c seenB. induction l as [|res l IH]; intros seenA c seenB HA HB Hc Hl;
    cbn [chooseFewest].
  - exists seenA, c, seenB. rewrite app_nil_r. by repeat split.
  - destruct (Hl res ltac:(set_solver)) as [la Hla]. destruct Hc as [lb Hlb].
    rewrite Hla, Hlb. cbn [mbind option_bind].
    assert (claims st res = length la) as Kr by (unfold claims, picksOf; by rewrite Hla).
    assert (claims st c = length lb) as Kc by (unfold claims, picksOf; by rewrite Hlb).
    destruct (length la <? length lb)%nat eqn:E.
    + apply Nat.ltb_lt in E.
      destruct (IH (seenA ++ c :: seenB) res []) as (a&w&b&E1&E2&H1&H2).
      { intros r [Hr|[->|Hr]%elem_of_cons]%elem_of_app.
        - specialize (HA r Hr). lia.
        - lia.
        - specialize (HB r Hr). lia. }
      { intros r Hr. by apply elem_of_nil in Hr. }
      { eauto. }
      { intros; apply Hl; set_solver. }
      exists a, w, b. split; [done|]. split; [|done].
      rewrite <- E2. cbn [app]. by rewrite <- app_assoc.
    + apply Nat.ltb_ge in E.
      destruct (IH seenA c (seenB ++ [res])) as (a&w&b&E1&E2&H1&H2).
      { done. }
      { intros r [Hr|Hr]%elem_of_app; [by apply HB|].
        apply list_elem_of_singleton in Hr as ->. lia. }
      { eauto. }
      { intros; apply Hl; set_solver. }
      exists a, w, b. split; [done|]. split; [|done].
      rewrite <- E2. by rewrite <- app_assoc.
Qed.

Lemma keepFewest_kept st l :
  (∀ s u, s ∈ l → u ∈ assigned s → is_Some (userPicks st !! u)) →
  ∃ l', keepFewest st l = Some l' ∧ Forall2 kept l l'.
Proof.
  induction l as [|s l IH]; intros Hdef; cbn [keepFewest].
  - exists []. split; [done|]. constructor.
  - destruct IH as (l'&E&HF); [intros; eapply Hdef; [|done]; set_solver|].
    rewrite E. destruct (decide (length (assigned s) ≤ 1)%nat) as [Hle|Hgt].
    + cbn [mbind option_bind]. exists (s :: l'). split; [done|]. constructor; [|done].
      split; [done|]. split; [done|]. split; [done|]. by left.
    + destruct (assigned s) as [|a rest] eqn:Ea; [simpl in Hgt; lia|].
      cbn [head mbind option_bind].
      destruct (chooseFewest_first st (a :: rest) [] a []) as (x&w&y&E1&E2&_).
      { intros r Hr. by apply elem_of_nil in Hr. }
      { intros r Hr. by apply elem_of_nil in Hr. }
      { apply (Hdef s); [set_solver|rewrite Ea; set_solver]. }
      { intros u Hu. apply (Hdef s); [set_solver|by rewrite Ea]. }
      rewrite E1. cbn [mbind option_bind]. eexists. split; [done|]. constructor; [|done].
      split; [done|]. split; [done|]. split; [done|]. right. rewrite Ea. split; [simpl in *; lia|].
      exists w. split; [|done].
      assert (w ∈ a :: a :: rest) as Hw by (cbn [app] in E2; rewrite E2; set_solver).
      set_solver.
Qed.

(** The first element is visited twice (as [chosen] and as the first
    [res]); that changes nothing. *)
Lemma chooseFewest_head st a rest :
  is_Some (userPicks st !! a) →
  chooseFewest st a (a :: rest) = chooseFewest st a rest.
Proof.
  intros [la Hla]. cbn [chooseFewest]. rewrite Hla. cbn [mbind option_bind].
  by rewrite Nat.ltb_irrefl.
Qed.

Lemma keepFewest_at st pre s post l' :
  (∀ s0 u, s0 ∈ pre ++ s :: post → u ∈ assigned s0 → is_Some (userPicks st !! u)) →
  keepFewest st (pre ++ s :: post) = Some l' →
  (1 < length (assigned s))%nat →
  ∃ a w b, assigned s = a ++ w :: b ∧
    l' !! length pre = Some (mkShift (shiftId s) (date s) (type s) [w]) ∧
    (∀ r, r ∈ a → (claims st w < claims st r)%nat) ∧
    (∀ r, r ∈ b → (claims st w ≤ claims st r)%nat).
Proof.
  revert l'. induction pre as [|p pre IH]; intros l' Hdef E Hlen.
  - cbn [app keepFewest] in E. rewrite decide_False in E by lia.
    destruct (assigned s) as [|a0 rest] eqn:Ea; [simpl in Hlen; lia|].
    cbn [head mbind option_bind] in E.
    assert (is_Some (userPicks st !! a0)) as Ha0.
    { apply (Hdef s); [set_solver|rewrite Ea; set_solver]. }
    rewrite chooseFewest_head in E by done.
    destruct (chooseFewest_first st rest [] a0 []) as (a&w&b&E1&E2&H1&H2).
    { intros r Hr. by apply elem_of_nil in Hr. }
    { intros r Hr. by apply elem_of_nil in Hr. }
    { done. }
    { intros u Hu. apply (Hdef s); [set_solver|rewrite Ea; set_solver]. }
    rewrite E1 in E. cbn [mbind option_bind] in E.
    destruct (keepFewest st post) as [r|]; [|done]. cbn [mbind option_bind] in E.
    injection E as <-. exists a, w, b. cbn [app] in E2. by rewrite E2.
  - cbn [app keepFewest] in E.
    assert (∀ s0 u, s0 ∈ pre ++ s :: post → u ∈ assigned s0 →
                    is_Some (userPicks st !! u)) as Hdef'.
    { intros s0 u Hs0. apply Hdef. set_solver. }
    destruct (decide (length (assigned p) ≤ 1)%nat).
    + destruct (keepFewest st (pre ++ s :: post)) as [r|] eqn:E2; [|done].
      cbn [mbind option_bind] in E. injection E as <-. by apply (IH r).
    + destruct (head (assigned p)) as [f0|]; [|done]. cbn [mbind option_bind] in E.
      destruct (chooseFewest st f0 (assigned p)) as [ch|]; [|done].
      cbn [mbind option_bind] in E.
      destruct (keepFewest st (pre ++ s :: post)) as [r|] eqn:E2; [|done].
      cbn [mbind option_bind] in E. injection E as <-. by apply (IH r).
Qed.

Lemma original_resolve_ok st :
  consistent st →
  ∃ st', resolveConflicts st = Some st' ∧
    Forall2 kept (shifts st) (shifts st') ∧
    (∀ s, s ∈ shifts st' → (length (assigned s) ≤ 1)%nat) ∧
    finishedUsers st' = finishedUsers st ∧ currentUser st' = currentUser st ∧
    consistent st'.
Proof.
  intros Hc. unfold resolveConflicts.
  destruct (keepFewest_kept st (shifts st)) as (l'&E&HF).
  { intros s u. by apply consistent_assigned_defined. }
  rewrite E. cbn [mbind option_bind].
  destruct (rebuild_after_kept st l' (finishedUsers st) (currentUser st) Hc HF)
    as (p'&Ep&_&Hle&Hc').
  rewrite Ep. cbn [mbind option_bind]. eexists. split; [done|].
  cbn [shifts finishedUsers currentUser]. split; [done|]. split; [done|]. by split.
Qed.

Lemma original_initial_consistent : consistent initialState.
Proof.
  split; cbn [initialState shifts userPicks].
  - refine (bool_decide_unpack _ _). by vm_compute.
  - intros u. rewrite clearPicks_lookup. destruct (decide _); [by split; eauto|].
    rewrite lookup_empty. split; [by intros [? ?]|done].
  - intros s u Hs. unfold picksOf. cbn [initialState userPicks]. rewrite clearPicks_lookup.
    assert (Forall (λ s, assigned s = []) initialShifts) as H.
    { refine (bool_decide_unpack _ _). by vm_compute. }
    rewrite Forall_forall in H. rewrite (H s Hs).
    destruct (decide _); simpl; [|rewrite lookup_empty; simpl]; set_solver.
  - intros u l. rewrite clearPicks_lookup. destruct (decide _).
    + intros [= <-]. constructor.
    + by rewrite lookup_empty.
  - intros u x. unfold picksOf. cbn [initialState userPicks].
    rewrite clearPicks_lookup. destruct (decide _); simpl.
    + intros H. by apply elem_of_nil in H.
    + rewrite lookup_empty. simpl. intros H. by apply elem_of_nil in H.
Qed.

Lemma original_initial_quota : withinQuota initialState.
Proof.
  intros u l. cbn [initialState userPicks]. rewrite clearPicks_lookup.
  destruct (decide _); [intros [= <-]; by vm_compute|by rewrite lookup_empty].
Qed.

Lemma original_step_ok e st :
  consistent st ∧ withinQuota st → consistent (step e st) ∧ withinQuota (step e st).
Proof.
  intros [Hc Hq]. destruct e as [u|i| |]; cbn [step].
  - split; [by apply LegacyRuns.login_consistent|by apply LegacyRuns.login_quota].
  - destruct (selectShift i st) as [[fb st']|] eqn:E; [|done]. split.
    + by eapply selectShift_consistent.
    + by eapply selectShift_quota.
  - split; [by apply LegacyRuns.finishSelection_consistent|].
    unfold finishSelection. destruct (currentUser st); [|done]. by destruct (decide _).
  - destruct (original_resolve_ok st Hc) as (st'&E&HF&_&_&_&Hc'). rewrite E.
    split; [done|]. intros u l Hl.
    pose proof (kept_picks_shorter st st' Hc Hc' HF u) as [_ Hlen].
    unfold picksOf in Hlen. rewrite Hl in Hlen. simpl in Hlen.
    destruct (userPicks st !! u) as [l0|] eqn:E0; simpl in Hlen.
    + specialize (Hq u l0 E0). lia.
    + assert (length l = 0%nat) as -> by lia. by vm_compute.
Qed.

Lemma original_run_ok es st :
  consistent st ∧ withinQuota st → consistent (run es st) ∧ withinQuota (run es st).
Proof.
  revert st. induction es as [|e es IH]; intros st H; [done|].
  unfold run. cbn [fold_left]. apply IH. by apply original_step_ok.
Qed.

End OriginalFacts.

Module FirstVersion.
Import JS Legacy LegacyFacts RebuildFacts Original OriginalFacts.

(** X11. [resolveConflicts] of the first version on consistent
    bookkeeping: it returns, and a shift with more than one claimant is left
    with the first, in the order of [shift.assigned], of the claimants with
    the fewest claims: everybody listed before the winner has strictly more
    claims, everybody listed after has at least as many. *)
Theorem X11_original_winner_is_first_with_fewest_claims (st : State) pre s post :
  consistent st → shifts st = pre ++ s :: post → (1 < length (assigned s))%nat →
  ∃ st' a w b, resolveConflicts st = Some st' ∧
    assigned s = a ++ w :: b ∧
    shifts st' !! length pre = Some (mkShift (shiftId s) (date s) (type s) [w]) ∧
    (∀ r, r ∈ a → (claims st w < claims st r)%nat) ∧
    (∀ r, r ∈ b → (claims st w ≤ claims st r)%nat).
Proof.
  intros Hc Hsplit Hlen.
  destruct (original_resolve_ok st Hc) as (st'&E&_).
  pose proof E as E'. unfold resolveConflicts in E'.
  destruct (keepFewest st (shifts st)) as [l'|] eqn:Ek; [|done].
  cbn [mbind option_bind] in E'.
  destruct (rebuildPicks l' _) as [p|]; [|done]. cbn [mbind option_bind] in E'.
  injection E' as <-. rewrite Hsplit in Ek.
  destruct (keepFewest_at st pre s post l') as (a&w&b&H1&H2&H3&H4); try done.
  { intros s0 u Hs0 Hu. rewrite <- Hsplit in Hs0.
    by apply (consistent_assigned_defined st s0 u Hc Hs0 Hu). }
  eexists _, a, w, b. split; [exact E|]. by repeat split.
Qed.

Lemma X11_witness :
  let st := run [EvLogin "Resident 2"; EvSelect "2025-09-01-puerta";
                 EvSelect "2025-09-08-puerta";
                 EvLogin "Resident 1"; EvSelect "2025-09-01-puerta"] initialState in
  ∃ post st' a w b,
    shifts st =
      mkShift "2025-09-01-puerta" "2025-09-01" "Puerta" ["Resident 2"; "Resident 1"]
        :: post ∧
    resolveConflicts st = Some st' ∧
    ["Resident 2"; "Resident 1"]%string = a ++ w :: b ∧
    shifts st' !! 0%nat = Some (mkShift "2025-09-01-puerta" "2025-09-01" "Puerta" [w]) ∧
    (∀ r, r ∈ a → (claims st w < claims st r)%nat) ∧
    (∀ r, r ∈ b → (claims st w ≤ claims st r)%nat).
Proof.
  intros st. exists (tail (shifts st)).
  destruct (X11_original_winner_is_first_with_fewest_claims st []
              (mkShift "2025-09-01-puerta" "2025-09-01" "Puerta"
                 ["Resident 2"; "Resident 1"]%string)
              (tail (shifts st))) as (st' & a & w & b & H).
  - apply (original_run_ok _ initialState).
    split; [apply original_initial_consistent|apply original_initial_quota].
  - by vm_compute.
  - cbn [assigned length]. lia.
  - exists st', a, w, b. split; [by vm_compute|exact H].
Defined.

(** X12. In the first version, after any sequence of logins, selections,
    finishes and resolutions from the initial sixteen shifts, the bookkeeping
    is consistent ([shift.assigned] and [userPicks] agree), nobody holds more
    than [maxShiftsPerUser] shifts, and [resolveConflicts] returns a state in
    which no shift has more than one claimant. *)
Theorem X12_original_bookkeeping_invariant (es : list Event) :
  consistent (run es initialState) ∧ withinQuota (run es initialState) ∧
  ∃ st', resolveConflicts (run es initialState) = Some st' ∧
    ∀ s, s ∈ shifts st' → (length (assigned s) ≤ 1)%nat.
Proof.
  destruct (original_run_ok es initialState) as [Hc Hq].
  { split; [apply original_initial_consistent|apply original_initial_quota]. }
  split; [done|]. split; [done|].
  destruct (original_resolve_ok _ Hc) as (st'&E&_&Hle&_). by exists st'.
Qed.

End FirstVersion.

(** ** The clean version *)
Module HydrateFacts.
Import JS Planner PlannerFacts.

Lemma hydrate_fold rs st :
  let st' := fold_left hydrateOne rs st in
  setupDone st' = setupDone st ∧ config st' = config st ∧
  residents st' = residents st ∧ shifts st' = shifts st ∧
  (∀ r, picks st' !! r =
        match picks st !! r with
        | Some l => Some l
        | None => if decide (r ∈ rs) then Some [] else None
        end) ∧
  (∀ r, finished st' !! r =
        match finished st !! r with
        | Some b => Some b
        | None => if decide (r ∈ rs) then Some false else None
        end).
Proof.
  revert st. induction rs as [|a rs IH]; intros st; cbn [fold_left].
  - repeat split; intros r.
    + destruct (picks st !! r); [done|]. rewrite decide_False; [done|set_solver].
    + destruct (finished st !! r); [done|]. rewrite decide_False; [done|set_solver].
  - destruct (IH (hydrateOne st a)) as (H1&H2&H3&H4&H5&H6).
    split; [done|]. split; [done|]. split; [done|]. split; [done|]. split.
    + intros r. rewrite H5. unfold hydrateOne. cbn [picks].
      destruct (picks st !! a) as [la|] eqn:Ea.
      * destruct (picks st !! r) as [l|] eqn:Er; [done|].
        destruct (decide (r ∈ rs)) as [Hr|Hr].
        -- rewrite decide_True; [done|set_solver].
        -- destruct (decide (r ∈ a :: rs)) as [Hr'|Hr']; [|done].
           apply elem_of_cons in Hr' as [->|?]; [congruence|done].
      * destruct (decide (a = r)) as [->|Hne].
        -- rewrite lookup_insert_eq, Ea. rewrite decide_True; [done|set_solver].
        -- rewrite lookup_insert_ne by done. destruct (picks st !! r); [done|].
           destruct (decide (r ∈ rs)) as [Hr|Hr].
           ++ rewrite decide_True; [done|set_solver].
           ++ rewrite decide_False; [done|set_solver].
    + intros r. rewrite H6. unfold hydrateOne. cbn [finished].
      destruct (finished st !! a) as [la|] eqn:Ea.
      * destruct (finished st !! r) as [l|] eqn:Er; [done|].
        destruct (decide (r ∈ rs)) as [Hr|Hr].
        -- rewrite decide_True; [done|set_solver].
        -- destruct (decide (r ∈ a :: rs)) as [Hr'|Hr']; [|done].
           apply elem_of_cons in Hr' as [->|?]; [congruence|done].
      * destruct (decide (a = r)) as [->|Hne].
        -- rewrite lookup_insert_eq, Ea. rewrite decide_True; [done|set_solver].
        -- rewrite lookup_insert_ne by done. destruct (finished st !! r); [done|].
           destruct (decide (r ∈ rs)) as [Hr|Hr].
           ++ rewrite decide_True; [done|set_solver].
           ++ rewrite decide_False; [done|set_solver].
Qed.

Lemma hydrateResidents_lookup st :
  setupDone (hydrateResidents st) = setupDone st ∧
  config (hydrateResidents st) = config st ∧
  residents (hydrateResidents st) = residents st ∧
  shifts (hydrateResidents st) = shifts st ∧
  (∀ r, picks (hydrateResidents st) !! r =
        match picks st !! r with
        | Some l => Some l
        | None => if decide (r ∈ residents st) then Some [] else None
        end) ∧
  (∀ r, finished (hydrateResidents st) !! r =
        match finished st !! r with
        | Some b => Some b
        | None => if decide (r ∈ residents st) then Some false else None
        end).
Proof. apply hydrate_fold. Qed.

Lemma state_ext (st st' : State) :
  setupDone st' = setupDone st → config st' = config st →
  residents st' = residents st → shifts st' = shifts st →
  picks st' = picks st → finished st' = finished st → st' = st.
Proof. destruct st, st'. simpl. by intros -> -> -> -> -> ->. Qed.

End HydrateFacts.

Module Hydrating.
Import JS JSText Planner PlannerFacts HydrateFacts.

(** X14. [hydrateResidents], for residents whose names are not names of
    members of [Object.prototype]: afterwards every resident has a claim list
    and a lock flag; the lists and flags that existed are kept, the missing
    ones are the empty list and [false]; nothing is recorded for anybody who
    is not a resident; the rest of the state is unchanged; and running it
    again changes nothing. *)
Theorem X14_hydrateResidents_completes_and_keeps (st : State) :
  plainNames (residents st) →
  hydrated (hydrateResidents st) ∧
  (∀ r, r ∈ residents st → is_Some (finished (hydrateResidents st) !! r)) ∧
  (∀ r l, picks st !! r = Some l → picks (hydrateResidents st) !! r = Some l) ∧
  (∀ r b, finished st !! r = Some b → finished (hydrateResidents st) !! r = Some b) ∧
  (∀ r, r ∈ residents st → picks st !! r = None →
        picks (hydrateResidents st) !! r = Some []) ∧
  (∀ r, r ∈ residents st → finished st !! r = None →
        finished (hydrateResidents st) !! r = Some false) ∧
  (∀ r, r ∉ residents st →
        picks (hydrateResidents st) !! r = picks st !! r ∧
        finished (hydrateResidents st) !! r = finished st !! r) ∧
  setupDone (hydrateResidents st) = setupDone st ∧
  config (hydrateResidents st) = config st ∧
  residents (hydrateResidents st) = residents st ∧
  shifts (hydrateResidents st) = shifts st ∧
  hydrateResidents (hydrateResidents st) = hydrateResidents st.
Proof.
  intros _.
  destruct (hydrateResidents_lookup st) as (H1&H2&H3&H4&H5&H6).
  split; [|split; [|split; [|split; [|split; [|split; [|split; [|split; [|split; [|split; [|split]]]]]]]]]];
    try done.
  - intros r. rewrite H3. intros Hr. rewrite H5. destruct (picks st !! r); [eauto|].
    rewrite decide_True by done. eauto.
  - intros r Hr. rewrite H6. destruct (finished st !! r); [eauto|].
    rewrite decide_True by done. eauto.
  - intros r l Hl. by rewrite H5, Hl.
  - intros r b Hb. by rewrite H6, Hb.
  - intros r Hr Hn. by rewrite H5, Hn, decide_True.
  - intros r Hr Hn. by rewrite H6, Hn, decide_True.
  - intros r Hr. rewrite H5, H6. split.
    + destruct (picks st !! r); [done|]. by rewrite decide_False.
    + destruct (finished st !! r); [done|]. by rewrite decide_False.
  - destruct (hydrateResidents_lookup (hydrateResidents st)) as (G1&G2&G3&G4&G5&G6).
    apply state_ext; try done.
    + apply map_eq. intros r. rewrite G5, H5, H3.
      destruct (picks st !! r); [done|]. by destruct (decide _).
    + apply map_eq. intros r. rewrite G6, H6, H3.
      destruct (finished st !! r); [done|]. by destruct (decide _).
Qed.

Lemma X14_witness :
  let st := mkState true (mkConfig 4 DEFAULT_TYPES) ["Resident 1"; "Resident 5"]%string []
              {["Resident 1"%string := ["2025-09-01__PUERTA"%string]]} ∅ in
  plainNames (residents st) ∧
  picks (hydrateResidents st) !! "Resident 1"%string = Some ["2025-09-01__PUERTA"%string] ∧
  picks (hydrateResidents st) !! "Resident 5"%string = Some [] ∧
  finished (hydrateResidents st) !! "Resident 1"%string = Some false ∧
  hydrateResidents (hydrateResidents st) = hydrateResidents st.
Proof.
  intros st.
  assert (plainNames (residents st)) as Hp.
  { refine (bool_decide_unpack _ _). by vm_compute. }
  destruct (X14_hydrateResidents_completes_and_keeps st Hp)
    as (_&_&Hkeep&_&Hnew&Hflag&_&_&_&_&_&Hidem).
  split; [exact Hp|]. split; [|split; [|split]].
  - apply Hkeep. by vm_compute.
  - apply Hnew; [|by vm_compute]. refine (bool_decide_unpack _ _). by vm_compute.
  - apply Hflag; [|by vm_compute]. refine (bool_decide_unpack _ _). by vm_compute.
  - exact Hidem.
Defined.

End Hydrating.

Module StatsFacts.
Import JS Planner PlannerFacts PlannerRuns PlannerPage.

Lemma monfri_fold st ids c :
  c ≤ fold_left
        (λ c i, c + match findShift st i with
                    | Some s => if isMonOrFri (date s) then 1 else 0
                    | None => 0
                    end) ids c
    ≤ c + Z.of_nat (length ids).
Proof.
  revert c. induction ids as [|i ids IH]; intros c; cbn [fold_left length]; [lia|].
  specialize (IH (c + match findShift st i with
                      | Some s => if isMonOrFri (date s) then 1 else 0
                      | None => 0
                      end)).
  destruct (findShift st i) as [s|]; [destruct (isMonOrFri (date s))|]; lia.
Qed.

Lemma statsFor_bounds st name :
  0 ≤ monfri (statsFor st name) ≤ total (statsFor st name) ∧
  total (statsFor st name) = Z.of_nat (length (picksOf st name)).
Proof.
  unfold statsFor. cbn [monfri total]. split; [|done].
  pose proof (monfri_fold st (picksOf st name) 0). lia.
Qed.

Lemma step_config rnd e sn : valid sn.1 → config (step rnd e sn).1 = config sn.1.
Proof.
  intros V. destruct e as [d t| |i|name i|name i|me|me| |]; cbn [step fst snd].
  - unfold addGuardia. destruct (decide _); [done|]. by destruct (existsb _ _).
  - unfold finishSetup. by destruct (decide _).
  - destruct (registered sn.1 i); [|done].
    destruct (removeShift_spec i sn.1 (valid_hydrated _ V)) as (st'&E&_&_&Hc&_).
    by rewrite E.
  - destruct (registered sn.1 i); [|done].
    apply (applyOp_quota (OpClaim name i)). apply V.
  - destruct (registered sn.1 i); [|done].
    apply (applyOp_quota (OpUnclaim name i)). apply V.
  - done.
  - done.
  - destruct (resolveLoop_spec rnd (whoIsAssigned sn.1) (shifts sn.1) sn.1 sn.2
                (covers_whoIsAssigned sn.1)) as (st'&n'&E&_&Hs&_).
    unfold resolveConflictsFair. rewrite E. apply Hs.
  - destruct (randomAssignRemaining_spec rnd sn.1 sn.2 (valid_hydrated _ V)
                (proj2 (valid_residents _ V)) (valid_quota _ V))
      as (st'&n'&E&_&_&(_&Hc&_)&_).
    by rewrite E.
Qed.

Lemma run_config rnd es sn : valid sn.1 → config (run rnd es sn).1 = config sn.1.
Proof.
  revert sn. induction es as [|e es IH]; intros sn V; [done|].
  unfold run. cbn [fold_left]. fold (run rnd es (step rnd e sn)).
  rewrite IH by by apply step_valid. by apply step_config.
Qed.

End StatsFacts.

Module Statistics.
Import JS Planner PlannerFacts PlannerRuns PlannerPage StatsFacts.

(** X15. After any sequence of events from the initial state, [statsFor] of
    a resident has a Monday/Friday count between 0 and the total, a total of
    at most the quota, and the "shifts remaining" shown by [renderPlanning]
    is between 0 and the quota. *)
Theorem X15_stats_are_bounded (rnd : nat → Z) (es : list Event) (name : string) :
  name ∈ residents (run rnd es (initialState, 0%nat)).1 →
  0 ≤ monfri (statsFor (run rnd es (initialState, 0%nat)).1 name)
    ≤ total (statsFor (run rnd es (initialState, 0%nat)).1 name) ∧
  total (statsFor (run rnd es (initialState, 0%nat)).1 name)
    ≤ DEFAULT_SLOTS_PER_RESIDENT ∧
  0 ≤ remaining (run rnd es (initialState, 0%nat)).1 name ≤ DEFAULT_SLOTS_PER_RESIDENT.
Proof.
  intros Hname.
  pose proof (run_valid rnd es (initialState, 0%nat) initial_valid) as V.
  pose proof (run_config rnd es (initialState, 0%nat) initial_valid) as Hc.
  set (st := (run rnd es (initialState, 0%nat)).1) in *.
  unfold remaining. destruct (statsFor_bounds st name) as [Hb Ht]. rewrite Hc.
  change (slotsPerResident (config (initialState, 0%nat).1)) with DEFAULT_SLOTS_PER_RESIDENT.
  destruct (valid_hydrated st V name Hname) as [l E].
  pose proof (valid_quota st V name l E) as Hq. rewrite Hc in Hq.
  change (slotsPerResident (config (initialState, 0%nat).1)) with DEFAULT_SLOTS_PER_RESIDENT in Hq.
  assert (total (statsFor st name) = Z.of_nat (length l)) as Hl.
  { rewrite Ht. unfold picksOf. by rewrite E. }
  lia.
Qed.

Lemma X15_witness :
  let st := (run Examples.rnd0
               [EvAdd "2025-09-01" "Puerta"; EvAdd "2025-09-03" "Puerta";
                EvAdd "2025-09-04" "Puerta"; EvFinishSetup;
                EvClaim Examples.B Examples.P.mon; EvClaim Examples.B Examples.P.wed;
                EvClaim Examples.B Examples.P.thu]
               (initialState, 0%nat)).1 in
  statsFor st Examples.B = mkStats 3 1 ∧
  0 ≤ monfri (statsFor st Examples.B) ≤ total (statsFor st Examples.B) ∧
  total (statsFor st Examples.B) ≤ DEFAULT_SLOTS_PER_RESIDENT ∧
  0 ≤ remaining st Examples.B ≤ DEFAULT_SLOTS_PER_RESIDENT.
Proof.
  intros st. split; [by vm_compute|].
  apply (X15_stats_are_bounded Examples.rnd0
           [EvAdd "2025-09-01" "Puerta"; EvAdd "2025-09-03" "Puerta";
            EvAdd "2025-09-04" "Puerta"; EvFinishSetup;
            EvClaim Examples.B Examples.P.mon; EvClaim Examples.B Examples.P.wed;
            EvClaim Examples.B Examples.P.thu] Examples.B).
  refine (bool_decide_unpack _ _). by vm_compute.
Defined.

End Statistics.

Module RepeatFacts.
Import JS Planner PlannerFacts PlannerRuns PlannerPage.

Lemma noRepeats_picksOf st r : noRepeats st → NoDup (picksOf st r).
Proof.
  intros H. unfold picksOf. destruct (picks st !! r) as [l|] eqn:E; [|constructor].
  by apply (H r).
Qed.

Lemma noRepeats_insert st name l :
  noRepeats st → NoDup l → noRepeats (setPicks st (<[name := l]> (picks st))).
Proof.
  intros H Hl r l'. cbn [picks setPicks]. destruct (decide (name = r)) as [->|Hne].
  - rewrite lookup_insert_eq. by intros [= <-].
  - rewrite lookup_insert_ne by done. apply H.
Qed.

Lemma noRepeats_shrinks st st' : shrinks st st' → noRepeats st → noRepeats st'.
Proof.
  intros (_&_&Hsub) H r l' Hl'. specialize (Hsub r).
  pose proof (noRepeats_picksOf st r H) as Hnd.
  unfold picksOf at 1 in Hsub. rewrite Hl' in Hsub. simpl in Hsub.
  by eapply sublist_NoDup.
Qed.

Lemma onCheckboxChange_noRepeats name i checked st fb st' :
  noRepeats st → onCheckboxChange name i checked st = Some (fb, st') → noRepeats st'.
Proof.
  intros H. unfold onCheckboxChange. destruct (picks st !! name) as [arr|] eqn:E; [|done].
  cbn [mbind option_bind]. pose proof (H name arr E) as Harr. destruct checked.
  - destruct (_ >=? _); [by intros [= _ <-]|]. unfold includes.
    destruct (bool_decide (i ∈ arr)) eqn:Ei; intros [= _ <-]; [done|].
    apply bool_decide_eq_false in Ei. apply noRepeats_insert; [done|].
    apply NoDup_app. split; [done|]. split; [|apply NoDup_singleton].
    intros x Hx ->%list_elem_of_singleton. done.
  - intros [= _ <-]. apply noRepeats_insert; [done|]. by apply NoDup_filter.
Qed.

Lemma applyOp_noRepeats op st : noRepeats st → noRepeats (applyOp op st).
Proof.
  intros H. destruct op as [name i|name i]; cbn [applyOp]; unfold claim, unclaim;
    destruct (meFinished st name); try done.
  - destruct (onCheckboxChange name i true st) as [[fb st']|] eqn:E; [|done].
    by eapply onCheckboxChange_noRepeats.
  - destruct (onCheckboxChange name i false st) as [[fb st']|] eqn:E; [|done].
    by eapply onCheckboxChange_noRepeats.
Qed.

Lemma pushPick_noRepeats st w i :
  noRepeats st → canTake st w i = Some true → noRepeats (pushPick st w i).
Proof.
  intros H [Hi _]%canTake_true. apply noRepeats_insert; [done|].
  apply NoDup_app. split; [by apply noRepeats_picksOf|]. split; [|apply NoDup_singleton].
  intros x Hx ->%list_elem_of_singleton. done.
Qed.

Lemma assignLoop_noRepeats rnd l st n :
  hydrated st → residents st ≠ [] → noRepeats st →
  ∀ st' n', assignLoop rnd l st n = Some (st', n') → noRepeats st'.
Proof.
  revert st n. induction l as [|s l IH]; intros st n Hh Hne Hnr st' n'; cbn [assignLoop].
  - by intros [= <- _].
  - destruct (assignOne_spec rnd s st n Hh Hne) as (st1&E1&Hf). rewrite E1.
    cbn [mbind option_bind]. apply IH.
    + destruct Hf as [(pre&w&post&_&_&Hw&->)|[_ ->]]; [by apply hydrated_pushPick|done].
    + destruct Hf as [(pre&w&post&_&_&Hw&->)|[_ ->]]; done.
    + destruct Hf as [(pre&w&post&_&_&Hw&->)|[_ ->]]; [by apply pushPick_noRepeats|done].
Qed.

Lemma initial_noRepeats : noRepeats initialState.
Proof.
  intros r l Hl.
  assert (map_Forall (λ _ l, l = []) (picks initialState)) as H.
  { refine (bool_decide_unpack _ _). by vm_compute. }
  rewrite (H r l Hl). constructor.
Qed.

Lemma step_noRepeats rnd e sn :
  valid sn.1 → noRepeats sn.1 → noRepeats (step rnd e sn).1.
Proof.
  intros V H. destruct e as [d t| |i|name i|name i|me|me| |]; cbn [step fst snd].
  - unfold addGuardia. destruct (decide _); [done|]. by destruct (existsb _ _).
  - unfold finishSetup. by destruct (decide _).
  - destruct (registered sn.1 i); [|done].
    destruct (removeShift_spec i sn.1 (valid_hydrated _ V)) as (st'&E&_&_&_&_&_&L).
    rewrite E. cbn [fst]. intros r l'. rewrite L. destruct (decide _); [|apply H].
    destruct (picks sn.1 !! r) as [l|] eqn:El; [|done]. simpl. intros [= <-].
    apply NoDup_filter. by apply (H r).
  - destruct (registered sn.1 i); [|done]. by apply applyOp_noRepeats.
  - destruct (registered sn.1 i); [|done]. by apply applyOp_noRepeats.
  - done.
  - done.
  - destruct (resolveLoop_spec rnd (whoIsAssigned sn.1) (shifts sn.1) sn.1 sn.2
                (covers_whoIsAssigned sn.1)) as (st'&n'&E&_&Hs&_).
    unfold resolveConflictsFair. rewrite E. by eapply noRepeats_shrinks.
  - destruct (randomAssignRemaining rnd sn.1 sn.2) as [[st' n']|] eqn:E; [|done].
    cbn [fst]. eapply assignLoop_noRepeats; [apply V|apply V|done|exact E].
Qed.

Lemma run_noRepeats rnd es sn :
  valid sn.1 → noRepeats sn.1 → noRepeats (run rnd es sn).1.
Proof.
  revert sn. induction es as [|e es IH]; intros sn V H; [done|].
  unfold run. cbn [fold_left]. apply IH; [by apply step_valid|by apply step_noRepeats].
Qed.

End RepeatFacts.

Module ClaimLists.
Import JS Planner PlannerFacts PlannerRuns PlannerPage RepeatFacts.

(** X16. After any sequence of events from the initial state, no claim list
    names a shift twice. *)
Theorem X16_claim_lists_never_repeat (rnd : nat → Z) (es : list Event) (r : string) :
  NoDup (picksOf (run rnd es (initialState, 0%nat)).1 r).
Proof.
  apply noRepeats_picksOf.
  apply (run_noRepeats rnd es (initialState, 0%nat) initial_valid initial_noRepeats).
Qed.

End ClaimLists.

Module SampleFacts.
Import JS Planner PlannerFacts PlannerRuns PlannerPage RepeatFacts Examples.

Lemma scenario_reached :
  P.scenario =
  (run rnd0 [EvAdd "2025-09-01" "Puerta"; EvAdd "2025-09-03" "Puerta";
             EvAdd "2025-09-04" "Puerta"; EvFinishSetup;
             EvClaim A P.mon; EvClaim B P.mon; EvClaim B P.wed; EvClaim B P.thu]
     (initialState, 0%nat)).1.
Proof. by vm_compute. Qed.

Lemma scenario_valid : valid P.scenario.
Proof. rewrite scenario_reached. apply run_valid, initial_valid. Qed.

Lemma scenario_noRepeats : noRepeats P.scenario.
Proof.
  rewrite scenario_reached.
  apply run_noRepeats; [apply initial_valid|apply initial_noRepeats].
Qed.

(** [gapAtMost] can be checked resident by resident. *)
Lemma gapAtMost_Forall d st :
  Forall (λ r1, Forall (λ r2, total (statsFor st r1) - total (statsFor st r2) ≤ d)
                  (residents st)) (residents st) →
  gapAtMost d st.
Proof.
  intros H r1 r2 H1 H2.
  by apply (proj1 (Forall_forall _ _) (proj1 (Forall_forall _ _) H r1 H1) r2 H2).
Qed.

Lemma registry3_valid : valid P.registry3.
Proof.
  unfold P.registry3, P.setup, P.addAll. cbn [fold_left].
  apply finishSetup_valid. repeat apply addGuardia_valid. apply initial_valid.
Qed.

Lemma registry3_level : gapAtMost 1 P.registry3.
Proof. apply gapAtMost_Forall. refine (bool_decide_unpack _ _). by vm_compute. Qed.

End SampleFacts.

Module CacheFacts.
Import JS JSText Planner PlannerFacts PlannerRuns PlannerPage RepeatFacts.

Lemma existsb_false_ids l sid :
  existsb (λ x, bool_decide (shiftId x = sid)) l = false →
  ∀ s, s ∈ l → shiftId s ≠ sid.
Proof.
  intros H s Hs Hi.
  assert (existsb (λ x, bool_decide (shiftId x = sid)) l = true) as Ht; [|congruence].
  apply existsb_id. eauto.
Qed.

Lemma fmap_ids_preserved (f : Shift → Shift) (sh : list Shift) :
  (∀ s, shiftId (f s) = shiftId s) → shiftId <$> (f <$> sh) = shiftId <$> sh.
Proof.
  intros H. rewrite <- list_fmap_compose. apply list_fmap_ext. intros _ s _. apply H.
Qed.

Lemma pushLast_absent sid r l :
  (∀ s, s ∈ l → shiftId s ≠ sid) → pushLast sid r l = l.
Proof.
  induction l as [|s l IH]; intros Hno; [done|]. cbn [pushLast].
  destruct (existsb _ l) eqn:E.
  - apply existsb_id in E as (x&Hx&Hxi). exfalso. apply (Hno x); [set_solver|done].
  - rewrite decide_False; [done|]. apply Hno. set_solver.
Qed.

Lemma pushLast_map sid r l :
  NoDup (shiftId <$> l) →
  pushLast sid r l =
    (λ s, if decide (shiftId s = sid) then withAssigned s (assigned s ++ [r]) else s) <$> l.
Proof.
  induction l as [|s l IH]; [done|]. rewrite fmap_cons. intros [Hs Hnd]%NoDup_cons.
  cbn [pushLast]. rewrite fmap_cons.
  destruct (existsb _ l) eqn:E.
  - apply existsb_id in E as (x&Hx&Hxi).
    rewrite decide_False.
    + by rewrite IH.
    + intros Hsi. apply Hs. rewrite Hsi, <- Hxi. apply list_elem_of_fmap. eauto.
  - pose proof (existsb_false_ids l sid E) as Hno.
    assert ((λ s, if decide (shiftId s = sid)
                  then withAssigned s (assigned s ++ [r]) else s) <$> l = l) as ->.
    { clear -Hno. induction l as [|x l IH]; [done|]. rewrite fmap_cons.
      rewrite decide_False by (apply Hno; set_solver).
      rewrite IH; [done|]. intros; apply Hno; set_solver. }
    by destruct (decide _).
Qed.

(** A claim that names a registered shift, or no member of
    [Object.prototype], does not make the lookup throw. *)
Lemma pushById_map sid r l :
  NoDup (shiftId <$> l) → sid ∈ (shiftId <$> l) ∨ sid ∉ inheritedNames →
  pushById sid r l =
    Some ((λ s, if decide (shiftId s = sid)
                then withAssigned s (assigned s ++ [r]) else s) <$> l).
Proof.
  intros Hnd Hsid. unfold pushById. rewrite <- pushLast_map by done.
  destruct (existsb _ l) eqn:E; [done|].
  pose proof (existsb_false_ids l sid E) as Hno.
  destruct Hsid as [(s&Hs&Hin)%list_elem_of_fmap|Hsid].
  - exfalso. by apply (Hno s).
  - rewrite bool_decide_eq_false_2 by done. by rewrite pushLast_absent.
Qed.

Lemma assignPicks_map r ids sh :
  NoDup ids → NoDup (shiftId <$> sh) →
  Forall (λ sid, sid ∈ (shiftId <$> sh) ∨ sid ∉ inheritedNames) ids →
  assignPicks r ids sh =
    Some ((λ s, if decide (shiftId s ∈ ids)
                then withAssigned s (assigned s ++ [r]) else s) <$> sh).
Proof.
  revert sh. induction ids as [|sid ids IH]; intros sh Hids Hnd Hok; cbn [assignPicks].
  - f_equal. symmetry. etrans; [|apply list_fmap_id]. apply list_fmap_ext. intros _ s _.
    rewrite decide_False; [done|]. apply not_elem_of_nil.
  - apply NoDup_cons in Hids as [Hsid Hids]. apply Forall_cons in Hok as [Hok1 Hok].
    rewrite pushById_map by done. cbn [mbind option_bind].
    assert (shiftId <$> ((λ s, if decide (shiftId s = sid)
                               then withAssigned s (assigned s ++ [r]) else s) <$> sh)
            = shiftId <$> sh) as Hsame.
    { apply fmap_ids_preserved. intros s. by destruct (decide _). }
    rewrite IH; [|done|by rewrite Hsame|by rewrite Hsame].
    f_equal. rewrite <- list_fmap_compose. apply list_fmap_ext. intros _ s _. simpl.
    destruct (decide (shiftId s = sid)) as [Hs|Hs].
    + cbn [withAssigned shiftId]. rewrite decide_False by (rewrite Hs; done).
      rewrite decide_True; [done|]. rewrite Hs. set_solver.
    + destruct (decide (shiftId s ∈ ids)) as [Hi|Hi].
      * rewrite decide_True; [done|set_solver].
      * rewrite decide_False; [done|]. set_solver.
Qed.

Lemma rebuildAssigned_map st rs sh :
  (∀ r, r ∈ rs → is_Some (picks st !! r)) → noRepeats st →
  (∀ r x, r ∈ rs → x ∈ picksOf st r → x ∈ (shiftId <$> sh) ∨ x ∉ inheritedNames) →
  NoDup (shiftId <$> sh) →
  rebuildAssigned st rs sh =
    Some ((λ s, withAssigned s
                  (assigned s ++ filter (λ r, shiftId s ∈ picksOf st r) rs)) <$> sh).
Proof.
  revert sh. induction rs as [|r rs IH]; intros sh Hdef Hnr Hok Hnd; cbn [rebuildAssigned].
  - f_equal. symmetry. etrans; [|apply list_fmap_id]. apply list_fmap_ext.
    intros _ s _. rewrite filter_nil, app_nil_r. by destruct s.
  - destruct (Hdef r ltac:(set_solver)) as [ids Hids]. rewrite Hids.
    cbn [mbind option_bind].
    assert (NoDup ids) as Hndi by by apply (Hnr r).
    assert (ids = picksOf st r) as -> by (unfold picksOf; by rewrite Hids).
    rewrite assignPicks_map; [|done|done|].
    2:{ apply Forall_forall. intros x Hx. apply (Hok r); [set_solver|done]. }
    cbn [mbind option_bind].
    assert (shiftId <$> ((λ s, if decide (shiftId s ∈ picksOf st r)
                               then withAssigned s (assigned s ++ [r]) else s) <$> sh)
            = shiftId <$> sh) as Hsame.
    { apply fmap_ids_preserved. intros s. by destruct (decide _). }
    rewrite IH; [|intros; apply Hdef; set_solver|done| |by rewrite Hsame].
    2:{ intros r' x Hr' Hx. rewrite Hsame. apply (Hok r'); [set_solver|done]. }
    f_equal. rewrite <- list_fmap_compose. apply list_fmap_ext. intros _ s _. simpl.
    rewrite filter_cons.
    destruct (decide (shiftId s ∈ picksOf st r)) as [Hi|Hi].
    + cbn [withAssigned shiftId date type assigned]. unfold withAssigned.
      by rewrite <- app_assoc.
    + done.
Qed.

Lemma forallb_fmap_withAssigned (f : Shift → list string) (P : string → bool) l :
  forallb (λ s, P (date s)) ((λ s, withAssigned s (f s)) <$> l) =
  forallb (λ s, P (date s)) l.
Proof. induction l as [|s l IH]; [done|]. rewrite fmap_cons. simpl. by rewrite IH. Qed.

Lemma renderPlanning_ok name st :
  valid st → noRepeats st → is_Some (picks st !! name) →
  Forall (λ s, weekdayUTC (date s) ≠ None) (shifts st) →
  renderPlanning name st =
    Some (setShifts st
            ((λ s, withAssigned s (whoIsAssigned st (shiftId s))) <$> shifts st)).
Proof.
  intros [_ Hh _ Hnd _ Hreg] Hnr [l Hl] Hdates. unfold renderPlanning.
  assert (shiftId <$> ((λ s, withAssigned s []) <$> shifts st) = shiftId <$> shifts st)
    as Hsame by by apply fmap_ids_preserved.
  rewrite rebuildAssigned_map; [|done|done| |by rewrite Hsame].
  2:{ intros r x Hr Hx. left. rewrite Hsame.
      destruct (Hreg r x Hr Hx) as (s&Hs&<-). apply list_elem_of_fmap. eauto. }
  cbn [mbind option_bind]. rewrite <- list_fmap_compose.
  assert (((λ s, withAssigned s (assigned s ++ filter (λ r, shiftId s ∈ picksOf st r)
                                                (residents st)))
            ∘ (λ s, withAssigned s [])) <$> shifts st =
          (λ s, withAssigned s (whoIsAssigned st (shiftId s))) <$> shifts st) as ->.
  { apply list_fmap_ext. intros _ s _. done. }
  unfold statsForReturns. rewrite Hl. rewrite bool_decide_eq_true_2 by eauto.
  cbn [orb mbind option_bind]. destruct (decide _); [done|].
  rewrite (forallb_fmap_withAssigned (λ s, whoIsAssigned st (shiftId s)) fmtDateReturns).
  replace (forallb _ _) with true; [done|]. symmetry. apply forallb_forall.
  intros s Hs. apply bool_decide_eq_true. rewrite Forall_forall in Hdates.
  apply Hdates. by apply list_elem_of_In.
Qed.

End CacheFacts.

Module AssignedCache.
Import JS Planner PlannerFacts PlannerRuns PlannerPage RepeatFacts CacheFacts SampleFacts Examples.

(** X17. [renderPlanning(name)] on a valid state whose claim lists do not
    repeat an id, whose dates are calendar dates, and with a claim list under
    [name]: it returns, it leaves the setup flag, the configuration, the
    residents, the claim lists and the lock flags alone, and it leaves every
    shift at its place with its id, date and type and with
    [whoIsAssigned(id)] as its [assigned] array. The start button, once the
    setup is finished, does exactly this. *)
Theorem X17_renderPlanning_rebuilds_assigned (name : string) (st : State) :
  valid st → noRepeats st → is_Some (picks st !! name) →
  Forall (λ s, weekdayUTC (date s) ≠ None) (shifts st) →
  ∃ st', renderPlanning name st = Some st' ∧
    setupDone st' = setupDone st ∧ config st' = config st ∧
    residents st' = residents st ∧ picks st' = picks st ∧ finished st' = finished st ∧
    Forall2 (λ s s', shiftId s' = shiftId s ∧ date s' = date s ∧ type s' = type s ∧
                     assigned s' = whoIsAssigned st (shiftId s))
      (shifts st) (shifts st') ∧
    (name ≠ ""%string → setupDone st = true → start name st = Some (Silent, st')).
Proof.
  intros V Hnr Hname Hdates.
  pose proof (renderPlanning_ok name st V Hnr Hname Hdates) as E.
  eexists. split; [exact E|]. cbn [setupDone config residents picks finished shifts setShifts].
  split; [done|]. split; [done|]. split; [done|]. split; [done|]. split; [done|]. split.
  - apply Forall2_fmap_r, Forall_Forall2_diag, Forall_forall. by intros s _.
  - intros Hne Hsd. unfold start. rewrite decide_False by done. by rewrite Hsd, E.
Qed.

Lemma X17_witness :
  ∃ st', renderPlanning A P.scenario = Some st' ∧
    setupDone st' = setupDone P.scenario ∧ config st' = config P.scenario ∧
    residents st' = residents P.scenario ∧ picks st' = picks P.scenario ∧
    finished st' = finished P.scenario ∧
    Forall2 (λ s s', shiftId s' = shiftId s ∧ date s' = date s ∧ type s' = type s ∧
                     assigned s' = whoIsAssigned P.scenario (shiftId s))
      (shifts P.scenario) (shifts st') ∧
    (A ≠ ""%string → setupDone P.scenario = true →
     start A P.scenario = Some (Silent, st')).
Proof.
  apply (X17_renderPlanning_rebuilds_assigned A P.scenario).
  - exact scenario_valid.
  - exact scenario_noRepeats.
  - refine (bool_decide_unpack _ _). by vm_compute.
  - refine (bool_decide_unpack _ _). by vm_compute.
Defined.

End AssignedCache.

Module FillFacts.
Import JS Planner SortFacts ListFacts PlannerFacts PlannerRuns PlannerPage StatsFacts.

Section Fill.
Variable rnd : nat → Z.

Lemma canTake_defined st r i :
  is_Some (picks st !! r) → ∃ b, canTake st r i = Some b.
Proof. intros H. rewrite canTake_Some by done. eauto. Qed.

(** One empty shift nobody holds: it goes to a resident with the fewest
    claims, unless everybody is full. *)
Lemma assignOne_min s st n :
  hydrated st → residents st ≠ [] →
  (∀ r, r ∈ residents st → shiftId s ∉ picksOf st r) →
  ∃ st1, assignOne rnd s st n =
           Some (st1, (sortM (fillCmp rnd st) (residents st) n).2) ∧
    ((st1 = st ∧ allFull st) ∨
     ∃ w, w ∈ residents st ∧ st1 = pushPick st w (shiftId s) ∧
       canTake st w (shiftId s) = Some true ∧
       ∀ r, r ∈ residents st → total (statsFor st w) ≤ total (statsFor st r)).
Proof.
  intros Hh Hne Hfree. destruct (assignOne_spec rnd s st n Hh Hne) as (st1&E&Hf).
  exists st1. split; [done|].
  pose proof (firstAble_minimal rnd st (shiftId s) (residents st) n st1 Hf) as Hmin.
  destruct Hf as [(pre&w&post&Hsplit&Hpre&Hw&->)|[Hall ->]].
  - right. destruct Hmin as [Heq|(w'&Hw'&Heq&Hcan&Hle)].
    + exfalso. apply canTake_true in Hw as [Hw _]. apply Hw.
      assert (picksOf st w = picksOf (pushPick st w (shiftId s)) w) as -> by by rewrite Heq.
      rewrite picksOf_pushPick, decide_True by done. set_solver.
    + assert (w' = w) as ->.
      { destruct (decide (w' = w)) as [|Hne']; [done|]. exfalso.
        assert (picksOf (pushPick st w (shiftId s)) w =
                picksOf (pushPick st w' (shiftId s)) w) as Hp by by rewrite Heq.
        rewrite !picksOf_pushPick, decide_True, decide_False in Hp by done.
        apply (f_equal length) in Hp. rewrite length_app in Hp. simpl in Hp. lia. }
      exists w. split; [done|]. split; [done|]. split; [done|]. intros r Hr.
      destruct (canTake_defined st r (shiftId s) (Hh r Hr)) as [[|] Hb].
      * specialize (Hle r Hr Hb). unfold keyLe, metric in Hle. cbn [fst snd] in Hle. lia.
      * apply canTake_false in Hb as [Hb|Hb]; [by apply Hfree in Hb|].
        apply canTake_true in Hcan as [_ Hcan].
        destruct (statsFor_bounds st w) as [_ ->].
        destruct (statsFor_bounds st r) as [_ ->]. lia.
  - left. split; [done|]. intros r Hr.
    assert (r ∈ (sortM (fillCmp rnd st) (residents st) n).1) as Hr'
      by by apply sortM_elem_of.
    specialize (Hall r Hr'). apply canTake_false in Hall as [Hb|Hb]; [|done].
    by apply Hfree in Hb.
Qed.

Lemma assignLoop_full l st n :
  hydrated st → residents st ≠ [] → allFull st →
  ∃ n', assignLoop rnd l st n = Some (st, n').
Proof.
  intros Hh Hne Hfull. revert n. induction l as [|s l IH]; intros n; cbn [assignLoop].
  - eauto.
  - rewrite (assignOne_all_full rnd s st n Hh Hne Hfull). cbn [mbind option_bind].
    apply IH.
Qed.

Lemma total_pushPick st w i r :
  total (statsFor (pushPick st w i) r) =
  total (statsFor st r) + (if decide (w = r) then 1 else 0).
Proof.
  destruct (statsFor_bounds (pushPick st w i) r) as [_ ->].
  destruct (statsFor_bounds st r) as [_ ->]. rewrite picksOf_pushPick.
  destruct (decide _); [|lia]. rewrite length_app. simpl. lia.
Qed.

Lemma gapAtMost_pushPick d st w i :
  1 ≤ d → w ∈ residents st →
  (∀ r, r ∈ residents st → total (statsFor st w) ≤ total (statsFor st r)) →
  gapAtMost d st → gapAtMost d (pushPick st w i).
Proof.
  intros Hd Hw Hmin Hgap r1 r2 H1 H2. cbn [pushPick residents setPicks] in H1, H2.
  rewrite !total_pushPick. specialize (Hgap r1 r2 H1 H2).
  pose proof (Hmin r1 H1). pose proof (Hmin r2 H2).
  destruct (decide (w = r1)) as [<-|], (decide (w = r2)) as [<-|]; lia.
Qed.

Lemma assignLoop_fair l st n :
  hydrated st → residents st ≠ [] → withinQuota st →
  NoDup (shiftId <$> l) →
  (∀ s r, s ∈ l → r ∈ residents st → shiftId s ∉ picksOf st r) →
  ∃ st' n', assignLoop rnd l st n = Some (st', n') ∧
    grows l st st' ∧
    (∀ d, 1 ≤ d → gapAtMost d st → gapAtMost d st') ∧
    (∀ s, s ∈ l → atMostOne st' (shiftId s)) ∧
    ((∀ s, s ∈ l → ∃ w, w ∈ residents st ∧ shiftId s ∈ picksOf st' w) ∨ allFull st').
Proof.
  revert st n. induction l as [|s l IH]; intros st n Hh Hne Hq Hnd Hfree;
    cbn [assignLoop].
  - exists st, n. split; [done|]. split.
    { split; [apply sameFrame_refl|]. split; [done|]. intros; by left. }
    split; [done|]. split; [by intros s Hs%elem_of_nil|]. left.
    by intros s Hs%elem_of_nil.
  - rewrite fmap_cons in Hnd. apply NoDup_cons in Hnd as [Hs Hnd].
    destruct (assignOne_min s st n Hh Hne) as (st1&E1&Hcase).
    { intros r Hr. apply (Hfree s r); [set_solver|done]. }
    rewrite E1. cbn [mbind option_bind].
    destruct Hcase as [[-> Hfull]|(w&Hw&->&Hcan&Hmin)].
    + destruct (assignLoop_full l st (sortM (fillCmp rnd st) (residents st) n).2 Hh Hne Hfull)
        as [n' E]. rewrite E. exists st, n'. split; [done|]. split.
      { split; [apply sameFrame_refl|]. split; [done|]. intros; by left. }
      split; [done|]. split; [|by right].
      intros s' Hs' r1 r2 H1 H2 H3 H4. exfalso. by apply (Hfree s' r1).
    + set (i := shiftId s) in *. set (st1 := pushPick st w i).
      assert (∀ s' r, s' ∈ l → r ∈ residents st1 → shiftId s' ∉ picksOf st1 r) as Hfree1.
      { intros s' r Hs' Hr. unfold st1. rewrite picksOf_pushPick.
        assert (shiftId s' ∉ picksOf st r) as Hn by (apply Hfree; [set_solver|done]).
        destruct (decide (w = r)); [|done]. intros [Hx|Hx]%elem_of_app; [done|].
        apply list_elem_of_singleton in Hx. apply Hs. rewrite <- Hx.
        apply list_elem_of_fmap. eauto. }
      destruct (IH st1 (sortM (fillCmp rnd st) (residents st) n).2)
        as (st2&n2&E2&Hg2&Hgap2&Hone2&Hdisj); try done.
      { by apply hydrated_pushPick. }
      { by apply withinQuota_pushPick. }
      exists st2, n2. split; [done|].
      destruct Hg2 as (F2&G2&G2').
      assert (∀ r, i ∈ picksOf st2 r → r ∈ residents st → r = w) as Honly.
      { intros r Hi Hr. apply G2' in Hi as [Hi|(s'&Hs'&Hsi)].
        - unfold st1 in Hi. rewrite picksOf_pushPick in Hi.
          destruct (decide (w = r)); [done|]. exfalso. apply (Hfree s r); [set_solver|done|done].
        - exfalso. apply Hs. rewrite <- Hsi. apply list_elem_of_fmap. eauto. }
      assert (i ∈ picksOf st2 w) as Hheld.
      { apply G2. unfold st1. rewrite picksOf_pushPick, decide_True by done. set_solver. }
      split.
      { split; [eapply sameFrame_trans; [apply sameFrame_pushPick|exact F2]|]. split.
        - intros r x Hx. apply G2. unfold st1. rewrite picksOf_pushPick.
          destruct (decide _); set_solver.
        - intros r x Hx. apply G2' in Hx as [Hx|(s'&Hs'&Hsi)].
          + unfold st1 in Hx. rewrite picksOf_pushPick in Hx.
            destruct (decide _); [|by left].
            apply elem_of_app in Hx as [Hx|Hx]; [by left|].
            right. exists s. split; [set_solver|]. by apply list_elem_of_singleton in Hx.
          + right. exists s'. set_solver. }
      split.
      { intros d Hd Hgap. apply Hgap2; [done|]. by apply gapAtMost_pushPick. }
      split.
      { intros s' [->|Hs']%elem_of_cons; [|by apply Hone2].
        assert (residents st2 = residents st) as Hr2.
        { destruct F2 as (_&_&Hr&_). by rewrite Hr. }
        intros r1 r2 H1 H2 H3 H4. rewrite Hr2 in H1, H2.
        by rewrite (Honly r1 H3 H1), (Honly r2 H4 H2). }
      destruct Hdisj as [Hall|Hfull]; [left|by right].
      intros s' [->|Hs']%elem_of_cons; [by exists w|].
      destruct (Hall s' Hs') as (w'&Hw'&Hh'). by exists w'.
Qed.
End Fill.

End FillFacts.

Module RandomFill.
Import JS Planner ListFacts PlannerFacts PlannerRuns PlannerPage FillFacts SampleFacts Examples.

(** X18. [randomAssignRemaining] on a valid state returns; a shift that had
    a claimant keeps its claimants, a shift that had none gets at most one,
    and a shift is left without a claimant only if, in the end, every
    resident is at the quota. *)
Theorem X18_random_fill_stops_only_when_full (rnd : nat → Z) (st : State) (n : nat) :
  valid st →
  ∃ st' n', randomAssignRemaining rnd st n = Some (st', n') ∧
    (∀ s, s ∈ shifts st → whoIsAssigned st (shiftId s) ≠ [] →
          whoIsAssigned st' (shiftId s) = whoIsAssigned st (shiftId s)) ∧
    (∀ s, s ∈ shifts st → whoIsAssigned st (shiftId s) = [] →
          (length (whoIsAssigned st' (shiftId s)) ≤ 1)%nat) ∧
    ((∀ s, s ∈ shifts st → whoIsAssigned st' (shiftId s) ≠ []) ∨ allFull st').
Proof.
  intros [[Vnd Vne] Vh Vq Vids Vd Vreg]. unfold randomAssignRemaining.
  set (empty := filter (λ s, length (whoIsAssigned st (shiftId s)) = 0%nat) (shifts st)).
  assert (∀ s, s ∈ empty ↔ s ∈ shifts st ∧ whoIsAssigned st (shiftId s) = []) as Hempty.
  { intros s. unfold empty. rewrite list_elem_of_filter. split; intros [H1 H2]; split; try done.
    - by destruct (whoIsAssigned st (shiftId s)).
    - by rewrite H2. }
  destruct (assignLoop_fair rnd empty st n Vh Vne Vq) as (st'&n'&E&Hg&_&Hone&Hdisj).
  { by apply NoDup_fmap_filter. }
  { intros s r [Hs Hw]%Hempty Hr Hi.
    assert (r ∈ whoIsAssigned st (shiftId s)) as Hin by by apply elem_of_whoIsAssigned.
    rewrite Hw in Hin. by apply elem_of_nil in Hin. }
  exists st', n'. split; [done|]. destruct Hg as ((_&_&Hr&_)&G&G').
  assert (∀ s, s ∈ shifts st → whoIsAssigned st (shiftId s) ≠ [] →
               whoIsAssigned st' (shiftId s) = whoIsAssigned st (shiftId s)) as Hsame.
  { intros s Hs Hne. unfold whoIsAssigned. rewrite Hr. apply filter_ext_in.
    intros r _. split; [|apply G]. intros Hi. apply G' in Hi as [Hi|(s'&Hs'&Hsi)]; [done|].
    exfalso. apply Hempty in Hs' as [Hs' Hw].
    assert (s' = s) as -> by by apply (NoDup_fmap_inj shiftId (shifts st)). done. }
  split; [done|]. split.
  - intros s Hs Hw. apply whoIsAssigned_atMostOne; [by rewrite Hr|].
    apply Hone. by apply Hempty.
  - destruct Hdisj as [Hall|Hfull]; [left|by right]. intros s Hs.
    destruct (whoIsAssigned st (shiftId s)) as [|a t] eqn:Hw.
    + destruct (Hall s) as (w&Hw1&Hw2); [by apply Hempty|].
      assert (w ∈ whoIsAssigned st' (shiftId s)) as Hin.
      { apply elem_of_whoIsAssigned. by rewrite Hr. }
      intros Hnil. rewrite Hnil in Hin. by apply elem_of_nil in Hin.
    + rewrite Hsame; [by rewrite Hw|done|by rewrite Hw].
Qed.

Lemma X18_witness :
  ∃ st' n', randomAssignRemaining rnd0 P.scenario 0 = Some (st', n') ∧
    (∀ s, s ∈ shifts P.scenario → whoIsAssigned P.scenario (shiftId s) ≠ [] →
          whoIsAssigned st' (shiftId s) = whoIsAssigned P.scenario (shiftId s)) ∧
    (∀ s, s ∈ shifts P.scenario → whoIsAssigned P.scenario (shiftId s) = [] →
          (length (whoIsAssigned st' (shiftId s)) ≤ 1)%nat) ∧
    ((∀ s, s ∈ shifts P.scenario → whoIsAssigned st' (shiftId s) ≠ []) ∨ allFull st').
Proof. apply (X18_random_fill_stops_only_when_full rnd0 P.scenario 0), scenario_valid. Defined.

(** X19. [randomAssignRemaining] never widens the gap between the claim
    counts: if, on a valid state, no two residents differ by more than [d]
    claims ([d] at least 1), the same holds after the fill. *)
Theorem X19_random_fill_keeps_balance (rnd : nat → Z) (st : State) (n : nat) (d : Z) :
  valid st → 1 ≤ d → gapAtMost d st →
  ∃ st' n', randomAssignRemaining rnd st n = Some (st', n') ∧ gapAtMost d st'.
Proof.
  intros [[Vnd Vne] Vh Vq Vids Vd Vreg] Hd Hgap. unfold randomAssignRemaining.
  set (empty := filter (λ s, length (whoIsAssigned st (shiftId s)) = 0%nat) (shifts st)).
  destruct (assignLoop_fair rnd empty st n Vh Vne Vq) as (st'&n'&E&_&Hg&_).
  { by apply NoDup_fmap_filter. }
  { intros s r [Hw Hs]%list_elem_of_filter Hr Hi.
    assert (r ∈ whoIsAssigned st (shiftId s)) as Hin by by apply elem_of_whoIsAssigned.
    destruct (whoIsAssigned st (shiftId s)); [by apply elem_of_nil in Hin|done]. }
  exists st', n'. split; [done|]. by apply Hg.
Qed.

Lemma X19_witness :
  gapAtMost 1 P.registry3 ∧
  ∃ st' n', randomAssignRemaining rnd0 P.registry3 0 = Some (st', n') ∧ gapAtMost 1 st'.
Proof.
  split; [exact registry3_level|].
  apply (X19_random_fill_keeps_balance rnd0 P.registry3 0 1);
    [exact registry3_valid|lia|exact registry3_level].
Defined.

End RandomFill.

Module ResetFacts.
Import JS Planner PlannerFacts PlannerRuns PlannerPage.

Lemma clear_fold rs st :
  let st' := fold_left clearResident rs st in
  setupDone st' = setupDone st ∧ config st' = config st ∧
  residents st' = residents st ∧ shifts st' = shifts st ∧
  (∀ r, picks st' !! r = if decide (r ∈ rs) then Some [] else picks st !! r) ∧
  (∀ r, finished st' !! r = if decide (r ∈ rs) then Some false else finished st !! r).
Proof.
  revert st. induction rs as [|a rs IH]; intros st; cbn [fold_left].
  - repeat split; intros r; rewrite decide_False; done || set_solver.
  - destruct (IH (clearResident st a)) as (H1&H2&H3&H4&H5&H6).
    split; [done|]. split; [done|]. split; [done|]. split; [done|].
    split; intros r; [rewrite H5|rewrite H6]; cbn [clearResident picks finished];
      (destruct (decide (r ∈ rs)) as [Hr|Hr];
       [rewrite decide_True; [done|set_solver]|]);
      (destruct (decide (a = r)) as [->|Hne];
       [rewrite lookup_insert_eq, decide_True; [done|set_solver]
       |rewrite lookup_insert_ne, decide_False; [done|set_solver|done]]).
Qed.

End ResetFacts.

Module OrderFacts.
Import JS Planner SortFacts PlannerPage.

Lemma ltb_leb a b : String.ltb a b = true → String.leb a b = true.
Proof. unfold String.ltb, String.leb. by destruct (String.compare a b). Qed.

Lemma not_ltb_leb a b : String.ltb a b = false → String.leb b a = true.
Proof.
  unfold String.ltb, String.leb. rewrite (String.compare_antisym a b).
  by destruct (String.compare b a).
Qed.

Lemma leb_trans a b c :
  String.leb a b = true → String.leb b c = true → String.leb a c = true.
Proof.
  intros H1 H2. apply Is_true_true. apply Is_true_true in H1, H2.
  change (String.le a c). by etrans.
Qed.

Section Display.
Variable localeCompare : string → string → Z.

Lemma displayCmp_lt a b n : (displayCmp localeCompare a b n).1 < 0 → dateLe a b.
Proof.
  unfold displayCmp, dateLe. cbn [fst].
  destruct (String.ltb (date a) (date b)) eqn:E1; [intros _; by apply ltb_leb|].
  destruct (String.ltb (date b) (date a)) eqn:E2; [lia|].
  intros _. by apply not_ltb_leb.
Qed.

Lemma displayCmp_ge a b n : ¬ (displayCmp localeCompare a b n).1 < 0 → dateLe b a.
Proof.
  unfold displayCmp, dateLe. cbn [fst].
  destruct (String.ltb (date a) (date b)) eqn:E1; [lia|].
  intros _. by apply not_ltb_leb.
Qed.
End Display.

End OrderFacts.

Module PageButtons.
Import JS JSText Planner SortFacts PlannerFacts PlannerRuns PlannerPage ResetFacts OrderFacts
  SampleFacts Examples.

(** X20. "Reset setup", once confirmed, on a valid state (no resident named
    like a member of [Object.prototype]): the registry is empty, the setup is
    open again, every resident has an empty claim list and a cleared lock,
    the residents and the configuration are kept, what is recorded under
    other names is untouched, nobody is assigned to anything, the state is
    valid again and the toast is "Setup reset."; when the dialog is
    dismissed nothing changes. *)
Theorem X20_resetSetup_clears_the_ledger (st : State) :
  valid st → plainNames (residents st) →
  valid (resetSetup true st).2 ∧
  (resetSetup true st).1 = Toast "Setup reset." ∧
  shifts (resetSetup true st).2 = [] ∧ setupDone (resetSetup true st).2 = false ∧
  residents (resetSetup true st).2 = residents st ∧
  config (resetSetup true st).2 = config st ∧
  (∀ r, r ∈ residents st →
        picks (resetSetup true st).2 !! r = Some [] ∧
        finished (resetSetup true st).2 !! r = Some false) ∧
  (∀ r, r ∉ residents st →
        picks (resetSetup true st).2 !! r = picks st !! r ∧
        finished (resetSetup true st).2 !! r = finished st !! r) ∧
  (∀ i, whoIsAssigned (resetSetup true st).2 i = []) ∧
  resetSetup false st = (Silent, st).
Proof.
  intros [[Vnd Vne] Vh Vq Vids Vd Vreg] _.
  destruct (clear_fold (residents st) (setShifts st [])) as (H1&H2&H3&H4&H5&H6).
  cbn [setShifts setupDone config residents shifts picks finished] in *.
  unfold resetSetup. cbn [fst snd setupDone config residents shifts picks finished].
  assert (0 ≤ slotsPerResident (config st)) as Hslots.
  { destruct (residents st) as [|r0 rs] eqn:Er; [done|].
    destruct (Vh r0) as [l0 Hl0]; [rewrite Er; apply elem_of_cons; by left|].
    specialize (Vq r0 l0 Hl0). lia. }
  split; [|split; [done|split; [done|split; [done|split; [done|split; [done|split; [|split; [|split]]]]]]]].
  - split; cbn [residents picks config shifts].
    + by rewrite H3.
    + intros r. rewrite H3. intros Hr. rewrite H5, decide_True by done. eauto.
    + intros r l. rewrite H5, H2. destruct (decide _); [by intros [= <-]|apply Vq].
    + rewrite H4. constructor.
    + intros s. rewrite H4. by intros ?%elem_of_nil.
    + intros r x. rewrite H3. intros Hr. unfold picksOf. cbn [picks].
      rewrite H5, decide_True by done. by intros ?%elem_of_nil.
  - intros r Hr. by rewrite H5, H6, !decide_True.
  - intros r Hr. by rewrite H5, H6, !decide_False.
  - intros i. apply filter_none. cbn [residents]. intros r. rewrite H3. intros Hr.
    unfold picksOf. cbn [picks]. rewrite H5, decide_True by done. apply not_elem_of_nil.
  - done.
Qed.

Lemma X20_witness :
  valid (resetSetup true P.scenario).2 ∧
  (resetSetup true P.scenario).1 = Toast "Setup reset." ∧
  shifts (resetSetup true P.scenario).2 = [] ∧
  setupDone (resetSetup true P.scenario).2 = false ∧
  residents (resetSetup true P.scenario).2 = residents P.scenario ∧
  config (resetSetup true P.scenario).2 = config P.scenario ∧
  (∀ r, r ∈ residents P.scenario →
        picks (resetSetup true P.scenario).2 !! r = Some [] ∧
        finished (resetSetup true P.scenario).2 !! r = Some false) ∧
  (∀ r, r ∉ residents P.scenario →
        picks (resetSetup true P.scenario).2 !! r = picks P.scenario !! r ∧
        finished (resetSetup true P.scenario).2 !! r = finished P.scenario !! r) ∧
  (∀ i, whoIsAssigned (resetSetup true P.scenario).2 i = []) ∧
  resetSetup false P.scenario = (Silent, P.scenario).
Proof.
  apply (X20_resetSetup_clears_the_ledger P.scenario); [exact scenario_valid|].
  refine (bool_decide_unpack _ _). by vm_compute.
Defined.

(** X21. The rows of the admin list and of the planning table are the
    registered shifts, each once, in an order in which the date texts never
    decrease (compared as strings), whatever [localeCompare] answers for the
    types. *)
Theorem X21_rows_are_ordered_by_date (localeCompare : string → string → Z) (st : State) :
  displayOrder localeCompare st ≡ₚ shifts st ∧
  StronglySorted dateLe (displayOrder localeCompare st).
Proof.
  split; [apply sortM_perm|]. apply sortM_sorted.
  - intros x y z. apply leb_trans.
  - apply displayCmp_lt.
  - apply displayCmp_ge.
Qed.

End PageButtons.

(** ** [script.js]: the storage and the calendar *)
Module PersistFacts.
Import JS JSText Legacy LegacyFacts LegacyRuns LegacyPage.

(** The current user, if any, is one of [users]. *)
Lemma renderTableReturns_user st :
  consistent st → (∀ cu, currentUser st = Some cu → cu ∈ users) →
  updateCalendarReturns st = true →
  renderTableReturns st = true.
Proof.
  intros Hc Hu Hcal. unfold renderTableReturns. rewrite Hcal, andb_true_r.
  destruct (currentUser st) as [cu|]; [|done].
  destruct (decide _); [done|]. apply bool_decide_eq_true. apply (cons_dom st Hc).
  by apply Hu.
Qed.

Lemma updateCalendarReturns_dates st st' :
  date <$> shifts st' = date <$> shifts st →
  updateCalendarReturns st' = updateCalendarReturns st.
Proof.
  unfold updateCalendarReturns. generalize (shifts st) (shifts st').
  intros l. induction l as [|s l IH]; intros [|s' l']; try done.
  rewrite !fmap_cons. intros [= Hd Hl]. cbn [forallb]. by rewrite Hd, (IH l').
Qed.

Lemma setAssignedFirst_dates i f l : date <$> setAssignedFirst i f l = date <$> l.
Proof.
  induction l as [|s l IH]; [done|]. cbn [setAssignedFirst].
  destruct (decide _); [done|]. by rewrite !fmap_cons, IH.
Qed.

Lemma kept_dates l l' : Forall2 kept l l' → date <$> l' = date <$> l.
Proof.
  induction 1 as [|s s' l l' Hk _ IH]; [done|]. rewrite !fmap_cons, IH.
  by destruct Hk as (_&->&_).
Qed.

Lemma splitAux_head c s cur :
  ∃ y rest, splitAux c s cur = String.rev_app cur y :: rest.
Proof.
  revert cur. induction s as [|a s IH]; intros cur; cbn [splitAux].
  - by exists ""%string, [].
  - destruct (decide (a = c)).
    + by exists ""%string, (splitAux c s "").
    + destruct (IH (String a cur)) as (y&rest&E). rewrite E.
      by exists (String a y), rest.
Qed.

Lemma dateValue_not_method d :
  isDateValue d = true → d ≠ ""%string →
  bool_decide (substring 0 7 d ∈ inheritedNames) = false.
Proof.
  intros H Hne. apply bool_decide_eq_false. intros Hin.
  unfold isDateValue in H. rewrite bool_decide_eq_false_2 in H by done. cbn [orb] in H.
  destruct d as [|a d]; [done|].
  assert (Forall (λ nm, String.get 0 nm ≫= digitOf = None) inheritedNames) as Hnames.
  { refine (bool_decide_unpack _ _). by vm_compute. }
  rewrite Forall_forall in Hnames. specialize (Hnames _ Hin).
  cbn [substring String.get mbind option_bind] in Hnames.
  unfold split in H. cbn [splitAux] in H.
  destruct (decide (a = "-"%char)) as [->|Hsep].
  { by destruct (splitAux "-" d "") as [|m [|dd [|? ?]]]. }
  destruct (splitAux_head "-" d (String a "")) as (y&rest&E). rewrite E in H.
  cbn [String.rev_app] in H.
  destruct rest as [|m [|dd [|? ?]]]; try done.
  unfold isDigits in H at 1. cbn [allDigits] in H. rewrite Hnames in H.
  rewrite (bool_decide_eq_false_2 (is_Some (@None Z))) in H by (by intros [? ?]).
  cbn [andb] in H. by rewrite andb_false_r in H.
Qed.

Lemma restore_picks (p : gmap string (list string)) :
  (∀ u, is_Some (p !! u) ↔ u ∈ users) →
  map_imap (λ u _, Some (default [] (p !! u))) (userPicks initialState) = p.
Proof.
  intros Hdom. apply map_eq. intros u. rewrite map_lookup_imap.
  cbn [initialState userPicks]. rewrite clearPicks_lookup.
  destruct (decide (u ∈ users)) as [Hu|Hu].
  - simpl. destruct (proj2 (Hdom u) Hu) as [l Hl]. by rewrite Hl.
  - rewrite lookup_empty. simpl. destruct (p !! u) eqn:E; [|done].
    exfalso. apply Hu, Hdom. eauto.
Qed.

Lemma reload_persisted p :
  consistent (appState p) → persisted p →
  reload p = mkPage (loggedOut (appState p)) (adminHidden p) (storage p).
Proof.
  intros Hc Hp. unfold reload, openPage, loadState, persisted in *.
  cbn [storage appState adminHidden]. destruct (storage p) as [data|].
  - subst data. cbn [savedShifts savedPicks savedFinished setupComplete].
    rewrite restore_picks by apply Hc. cbn [initialState finishedUsers currentUser].
    rewrite (right_id_L ∅ (∪)). by rewrite orb_false_r.
  - destruct Hp as (H1&H2&H3&H4). unfold loggedOut. by rewrite H1, H2, H3, H4.
Qed.

(** The invariant of a session. *)
Lemma withApp_login_persisted p st' :
  persisted p → shifts st' = shifts (appState p) → userPicks st' = userPicks (appState p) →
  finishedUsers st' = finishedUsers (appState p) → persisted (withApp p st').
Proof.
  unfold persisted, withApp. cbn [storage appState adminHidden]. intros Hp -> -> ->. done.
Qed.

Lemma pageStep_sessionOk rnd localDay e pn :
  fromControls e → sessionOk pn.1 → sessionOk (pageStep rnd localDay true e pn).1.
Proof.
  intros He (Hc&Hp&Hu&Hcal). destruct pn as [p n]. cbn [fst snd] in *.
  assert (sessionOk p) as Hok by by (split; [|split; [|split]]).
  destruct e as [d t| |u| |i| | |]; cbn [pageStep fst snd].
  - pose proof (addNewShift_consistent d t (appState p) Hc) as Hc'.
    unfold addNewShift in *. destruct (decide (d = ""%string)); [done|].
    destruct (existsb _ _); [done|]. cbn [fst snd isStatus saveState appState withApp] in *.
    split; [done|]. split; [done|]. split; [done|].
    unfold updateCalendarReturns in *. cbn [appState shifts]. rewrite forallb_app, Hcal.
    cbn [forallb date andb]. simpl in He. by rewrite (dateValue_not_method d He).
  - destruct (decide _); [done|]. cbn [fst].
    rewrite renderTableReturns_user by done. cbn [saveState appState].
    by (split; [|split; [|split]]).
  - cbn [withApp appState]. split; [by apply login_consistent|]. split; [|split].
    + apply withApp_login_persisted; [done| | |]; unfold login; by destruct (decide _).
    + unfold login. destruct (decide (u = ""%string)); [done|]. cbn [currentUser].
      intros cu [= <-]. by destruct He.
    + unfold login. by destruct (decide _).
  - cbn [withApp appState]. split; [by destruct Hc|]. split; [by apply withApp_login_persisted|].
    split; [by intros cu [=]|done].
  - destruct (handleSelect i (appState p)) as [[fb st']|] eqn:E; [|done]. cbn [fst].
    pose proof (handleSelect_cases i (appState p) fb st' E) as Hsel.
    pose proof (selected_consistent i (appState p) fb st' Hc Hsel) as Hc'.
    destruct (isStatus fb) eqn:Hfb; [|done].
    assert ((∀ cu, currentUser st' = Some cu → cu ∈ users) ∧
            updateCalendarReturns st' = true) as [Hu' Hcal'].
    { destruct Hsel as [?|cu shift l Hcu _ _ _|cu shift l Hcu _ _ _ _].
      - by split.
      - split; [cbn [currentUser]; intros cu' [= <-]; by apply Hu|].
        rewrite <- Hcal. apply updateCalendarReturns_dates. cbn [shifts].
        apply setAssignedFirst_dates.
      - split; [cbn [currentUser]; intros cu' [= <-]; by apply Hu|].
        rewrite <- Hcal. apply updateCalendarReturns_dates. cbn [shifts].
        apply setAssignedFirst_dates. }
    rewrite renderTableReturns_user by done.
    cbn [saveState appState withApp]. by (split; [|split; [|split]]).
  - destruct (currentUser (appState p)) as [cu|] eqn:Ecu; [|done].
    destruct (decide _); [done|]. cbn [fst].
    pose proof (finishSelection_consistent (appState p) Hc) as Hc'.
    assert (finishSelection (appState p) =
            mkState (shifts (appState p)) (userPicks (appState p))
              (<[cu := true]> (finishedUsers (appState p))) (Some cu)) as Hfs.
    { unfold finishSelection. rewrite Ecu. by rewrite decide_False. }
    rewrite Hfs in *.
    rewrite renderTableReturns_user; [|done| |done].
    2:{ cbn [currentUser]. intros cu' [= <-]. by apply Hu. }
    cbn [saveState appState withApp]. split; [done|]. split; [done|]. split; [|done].
    cbn [currentUser]. intros cu' [= <-]. by apply Hu.
  - destruct (resolveConflicts_spec rnd localDay (appState p) n Hc)
      as (st'&n'&E&_&HF&_&_&_&_&Hcu&Hc').
    rewrite E. cbn [fst].
    assert (updateCalendarReturns st' = true) as Hcal'.
    { rewrite <- Hcal. apply updateCalendarReturns_dates. by apply kept_dates. }
    rewrite renderTableReturns_user; [|done|by rewrite Hcu|done].
    cbn [saveState appState withApp]. split; [done|]. split; [done|].
    split; [cbn [appState]; by rewrite Hcu|done].
  - rewrite reload_persisted by done.
    split; [by destruct Hc|]. split; [|split; [by intros cu [=]|done]].
    unfold persisted in *. cbn [storage appState adminHidden loggedOut shifts userPicks finishedUsers].
    done.
Qed.

Lemma pageRun_sessionOk rnd localDay es pn :
  Forall (λ a, a.1 = true ∧ fromControls a.2) es →
  sessionOk pn.1 → sessionOk (pageRun rnd localDay es pn).1.
Proof.
  revert pn. induction es as [|[ok e] es IH]; intros pn Hes Hinv; [done|].
  apply Forall_cons in Hes as [[Hok He] Hes]. cbn [fst snd] in Hok, He. subst ok.
  unfold pageRun. cbn [fold_left fst snd]. apply IH; [done|].
  by apply pageStep_sessionOk.
Qed.

Lemma openPage_empty_ok : sessionOk (openPage None).
Proof.
  split; [apply initial_consistent|]. split; [done|]. split; [by intros cu [=]|done].
Qed.

End PersistFacts.

Module Persisting.
Import JS Legacy LegacyFacts LegacyRuns LegacyPage PersistFacts.

(** X9. In a session that starts with an empty storage, in which every
    [setItem] goes through and the names and dates come from the form
    controls, the page can be reloaded at any moment without loss: after the
    reload the shifts, the claim lists, the lock flags and the hidden admin
    section are those of the page before, and nobody is logged in. *)
Theorem X9_reload_restores_all_but_the_login (rnd : nat → Z) (localDay : string → option Z)
    (es : list (bool * PageEvent)) :
  Forall (λ a, a.1 = true ∧ fromControls a.2) es →
  reload (pageRun rnd localDay es (openPage None, 0%nat)).1 =
    mkPage (loggedOut (appState (pageRun rnd localDay es (openPage None, 0%nat)).1))
      (adminHidden (pageRun rnd localDay es (openPage None, 0%nat)).1)
      (storage (pageRun rnd localDay es (openPage None, 0%nat)).1).
Proof.
  intros Hes.
  destruct (pageRun_sessionOk rnd localDay es (openPage None, 0%nat) Hes
              openPage_empty_ok) as (Hc&Hp&_).
  by apply reload_persisted.
Qed.

Lemma X9_witness :
  let es := [(true, PAdd "2025-09-03" "Puerta"); (true, PAdd "2025-09-01" "Traumato");
             (true, PFinishSetup); (true, PStart "Resident 1");
             (true, PSelect "2025-09-03-puerta"); (true, PFinish); (true, PBack);
             (true, PStart "Resident 2"); (true, PSelect "2025-09-03-puerta");
             (true, PSelect "2025-09-01-traumato"); (true, PResolve)] in
  let p := (pageRun Examples.rnd0 Examples.noLocalDay es (openPage None, 0%nat)).1 in
  currentUser (appState p) = Some "Resident 2"%string ∧
  reload p = mkPage (loggedOut (appState p)) (adminHidden p) (storage p).
Proof.
  intros es p. split; [by vm_compute|].
  apply (X9_reload_restores_all_but_the_login Examples.rnd0 Examples.noLocalDay es).
  refine (bool_decide_unpack _ _). by vm_compute.
Defined.

End Persisting.

Module CalendarFacts.
Import JS JSText Legacy LegacyPage.
Local Open Scope nat_scope.

Lemma mod7_succ (a : nat) :
  ((a + 1) mod 7 = 0 ↔ a mod 7 = 6) ∧
  ((a + 1) mod 7 ≠ 0 → (a + 1) mod 7 = a mod 7 + 1).
Proof.
  pose proof (Nat.div_mod_eq a 7). pose proof (Nat.mod_upper_bound a 7).
  pose proof (Nat.div_mod_eq (a + 1) 7). pose proof (Nat.mod_upper_bound (a + 1) 7).
  lia.
Qed.

Lemma fillDays_spec (s : nat) (cellFor : nat → Cell) (m : nat) :
  ∀ d0 row table,
    1 ≤ d0 → length row = (s + d0 - 1) mod 7 →
    Forall (λ r, length r = 7) table →
    ∃ row' table',
      fillDays (Some s) cellFor (seq d0 m) row table = (row', table') ∧
      Forall (λ r, length r = 7) table' ∧
      concat table' ++ row' = concat table ++ row ++ (cellFor <$> seq d0 m) ∧
      length row' = (s + d0 + m - 1) mod 7.
Proof.
  induction m as [|m IH]; intros d0 row table Hd Hlen Hall.
  - exists row, table. cbn [seq fillDays fmap list_fmap].
    rewrite app_nil_r, Nat.add_0_r. done.
  - cbn [seq fillDays fmap option_fmap option_map].
    destruct (mod7_succ (s + d0 - 1)) as [Hz Hs].
    replace (s + d0 - 1 + 1) with (s + d0) in Hz, Hs by lia.
    destruct (decide (Some ((s + d0) mod 7) = Some 0)) as [E|E].
    + apply (inj Some) in E.
      destruct (IH (S d0) [] (table ++ [row ++ [cellFor d0]])) as (row' & table' & HF & HA & HC & HL).
      * lia.
      * cbn [length]. replace (s + S d0 - 1) with (s + d0) by lia. by rewrite E.
      * apply Forall_app; split; [done|]. apply Forall_singleton.
        rewrite length_app; cbn [length]. apply Hz in E. lia.
      * exists row', table'. split; [done|]. split; [done|]. split.
        -- rewrite HC, concat_app; cbn [concat app fmap list_fmap].
           rewrite app_nil_r, <- !app_assoc. done.
        -- rewrite HL. f_equal. lia.
    + assert ((s + d0) mod 7 ≠ 0) as E' by (by intros E'; apply E; rewrite E').
      destruct (IH (S d0) (row ++ [cellFor d0]) table) as (row' & table' & HF & HA & HC & HL).
      * lia.
      * rewrite length_app; cbn [length].
        replace (s + S d0 - 1) with (s + d0) by lia. rewrite Hs by done. lia.
      * done.
      * exists row', table'. split; [done|]. split; [done|]. split.
        -- rewrite HC. cbn [fmap list_fmap]. rewrite <- !app_assoc. done.
        -- rewrite HL. f_equal. lia.
Qed.

(** The rows: all of seven cells, and read row by row they are the empty
    cells before the first day, the days in order, and fewer than seven empty
    cells at the end. *)
Lemma monthRows_spec (s n : nat) (cellFor : nat → Cell) :
  s < 7 →
  Forall (λ r, length r = 7) (monthRows (Some s) (Some n) cellFor) ∧
  ∃ k, k < 7 ∧
    concat (monthRows (Some s) (Some n) cellFor) =
      replicate s Blank ++ (cellFor <$> seq 1 n) ++ replicate k Blank.
Proof.
  intros Hs. unfold monthRows. cbn [from_option]. unfold id.
  destruct (fillDays_spec s cellFor n 1 (replicate s Blank) [])
    as (row & table & -> & HA & HC & HL).
  - done.
  - rewrite length_replicate. replace (s + 1 - 1) with s by lia.
    by rewrite Nat.mod_small.
  - done.
  - cbn [concat app] in HC.
    assert (length row < 7) as Hlt by (rewrite HL; apply Nat.mod_upper_bound; lia).
    destruct (decide (row = [])) as [->|Hne].
    + split; [done|]. exists 0. split; [lia|].
      rewrite app_nil_r in HC. rewrite HC. cbn [replicate]. by rewrite app_nil_r.
    + split.
      * apply Forall_app; split; [done|]. apply Forall_singleton.
        rewrite length_app, length_replicate. lia.
      * exists (7 - length row). split; [destruct row; [done|cbn [length]; lia]|].
        rewrite concat_app; cbn [concat]. rewrite app_nil_r, app_assoc, HC.
        by rewrite <- !app_assoc.
Qed.

(** Reading a table of rows of seven cells by row and column. *)
Lemma lookup_rows {A} (rows : list (list A)) (i : nat) :
  Forall (λ r, length r = 7) rows →
  rows !! (i / 7) ≫= (λ r, r !! (i mod 7)) = concat rows !! i.
Proof.
  intros Hall. revert i. induction Hall as [|r rows Hr _ IH]; intros i.
  - done.
  - cbn [concat]. destruct (decide (i < 7)) as [Hi|Hi].
    + rewrite Nat.div_small, Nat.mod_small by done. cbn.
      by rewrite lookup_app_l by lia.
    + rewrite lookup_app_r by lia. rewrite Hr, <- IH.
      pose proof (Nat.div_mod_eq i 7). pose proof (Nat.mod_upper_bound i 7).
      pose proof (Nat.div_mod_eq (i - 7) 7). pose proof (Nat.mod_upper_bound (i - 7) 7).
      assert (i / 7 = S ((i - 7) / 7)) as -> by lia.
      assert (i mod 7 = (i - 7) mod 7) as -> by lia.
      done.
Qed.

(** The marks of a cell depend on its column only. *)
Lemma dayClasses_spec (c : nat) :
  ("mon-cell"%string ∈
     (if decide (Some c = Some 0) then ["mon-cell"%string] else []) ++
     (if decide (Some c = Some 4) then ["fri-cell"%string] else []) ↔ c = 0) ∧
  ("fri-cell"%string ∈
     (if decide (Some c = Some 0) then ["mon-cell"%string] else []) ++
     (if decide (Some c = Some 4) then ["fri-cell"%string] else []) ↔ c = 4).
Proof.
  destruct (decide (Some c = Some 0)) as [E|E];
    destruct (decide (Some c = Some 4)) as [E'|E'];
    rewrite ?elem_of_app, ?elem_of_cons, ?elem_of_nil;
    try (apply (inj Some) in E); try (apply (inj Some) in E');
    (split; split; intros H); subst; try done; try tauto;
    try (by exfalso; apply E; f_equal); try (by exfalso; apply E'; f_equal);
    try (by left; left); try (by right; left);
    naive_solver.
Qed.

End CalendarFacts.

Module CalendarTables.
Import JS JSText Legacy LegacyPage CalendarFacts.
Local Open Scope nat_scope.

(** X10. The table of a month whose first day has weekday number [firstDay]
    (Sunday 0) and which has [n] days: every row has seven cells; day [d] is
    in row [(s + d - 1) / 7], column [(s + d - 1) mod 7] where [s] is
    [(firstDay + 6) mod 7], it is marked [mon-cell] exactly when it is a
    Monday and [fri-cell] exactly when it is a Friday, and it lists the
    shifts of the month dated that day; all cells before day 1 are empty and
    at most six empty cells follow the last day. *)
Theorem X10_calendar_rows_are_weeks (yearStr monthStr : string) (shiftsInMonth : list Shift)
    (firstDay n : nat) :
  firstDay < 7 →
  let s := (firstDay + 6) mod 7 in
  let cellFor := dayCell yearStr monthStr shiftsInMonth (Some s) in
  let rows := monthRows (startIndexOf (Some firstDay)) (Some n) cellFor in
  Forall (λ r, length r = 7) rows ∧
  (∃ k, k < 7 ∧
     concat rows = replicate s Blank ++ (cellFor <$> seq 1 n) ++ replicate k Blank) ∧
  ∀ d, 1 ≤ d ≤ n →
    ∃ c, rows !! ((s + d - 1) / 7) ≫= (λ r, r !! ((s + d - 1) mod 7)) = Some (Day c) ∧
      cellDate c = d ∧
      ("mon-cell"%string ∈ cellClasses c ↔ (firstDay + d - 1) mod 7 = 1) ∧
      ("fri-cell"%string ∈ cellClasses c ↔ (firstDay + d - 1) mod 7 = 5) ∧
      cellEntries c =
        entryFor <$> filter (λ x, date x =
          (yearStr ++ "-" ++ padStart2 monthStr ++ "-" ++ pad2 (Z.of_nat d))%string)
          shiftsInMonth.
Proof.
  intros Hf s cellFor rows.
  assert (s < 7) as Hs by (apply Nat.mod_upper_bound; lia).
  destruct (monthRows_spec s n cellFor Hs) as [Hall (k & Hk & Hc)].
  change (monthRows (Some s) (Some n) cellFor) with rows in Hall, Hc.
  split; [done|]. split; [by exists k|].
  intros d Hd.
  rewrite (lookup_rows rows _ Hall), Hc.
  rewrite lookup_app_r by (rewrite length_replicate; lia).
  rewrite length_replicate.
  rewrite lookup_app_l by (rewrite length_fmap, length_seq; lia).
  rewrite list_lookup_fmap.
  rewrite (lookup_seq_lt 1 n (s + d - 1 - s)) by lia.
  replace (1 + (s + d - 1 - s)) with d by lia.
  cbn [fmap option_fmap option_map]. unfold cellFor, dayCell.
  eexists. split; [reflexivity|]. cbn [cellDate cellClasses cellEntries fmap option_fmap option_map].
  split; [done|].
  pose proof (Nat.div_mod_eq (firstDay + 6) 7) as E1.
  pose proof (Nat.div_mod_eq (s + d - 1) 7) as E2.
  pose proof (Nat.mod_upper_bound (s + d - 1) 7) as B2.
  pose proof (Nat.div_mod_eq (firstDay + d - 1) 7) as E3.
  pose proof (Nat.mod_upper_bound (firstDay + d - 1) 7) as B3.
  fold s in E1.
  destruct (dayClasses_spec ((s + d - 1) mod 7)) as [Hmon Hfri].
  split; [rewrite Hmon; lia|]. split; [rewrite Hfri; lia|done].
Qed.

Lemma X10_witness :
  4 < 7 ∧
  Forall (λ r, length r = 7)
    (monthRows (startIndexOf (Some 4)) (Some 31)
       (dayCell "2026" "1" [] (Some ((4 + 6) mod 7)))).
Proof.
  split; [lia|].
  exact (proj1 (X10_calendar_rows_are_weeks "2026" "1" [] 4 31 ltac:(lia))).
Defined.

End CalendarTables.

(** * The order of the passes *)

(** ** The ledger in the middle of a pass *)
Module PassFacts.
Import JS Planner ListFacts PlannerFacts.

(** A list that is what a filter by membership leaves of another. *)
Lemma without_kept i (l : list string) :
  without i l = filter (λ x, x ∈ without i l) l.
Proof.
  unfold without at 1. apply filter_ext_in. intros x Hx. rewrite elem_of_without. tauto.
Qed.

Lemma kept_refl (l : list string) : l = filter (λ x, x ∈ l) l.
Proof.
  symmetry. etrans; [|apply (filter_all (λ _, True))]; [|done].
  apply filter_ext_in. tauto.
Qed.

Lemma kept_trans (l0 l1 l2 : list string) :
  l1 = filter (λ x, x ∈ l1) l0 → l2 = filter (λ x, x ∈ l2) l1 →
  l2 = filter (λ x, x ∈ l2) l0.
Proof.
  intros H1 H2. rewrite H2 at 1. rewrite H1 at 1. rewrite list_filter_filter.
  apply filter_ext_in. intros x Hx. split; [tauto|]. intros Hx2. split; [done|].
  rewrite H2 in Hx2. by apply list_elem_of_filter in Hx2 as [_ ?].
Qed.

Section Pass.
Variable rnd : nat → Z.

Lemma resolveShift_kept cs s st n st' n' :
  (∀ r, r ∈ cs → is_Some (picks st !! r)) →
  resolveShift rnd cs s st n = Some (st', n') →
  ∀ r, picksOf st' r = filter (λ x, x ∈ picksOf st' r) (picksOf st r).
Proof.
  intros Hdef E r. unfold resolveShift in E.
  destruct (decide (length cs ≤ 1)%nat).
  { injection E as <- <-. apply kept_refl. }
  destruct (sortM (fairCmp rnd st) cs n) as [ranked n1].
  destruct (removeLosers_spec (head ranked) (shiftId s) cs st Hdef) as (st1&E1&_&L).
  rewrite E1 in E. cbn [mbind option_bind] in E. injection E as <- <-.
  unfold picksOf. rewrite L. destruct (decide _); [|apply kept_refl].
  destruct (picks st !! r) as [l|]; [|done]. apply without_kept.
Qed.

Lemma resolveLoop_kept T l st n st' n' :
  covers T st →
  resolveLoop rnd T l st n = Some (st', n') →
  ∀ r, picksOf st' r = filter (λ x, x ∈ picksOf st' r) (picksOf st r).
Proof.
  revert st n. induction l as [|s l IH]; intros st n Hc E r; cbn [resolveLoop] in E.
  - injection E as <- <-. apply kept_refl.
  - destruct (resolveShift_spec rnd (T (shiftId s)) s st n) as (st1&n1&E1&_&Hs1&_);
      [apply Hc|].
    rewrite E1 in E. cbn [mbind option_bind] in E.
    eapply kept_trans.
    + apply (resolveShift_kept (T (shiftId s)) s st n st1 n1); [apply Hc|done].
    + apply (IH st1 n1); [by eapply covers_shrinks|done].
Qed.

(** The pass at a contested shift [s]: the ledger [st1] it holds there has,
    of the claims of the start, all but those on earlier shifts that the
    pass ends without; the earlier shifts are resolved in it; and the one
    claimant the pass leaves on [s] has the smallest key on [st1]. *)
Lemma resolve_fresh_keys st n pre s post :
  NoDup (residents st) →
  NoDup (shiftId <$> shifts st) →
  shifts st = pre ++ s :: post →
  (1 < length (whoIsAssigned st (shiftId s)))%nat →
  ∃ st1 st2 n2 w,
    resolveConflictsFair rnd st n = Some (st2, n2) ∧
    sameFrame st st1 ∧
    (∀ r, picksOf st1 r =
          filter (λ i, i ∈ (shiftId <$> pre) → i ∈ picksOf st2 r) (picksOf st r)) ∧
    (∀ p, p ∈ pre → (length (whoIsAssigned st1 (shiftId p)) ≤ 1)%nat) ∧
    whoIsAssigned st2 (shiftId s) = [w] ∧
    w ∈ whoIsAssigned st (shiftId s) ∧
    (∀ r, r ∈ whoIsAssigned st (shiftId s) → keyLe (metric st1 w) (metric st1 r)).
Proof.
  intros Hnd Hids Hsplit Hlen.
  destruct (resolve_winner_minimal rnd st n pre s post Hnd Hids Hsplit Hlen)
    as (st1&n1&st2&n2&w&E1&E&Hsame&Hw&Hmin&Hfin).
  set (T := whoIsAssigned st) in *. set (i := shiftId s) in *.
  pose proof Hids as Hids'.
  rewrite Hsplit, fmap_app, fmap_cons in Hids'.
  apply NoDup_app in Hids' as (Hpre_nd&Hpre&Hpost).
  pose proof (covers_whoIsAssigned st) as Hc.
  destruct (resolveLoop_spec rnd T pre st n Hc) as (st1'&n1'&E1'&_&Hs1&Ho1&Ha1).
  rewrite E1 in E1'. injection E1' as <- <-.
  pose proof (covers_shrinks _ _ _ Hs1 Hc) as Hc1.
  (* the rest of the pass, from [st1] *)
  assert (resolveLoop rnd T (s :: post) st1 n1 = Some (st2, n2)) as E2.
  { unfold resolveConflictsFair in E. fold T in E.
    rewrite Hsplit, resolveLoop_app, E1 in E. done. }
  destruct (resolveLoop_spec rnd T (s :: post) st1 n1 Hc1) as (st2'&n2'&E2'&_&Hs2&Ho2&_).
  rewrite E2 in E2'. injection E2' as <- <-.
  exists st1, st2, n2, w. split; [done|]. split; [apply Hs1|]. split; [|split].
  - intros r. rewrite (resolveLoop_kept T pre st n st1 n1 Hc E1 r) at 1.
    apply filter_ext_in. intros x Hx. split.
    + intros Hx1 Hin. apply Ho2; [|done]. intros p Hp Hpx.
      apply (Hpre x); [done|]. rewrite <- Hpx.
      change (shiftId s :: (shiftId <$> post)) with (shiftId <$> s :: post).
      apply list_elem_of_fmap. eauto.
    + intros Himp. destruct (decide (x ∈ shiftId <$> pre)) as [Hin|Hout].
      * eapply shrinks_elem; [exact Hs2|]. by apply Himp.
      * apply Ho1; [|done]. intros p Hp Hpx. apply Hout. rewrite <- Hpx.
        apply list_elem_of_fmap. eauto.
  - intros p Hp. apply whoIsAssigned_atMostOne; [|by apply Ha1].
    destruct Hs1 as [(_&_&Hr&_) _]. by rewrite Hr.
  - split; [done|]. rewrite <- Hsame. split; [done|]. done.
Qed.
End Pass.

End PassFacts.

(** ** The ledger in the middle of a fill *)
Module FillTrace.
Import JS Planner SortFacts ListFacts PlannerFacts PlannerRuns PlannerPage StatsFacts FillFacts.

Section Fill.
Variable rnd : nat → Z.

(** One empty shift nobody holds: it goes to a resident below the quota
    whose key is the smallest of all, unless everybody is full. *)
Lemma assignOne_keymin s st n :
  hydrated st → residents st ≠ [] →
  (∀ r, r ∈ residents st → shiftId s ∉ picksOf st r) →
  ∃ st1, assignOne rnd s st n =
           Some (st1, (sortM (fillCmp rnd st) (residents st) n).2) ∧
    ((st1 = st ∧ allFull st) ∨
     ∃ w, w ∈ residents st ∧ st1 = pushPick st w (shiftId s) ∧
       Z.of_nat (length (picksOf st w)) < slotsPerResident (config st) ∧
       ∀ r, r ∈ residents st → keyLe (metric st w) (metric st r)).
Proof.
  intros Hh Hne Hfree. destruct (assignOne_spec rnd s st n Hh Hne) as (st1&E&Hf).
  exists st1. split; [done|].
  pose proof (firstAble_minimal rnd st (shiftId s) (residents st) n st1 Hf) as Hmin.
  destruct Hf as [(pre&w&post&Hsplit&Hpre&Hw&->)|[Hall ->]].
  - right. destruct Hmin as [Heq|(w'&Hw'&Heq&Hcan&Hle)].
    + exfalso. apply canTake_true in Hw as [Hw _]. apply Hw.
      assert (picksOf st w = picksOf (pushPick st w (shiftId s)) w) as -> by by rewrite Heq.
      rewrite picksOf_pushPick, decide_True by done. set_solver.
    + assert (w' = w) as ->.
      { destruct (decide (w' = w)) as [|Hne']; [done|]. exfalso.
        assert (picksOf (pushPick st w (shiftId s)) w =
                picksOf (pushPick st w' (shiftId s)) w) as Hp by by rewrite Heq.
        rewrite !picksOf_pushPick, decide_True, decide_False in Hp by done.
        apply (f_equal length) in Hp. rewrite length_app in Hp. simpl in Hp. lia. }
      exists w. split; [done|]. split; [done|].
      pose proof (canTake_true _ _ _ Hcan) as [_ Hbelow]. split; [done|].
      intros r Hr.
      destruct (canTake_defined st r (shiftId s) (Hh r Hr)) as [[|] Hb].
      * by apply Hle.
      * apply canTake_false in Hb as [Hb|Hb]; [by apply Hfree in Hb|].
        left. unfold metric. cbn [fst].
        destruct (statsFor_bounds st w) as [_ ->].
        destruct (statsFor_bounds st r) as [_ ->]. lia.
  - left. split; [done|]. intros r Hr.
    assert (r ∈ (sortM (fillCmp rnd st) (residents st) n).1) as Hr'
      by by apply sortM_elem_of.
    specialize (Hall r Hr'). apply canTake_false in Hall as [Hb|Hb]; [|done].
    by apply Hfree in Hb.
Qed.

(** The fill over the shifts of [l], none of which has a claimant: what it
    ends with, and what it does at each shift in terms of the ledger it
    holds there. *)
Lemma assignLoop_trace l st n :
  hydrated st → residents st ≠ [] → NoDup (residents st) → withinQuota st →
  NoDup (shiftId <$> l) →
  (∀ s r, s ∈ l → r ∈ residents st → shiftId s ∉ picksOf st r) →
  ∃ st' n', assignLoop rnd l st n = Some (st', n') ∧
    sameFrame st st' ∧
    (∀ r, r ∈ residents st →
          picksOf st' r =
            picksOf st r ++ filter (λ i, i ∈ picksOf st' r) (shiftId <$> l)) ∧
    ∀ done s rest, l = done ++ s :: rest →
      ∃ st1, sameFrame st st1 ∧
        (∀ r, r ∈ residents st →
              picksOf st1 r =
                picksOf st r ++ filter (λ i, i ∈ picksOf st' r) (shiftId <$> done)) ∧
        ((∃ w, whoIsAssigned st' (shiftId s) = [w] ∧
               Z.of_nat (length (picksOf st1 w)) < slotsPerResident (config st) ∧
               ∀ r, r ∈ residents st → keyLe (metric st1 w) (metric st1 r)) ∨
         (whoIsAssigned st' (shiftId s) = [] ∧ allFull st1)).
Proof.
  revert st n. induction l as [|s0 l IH]; intros st n Hh Hne Hndr Hq Hnd Hfree;
    cbn [assignLoop].
  - exists st, n. split; [done|]. split; [apply sameFrame_refl|]. split.
    + intros r _. cbn. by rewrite app_nil_r.
    + intros done s rest Hl. by destruct done.
  - rewrite fmap_cons in Hnd. apply NoDup_cons in Hnd as [Hs0 Hnd].
    set (i0 := shiftId s0) in *.
    destruct (assignOne_keymin s0 st n Hh Hne) as (sta&Ea&Hcase).
    { intros r Hr. apply (Hfree s0 r); [set_solver|done]. }
    rewrite Ea. cbn [mbind option_bind].
    (* the ledger after the first shift, in both cases *)
    assert (∃ g : string → list string,
              sameFrame st sta ∧ hydrated sta ∧ withinQuota sta ∧
              (∀ r, picksOf sta r = picksOf st r ++ g r) ∧
              (∀ r, g r = [] ∨ g r = [i0]) ∧
              ((∀ r, g r = [] ) ∧ sta = st ∧ allFull st ∨
               ∃ w, w ∈ residents st ∧ (∀ r, g r = [i0] ↔ w = r) ∧
                 Z.of_nat (length (picksOf st w)) < slotsPerResident (config st) ∧
                 ∀ r, r ∈ residents st → keyLe (metric st w) (metric st r)))
      as (g&Fa&Hha&Hqa&Hpa&Hg&Hcase').
    { destruct Hcase as [[-> Hfull]|(w&Hw&->&Hbelow&Hmin)].
      - exists (λ _, []). split; [apply sameFrame_refl|]. split; [done|]. split; [done|].
        split; [intros; by rewrite app_nil_r|]. split; [by left|]. by left.
      - exists (λ r, if decide (w = r) then [i0] else []).
        split; [apply sameFrame_pushPick|]. split; [by apply hydrated_pushPick|].
        split.
        { apply withinQuota_pushPick; [done|]. rewrite canTake_Some by by apply Hh.
          f_equal. apply andb_true_iff. split.
          - apply negb_true_iff. apply bool_decide_eq_false. by apply (Hfree s0 w); [set_solver|].
          - by apply Z.ltb_lt. }
        split.
        { intros r. rewrite picksOf_pushPick. destruct (decide _); [done|by rewrite app_nil_r]. }
        split; [intros r; destruct (decide _); [by right|by left]|].
        right. exists w. split; [done|]. split; [|done].
        intros r. by destruct (decide (w = r)). }
    assert (residents sta = residents st) as Hra by apply Fa.
    assert (config sta = config st) as Hca by apply Fa.
    assert (∀ s r, s ∈ l → r ∈ residents sta → shiftId s ∉ picksOf sta r) as Hfreea.
    { intros s r Hs Hr. rewrite Hra in Hr. rewrite Hpa.
      intros [Hx|Hx]%elem_of_app; [apply (Hfree s r); [set_solver|done|done]|].
      destruct (Hg r) as [G|G]; rewrite G in Hx; [by apply elem_of_nil in Hx|].
      apply list_elem_of_singleton in Hx. apply Hs0. rewrite <- Hx.
      apply list_elem_of_fmap. eauto. }
    assert (residents sta ≠ []) as Hnea by by rewrite Hra.
    assert (NoDup (residents sta)) as Hndra by by rewrite Hra.
    destruct (IH sta (sortM (fillCmp rnd st) (residents st) n).2
                Hha Hnea Hndra Hqa Hnd Hfreea) as (st'&n'&E&F&Hp&Htrace).
    exists st', n'. split; [done|].
    assert (sameFrame st st') as F' by exact (sameFrame_trans _ _ _ Fa F).
    assert (residents st' = residents st) as Hr' by apply F'.
    (* who holds the first shift in the end *)
    assert (∀ r, r ∈ residents st → (i0 ∈ picksOf st' r ↔ g r = [i0])) as Hi0.
    { intros r Hr. rewrite Hp by by rewrite Hra. rewrite Hpa, !elem_of_app. split.
      - intros [[Hx|Hx]|Hx].
        + exfalso. apply (Hfree s0 r); [set_solver|done|done].
        + destruct (Hg r) as [G|G]; [|done]. rewrite G in Hx. by apply elem_of_nil in Hx.
        + apply list_elem_of_filter in Hx as [_ Hx]. done.
      - intros G. left. right. rewrite G. set_solver. }
    assert (∀ r, r ∈ residents st →
              filter (λ i, i ∈ picksOf st' r) (i0 :: (shiftId <$> l)) =
              g r ++ filter (λ i, i ∈ picksOf st' r) (shiftId <$> l)) as Hfilter.
    { intros r Hr. rewrite filter_cons. destruct (decide (i0 ∈ picksOf st' r)) as [Hin|Hout].
      - apply Hi0 in Hin; [|done]. by rewrite Hin.
      - destruct (Hg r) as [G|G]; [by rewrite G|]. exfalso. by apply Hout, Hi0. }
    split; [done|]. split.
    { intros r Hr. rewrite fmap_cons, Hfilter by done.
      etrans; [apply Hp; by rewrite Hra|]. rewrite Hpa. by rewrite <- app_assoc. }
    intros done s rest Hl. destruct done as [|d0 done].
    + cbn [app] in Hl. injection Hl as <- <-. exists st.
      split; [apply sameFrame_refl|]. split; [intros r _; cbn; by rewrite app_nil_r|].
      fold i0. destruct Hcase' as [(Hnone&->&Hfull)|(w&Hw&Hgw&Hbelow&Hmin)].
      * right. split; [|done]. apply filter_none. intros r Hr Hin.
        rewrite Hr' in Hr. apply Hi0 in Hin; [|done]. by rewrite Hnone in Hin.
      * left. exists w. split; [|done]. unfold whoIsAssigned. rewrite Hr'.
        apply filter_only; [done|done|]. intros r Hr. rewrite Hi0 by done.
        rewrite Hgw. split; by intros ->.
    + cbn [app] in Hl. injection Hl as <- ->.
      destruct (Htrace done s rest eq_refl) as (st1&F1&Hp1&Hout).
      exists st1. split; [exact (sameFrame_trans _ _ _ Fa F1)|]. split.
      { intros r Hr. rewrite fmap_cons. fold i0.
        assert (filter (λ i, i ∈ picksOf st' r) (i0 :: (shiftId <$> done)) =
                g r ++ filter (λ i, i ∈ picksOf st' r) (shiftId <$> done)) as ->.
        { rewrite filter_cons. destruct (decide (i0 ∈ picksOf st' r)) as [Hin|Hout'].
          - apply Hi0 in Hin; [|done]. by rewrite Hin.
          - destruct (Hg r) as [G|G]; [by rewrite G|]. exfalso. by apply Hout', Hi0. }
        etrans; [apply Hp1; by rewrite Hra|]. rewrite Hpa. by rewrite <- app_assoc. }
      rewrite Hca, Hra in Hout. done.
Qed.
End Fill.

End FillTrace.

(** ** The claims on the order of a pass *)
Module Passes.
Import JS Examples Ledgers.

(** C3, in the form the code satisfies.
    [resolveConflictsFair] walks the array [state.shifts], that is, the
    shifts in the order in which they were added, and reads the keys afresh
    at every shift. Cut the array at a shift [s] with several claimants:
    the pass returns, and there is a ledger [st1], the one the pass holds on
    reaching [s], that differs from the starting ledger only in the claim
    lists, each of which is the list of the start without the claims on
    earlier shifts that the pass ends without; every earlier shift has at
    most one claimant in [st1]; and the pass leaves [s] with exactly one of
    its claimants, whose key (total claims, Monday/Friday claims) read on
    [st1] is the smallest among the claimants. A run that draws no random
    number gives the same result under any other source of random numbers.
    On the ledger [wedFirst] the Wednesday shift was added before the
    Monday shift; both are wanted by A (key (3,2)) and B (key (4,1)). The
    Wednesday shift goes to A and then the Monday shift to B, who by then is
    down to three claims, whatever the random numbers. On [byDate], which
    has the same shifts and the same claim lists and is shown in the same
    order, but whose shifts were added in the order of their dates, the
    Monday shift goes to A and the Wednesday shift to B. *)
Theorem C3_keys_are_read_afresh_in_array_order :
  (∀ (rnd : nat → Z) (st : Planner.State) (n : nat) pre s post,
     NoDup (Planner.residents st) →
     NoDup (Planner.shiftId <$> Planner.shifts st) →
     Planner.shifts st = pre ++ s :: post →
     (1 < length (Planner.whoIsAssigned st (Planner.shiftId s)))%nat →
     ∃ st1 st2 n2 w,
       Planner.resolveConflictsFair rnd st n = Some (st2, n2) ∧
       Planner.sameFrame st st1 ∧
       (∀ r, Planner.picksOf st1 r =
             filter (λ i, i ∈ (Planner.shiftId <$> pre) → i ∈ Planner.picksOf st2 r)
               (Planner.picksOf st r)) ∧
       (∀ p, p ∈ pre → (length (Planner.whoIsAssigned st1 (Planner.shiftId p)) ≤ 1)%nat) ∧
       Planner.whoIsAssigned st2 (Planner.shiftId s) = [w] ∧
       w ∈ Planner.whoIsAssigned st (Planner.shiftId s) ∧
       (∀ r, r ∈ Planner.whoIsAssigned st (Planner.shiftId s) →
             Planner.keyLe (Planner.metric st1 w) (Planner.metric st1 r))) ∧
  (∀ (rnd rnd' : nat → Z) (st : Planner.State) (n : nat) st',
     Planner.resolveConflictsFair rnd st n = Some (st', n) →
     Planner.resolveConflictsFair rnd' st n = Some (st', n)) ∧
  (∀ (rnd : nat → Z) (n : nat),
     Planner.shiftId <$> Planner.shifts wedFirst = [P.wed; P.mon; fri; tue; P.thu] ∧
     Planner.shiftId <$> Planner.shifts byDate = [P.mon; tue; P.wed; P.thu; fri] ∧
     Planner.picks wedFirst = Planner.picks byDate ∧
     PlannerPage.displayOrder (λ _ _, 0) wedFirst = Planner.shifts byDate ∧
     PlannerPage.displayOrder (λ _ _, 0) byDate = Planner.shifts byDate ∧
     Planner.whoIsAssigned wedFirst P.wed = [A; B] ∧
     Planner.whoIsAssigned wedFirst P.mon = [A; B] ∧
     Planner.metric wedFirst A = (3, 2) ∧
     Planner.metric wedFirst B = (4, 1) ∧
     (λ r, (Planner.whoIsAssigned r.1 P.wed, Planner.whoIsAssigned r.1 P.mon, r.2)) <$>
       Planner.resolveConflictsFair rnd wedFirst n = Some ([A], [B], n) ∧
     (λ r, (Planner.whoIsAssigned r.1 P.wed, Planner.whoIsAssigned r.1 P.mon, r.2)) <$>
       Planner.resolveConflictsFair rnd byDate n = Some ([B], [A], n)).
Proof.
  split; [|split].
  - intros rnd st n pre s post H1 H2 H3 H4.
    exact (PassFacts.resolve_fresh_keys rnd st n pre s post H1 H2 H3 H4).
  - intros rnd rnd' st n st'. apply PlannerFacts.resolve_deterministic.
  - intros rnd n. repeat (split; [by vm_compute|]). by vm_compute.
Qed.

Lemma C3_witness :
  (∃ st1 st2 n2 w,
     Planner.resolveConflictsFair rnd0 wedFirst 0 = Some (st2, n2) ∧
     Planner.sameFrame wedFirst st1 ∧
     (∀ r, Planner.picksOf st1 r =
           filter (λ i, i ∈ [P.wed] → i ∈ Planner.picksOf st2 r)
             (Planner.picksOf wedFirst r)) ∧
     (∀ p, p ∈ [P.shiftWed] →
           (length (Planner.whoIsAssigned st1 (Planner.shiftId p)) ≤ 1)%nat) ∧
     Planner.whoIsAssigned st2 P.mon = [w] ∧
     w ∈ Planner.whoIsAssigned wedFirst P.mon ∧
     (∀ r, r ∈ Planner.whoIsAssigned wedFirst P.mon →
           Planner.keyLe (Planner.metric st1 w) (Planner.metric st1 r))) ∧
  (∃ st', Planner.resolveConflictsFair rnd0 wedFirst 0 = Some (st', 0%nat) ∧
     ∀ rnd', Planner.resolveConflictsFair rnd' wedFirst 0 = Some (st', 0%nat)).
Proof.
  split.
  - apply (proj1 C3_keys_are_read_afresh_in_array_order rnd0 wedFirst 0%nat
             [P.shiftWed] P.shiftMon (drop 2 (Planner.shifts wedFirst))).
    + refine (bool_decide_unpack _ _). by vm_compute.
    + refine (bool_decide_unpack _ _). by vm_compute.
    + by vm_compute.
    + vm_compute. lia.
  - eexists. split; [by vm_compute|]. intros rnd'.
    apply (proj1 (proj2 C3_keys_are_read_afresh_in_array_order) rnd0 rnd' wedFirst 0%nat).
    by vm_compute.
Defined.

(** [script.js] on three shifts wanted by A (three claims) and B (four
    claims): A gets all three and no random number is drawn, so the third
    shift was still ranked with B counted at four claims. On the ledger in
    which B has given up the first two shifts B's key is (2,0) against A's
    (3,0), and there the third shift goes to B. *)
Lemma C3_counterexample :
  L.assignedOf L.threeContested L.tue = Some [A; B] ∧
  (λ r, (L.assignedOf r.1 L.wed, L.assignedOf r.1 L.thu, L.assignedOf r.1 L.tue, r.2)) <$>
    Legacy.resolveConflicts rnd0 noLocalDay L.threeContested 0
    = Some (Some [A], Some [A], Some [A], 0%nat) ∧
  Legacy.fairnessKey noLocalDay L.afterTwoRemovals A = (3, 0) ∧
  Legacy.fairnessKey noLocalDay L.afterTwoRemovals B = (2, 0) ∧
  L.assignedOf L.afterTwoRemovals L.tue = Some [A; B] ∧
  (λ r, L.assignedOf r.1 L.tue) <$>
    Legacy.resolveConflicts rnd0 noLocalDay L.afterTwoRemovals 0 = Some (Some [B]).
Proof. repeat split; by vm_compute. Qed.

(** C10, in the form the code satisfies.
    On a hydrated ledger with at least one resident and every claim list
    within the quota, [randomAssignRemaining] returns, keeps every claim
    list within the quota and only adds claims, each for a shift that had no
    claimant; the button's toast is "Random assignment complete." in every
    case, and nothing else is reported. On a valid ledger it walks the
    shifts without a claimant in the order of the array [state.shifts] (the
    order in which they were added) and appends what it assigns to the claim
    lists in that order. Cut the walk at any such shift [s]: there is a
    ledger [st1], the one the fill holds on reaching [s], that is the
    starting ledger with the earlier assignments of the fill appended; and
    either the fill leaves [s] with exactly one claimant, who on [st1] is
    below the quota and has the smallest key (total claims, Monday/Friday
    claims) of all residents (so the first of the ranking takes the shift,
    and nobody further down the ranking ever does), or every resident is at
    the quota on [st1] and [s] stays without a claimant. On [friFirst] the
    Friday shift was added before the Monday shift: it goes to Resident 4
    (no claims) and the Monday shift to Resident 3; on [monFirst], the same
    shifts added in the order of their dates, the Monday shift goes to
    Resident 4 and the Friday shift to Resident 3. *)
Theorem C10_fill_assigns_each_empty_shift_to_the_least_loaded :
  (∀ (rnd : nat → Z) (st : Planner.State) (n : nat),
     Planner.hydrated st → Planner.residents st ≠ [] → Planner.withinQuota st →
     ∃ st' n',
       Planner.randomAssignRemaining rnd st n = Some (st', n') ∧
       Planner.withinQuota st' ∧
       Planner.grows (emptyShifts st) st st' ∧
       Planner.randomBtnClick rnd st n =
         Some (Planner.Toast "Random assignment complete.", st', n')) ∧
  (∀ (rnd : nat → Z) (st : Planner.State) (n : nat),
     Planner.valid st →
     ∃ st' n',
       Planner.randomAssignRemaining rnd st n = Some (st', n') ∧
       (∀ r, r ∈ Planner.residents st →
             Planner.picksOf st' r =
               Planner.picksOf st r ++
               filter (λ i, i ∈ Planner.picksOf st' r)
                 (Planner.shiftId <$> emptyShifts st)) ∧
       ∀ done s rest, emptyShifts st = done ++ s :: rest →
         ∃ st1, Planner.sameFrame st st1 ∧
           (∀ r, r ∈ Planner.residents st →
                 Planner.picksOf st1 r =
                   Planner.picksOf st r ++
                   filter (λ i, i ∈ Planner.picksOf st' r) (Planner.shiftId <$> done)) ∧
           ((∃ w, Planner.whoIsAssigned st' (Planner.shiftId s) = [w] ∧
                  Z.of_nat (length (Planner.picksOf st1 w))
                    < Planner.slotsPerResident (Planner.config st) ∧
                  ∀ r, r ∈ Planner.residents st →
                       Planner.keyLe (Planner.metric st1 w) (Planner.metric st1 r)) ∨
            (Planner.whoIsAssigned st' (Planner.shiftId s) = [] ∧
             PlannerPage.allFull st1))) ∧
  (∀ (rnd : nat → Z) (n : nat),
     Planner.shiftId <$> emptyShifts friFirst = [fri; P.mon] ∧
     Planner.shiftId <$> emptyShifts monFirst = [P.mon; fri] ∧
     Planner.picks friFirst = Planner.picks monFirst ∧
     PlannerPage.displayOrder (λ _ _, 0) friFirst = Planner.shifts monFirst ∧
     Planner.metric friFirst <$> Planner.residents friFirst
       = [(3, 0); (2, 0); (1, 0); (0, 0)] ∧
     (λ r, (Planner.whoIsAssigned r.1 fri, Planner.whoIsAssigned r.1 P.mon, r.2)) <$>
       Planner.randomAssignRemaining rnd friFirst n
       = Some (["Resident 4"], ["Resident 3"], n)%string ∧
     (λ r, (Planner.whoIsAssigned r.1 fri, Planner.whoIsAssigned r.1 P.mon, r.2)) <$>
       Planner.randomAssignRemaining rnd monFirst n
       = Some (["Resident 3"], ["Resident 4"], n)%string).
Proof.
  split; [|split].
  - intros rnd st n Hh Hne Hq.
    destruct (PlannerFacts.randomAssignRemaining_spec rnd st n Hh Hne Hq)
      as (st'&n'&E&_&Hq'&Hg).
    exists st', n'. split; [done|]. split; [done|]. split; [done|].
    unfold Planner.randomBtnClick. by rewrite E.
  - intros rnd st n [[Vnd Vne] Vh Vq Vids Vd Vreg].
    destruct (FillTrace.assignLoop_trace rnd (emptyShifts st) st n Vh Vne Vnd Vq)
      as (st'&n'&E&_&Hp&Htrace).
    { by apply ListFacts.NoDup_fmap_filter. }
    { intros s r [Hs _]%list_elem_of_filter Hr Hi.
      assert (r ∈ Planner.whoIsAssigned st (Planner.shiftId s)) as Hin
        by by apply PlannerFacts.elem_of_whoIsAssigned.
      destruct (Planner.whoIsAssigned st (Planner.shiftId s));
        [by apply elem_of_nil in Hin|done]. }
    exists st', n'. by split.
  - intros rnd n. repeat (split; [by vm_compute|]). by vm_compute.
Qed.

Lemma C10_witness :
  (λ r, (Planner.whoIsAssigned r.1 (Planner.shiftId shift16),
         Planner.whoIsAssigned r.1 (Planner.shiftId shift17))) <$>
    Planner.randomAssignRemaining rnd0 oneSlotLeft 0
    = Some (["Resident 4"], [])%string ∧
  emptyShifts oneSlotLeft = [shift16; shift17] ∧
  (∃ st' n',
     Planner.randomAssignRemaining rnd0 oneSlotLeft 0 = Some (st', n') ∧
     Planner.withinQuota st' ∧
     Planner.grows (emptyShifts oneSlotLeft) oneSlotLeft st' ∧
     Planner.randomBtnClick rnd0 oneSlotLeft 0 =
       Some (Planner.Toast "Random assignment complete.", st', n')) ∧
  (∃ st' n',
     Planner.randomAssignRemaining rnd0 oneSlotLeft 0 = Some (st', n') ∧
     (∀ r, r ∈ Planner.residents oneSlotLeft →
           Planner.picksOf st' r =
             Planner.picksOf oneSlotLeft r ++
             filter (λ i, i ∈ Planner.picksOf st' r)
               (Planner.shiftId <$> emptyShifts oneSlotLeft)) ∧
     (∃ st1, Planner.sameFrame oneSlotLeft st1 ∧
        (∀ r, r ∈ Planner.residents oneSlotLeft →
              Planner.picksOf st1 r =
                Planner.picksOf oneSlotLeft r ++
                filter (λ i, i ∈ Planner.picksOf st' r) []) ∧
        ((∃ w, Planner.whoIsAssigned st' (Planner.shiftId shift16) = [w] ∧
               Z.of_nat (length (Planner.picksOf st1 w))
                 < Planner.slotsPerResident (Planner.config oneSlotLeft) ∧
               ∀ r, r ∈ Planner.residents oneSlotLeft →
                    Planner.keyLe (Planner.metric st1 w) (Planner.metric st1 r)) ∨
         (Planner.whoIsAssigned st' (Planner.shiftId shift16) = [] ∧
          PlannerPage.allFull st1))) ∧
     (∃ st1, Planner.sameFrame oneSlotLeft st1 ∧
        (∀ r, r ∈ Planner.residents oneSlotLeft →
              Planner.picksOf st1 r =
                Planner.picksOf oneSlotLeft r ++
                filter (λ i, i ∈ Planner.picksOf st' r) [Planner.shiftId shift16]) ∧
        ((∃ w, Planner.whoIsAssigned st' (Planner.shiftId shift17) = [w] ∧
               Z.of_nat (length (Planner.picksOf st1 w))
                 < Planner.slotsPerResident (Planner.config oneSlotLeft) ∧
               ∀ r, r ∈ Planner.residents oneSlotLeft →
                    Planner.keyLe (Planner.metric st1 w) (Planner.metric st1 r)) ∨
         (Planner.whoIsAssigned st' (Planner.shiftId shift17) = [] ∧
          PlannerPage.allFull st1)))).
Proof.
  assert (Planner.valid oneSlotLeft) as V
    by apply PlannerRuns.run_valid, PlannerRuns.initial_valid.
  split; [by vm_compute|]. split; [by vm_compute|]. split.
  - apply (proj1 C10_fill_assigns_each_empty_shift_to_the_least_loaded rnd0 oneSlotLeft 0%nat);
      apply V.
  - destruct (proj1 (proj2 C10_fill_assigns_each_empty_shift_to_the_least_loaded)
                rnd0 oneSlotLeft 0%nat V) as (st'&n'&E&Hp&Hcut).
    exists st', n'. split; [done|]. split; [done|]. split.
    + apply (Hcut [] shift16 [shift17]). by vm_compute.
    + apply (Hcut [shift16] shift17 []). by vm_compute.
Defined.

(** Everybody holds four shifts and the shift of 2025-09-17 has no claimant:
    the button leaves the state as it is and shows the same toast as on the
    fresh registry of three shifts, where it assigns all three. *)
Lemma C10_counterexample :
  Forall (λ r, Z.of_nat (length (Planner.picksOf P.allFull r)) = 4)
    (Planner.residents P.allFull) ∧
  Planner.whoIsAssigned P.allFull P.lastShift = [] ∧
  (λ r, r.1) <$> Planner.randomBtnClick rnd0 P.allFull 0 =
    Some (Planner.Toast "Random assignment complete.", P.allFull) ∧
  (λ r, (r.1.1, map (λ s, Planner.whoIsAssigned r.1.2 (Planner.shiftId s))
                  (Planner.shifts r.1.2))) <$>
    Planner.randomBtnClick rnd0 P.registry3 0
    = Some (Planner.Toast "Random assignment complete.",
            [["Resident 1"]; ["Resident 2"]; ["Resident 3"]]%string).
Proof.
  split; [|split; [|split]]; try by vm_compute.
  refine (bool_decide_unpack _ _). by vm_compute.
Qed.

End Passes.
